(* ===== verification/_CoqProject ===== *)
-Q . S2P
Prelude.v
Js.v
Firestore.v
Schema.v
Resolvers.v
Contract.v
Execute.v
Async.v
AsyncSim.v
Api.v
Concurrency.v
Validate.v
Bounds.v
Integrity.v
Lifecycle.v
Service.v
Scenarios.v
