(* ===== verification/Prelude.v ===== *)
(** * betlogan: a verification library for the Apollo/Firestore GraphQL API

    The program (src/apollo/src/index.ts, 102 lines) is a GraphQL server.
    Loading the module reads a credential file and initialises the
    Firebase app (lines 4-8), defines the schema [typeDefs] (lines 10-37)
    and the resolver map [resolvers] (lines 39-92), builds the Apollo
    server from both (lines 94-97) and starts listening, printing one
    line when the port is bound (lines 99-102).  Each request is then
    validated against the schema and executed: the server calls a
    resolver per selected field (or the default resolver, which reads the
    parent's property), completes the value against the field's declared
    type and recurses into the sub-selection.  The four resolvers
    ([User.items], [Item.user], [Query.items], [Query.user]) each issue
    one read to Firestore and reshape the result.  No state is written:
    an answer is a function of the store's contents at the time of the
    request and of the faults its reads meet.

    ** Files, and what they model

    - [Prelude] (this file): the settlement of a promise ([settled], with
      [settled_bind] for [await] and [try_catch] for [try]/[catch]) and
      its notation in [settled_scope]; string helpers for paths; [assoc]
      for property lookup and [insertion_order] for the key order of an
      object; the hint databases [betlogan] and [settled_rw] and the
      tactic [settle].
    - [Js]: document values, JavaScript values, [Error] objects of the
      classes the code uses, property access, [||], template-literal
      ToString, [Error.prototype.toString] and [new ApolloError(e)].
    - [Firestore]: the client calls the resolvers make ([doc],
      [collection], [where], path validation) and the reads as an
      interface: the class [DocStore] gives [get_doc] and [run_query],
      the class [DocStoreLaws] their contract against an abstract view (a
      map from document paths to data) and a fault model; [mem_store], an
      in-memory store with injectable faults, discharges it.
    - [Schema]: [typeDefs] as data and the checks a schema builder makes.
    - [Resolvers]: the four resolvers, each split into its [const]
      binding ([fetch_user_items], [fetch_item_author], [fetch_items],
      [fetch_user_doc]: one store read) and its return statement, written
      against [DocStore].
    - [Contract]: equality of settled values up to the order of a listing
      ([outcome_equiv], with [Equivalence] and [Proper] instances), and
      the refinement of the resolver map over any lawful store by the
      resolver map over the in-memory store with the same view.
    - [Execute]: graphql-js execution, generic in the schema and the
      resolver lookup, and [sel_conforms], the shape a response must have.
    - [Async]: the same execution as it runs on Node's event loop: a
      resolver call is a pending promise ([task], in the map [ec_tasks]
      of the execution context), the response under construction is a
      tree of promises ([ptree]), errors go to the shared list of the
      context, promises nobody awaits any more are kept as orphans, and
      [astep] settles any pending promise the scheduler picks ([settle]),
      propagating the result up the tree ([norm]) and taking the response
      when the root settles.
    - [AsyncSim]: the event loop simulates [Execute]: a denotation [den]
      of promise trees, the invariant [ainv] of every reachable state and
      the measure [work] that each turn strictly decreases.
    - [Api]: [server], execution with [typeDefs] and the resolver map,
      with Apollo's default error code.
    - [Concurrency]: the server's requests on the event loop
      ([aserver]) and two invariants of the states a request reaches
      after its listing settles, over any store: [owners_inv] for
      [items { user { id } }] (the owner reads settled so far, in order,
      and the errors they pushed), and [keys_inv] for
      [items { user { id } userId { id } }] (the promises of [Item.user]
      left without a handler).
    - [Validate]: the validation rules that apply to field selections
      (leaf selections, unknown fields and arguments, duplicate and
      missing arguments, argument literals, fields that cannot be
      merged), merging of selections by response name ([collectFields]),
      and [handle_request]: validation, then execution of the merged
      query.
    - [Bounds]: the depth of response data against the depth of the
      query.
    - [Integrity]: decidable consistency conditions on the database
      ([keyed_store], [referential]) and what they guarantee.
    - [Lifecycle]: the process: the module load as an executable
      [boot_step] (require, [credential.cert] and [initializeApp],
      [new ApolloServer], [listen], the startup line) and the step
      relation [pstep], which adds requests answered by [handle_request].
    - [Service]: the serving phase on the event loop, with requests
      served concurrently: the state [sproc] is the process, the id of
      the next request and the map of the requests in flight, each with
      the store it reads and its event-loop state.  The step relation
      [sstep] answers an invalid request at once, starts a valid one
      with [aserver] on its merged query, runs a turn of any request in
      flight, and drops a request whose loop has nothing left to settle;
      the answer is written in the turn that builds the response
      ([turn_effect]), and an unhandled rejection ends the process.
    - [Scenarios]: concrete stores and environments, runs of the model,
      and the witnesses of the theorems.

    ** What the theorems show

    The claims C1-C29 are statements about [index.ts]: each depends on
    a resolver, a declaration of [typeDefs] or a statement of the module
    load, and holds for every store the code may read where it says so.
    - Resolvers (C1-C8, [Resolvers]), for every store satisfying the
      laws: [Query.items] lists the collection, each document once;
      [User.items] returns exactly the items whose [userId] equals the
      parent's stored [id]; [Item.user] and [Query.user] read the named
      user document; the error taxonomy under fault injection; the edge
      cases of the code (a missing [id], an id with slashes or an even
      number of segments).
    - Responses (C9-C14, [Api]; C23, [Validate]; C25, [Api]): round trip
      of a stored user; a missing user gives [user: null] and "User not
      found."; a dangling owner nulls the item; [Item.userId] never
      completes; store failures are ordinary field errors, with the
      store's message or its [String(e)]; [items] has one entry per
      document; the empty id gives an internal error, not "User not
      found."; [user { items { title } }] answers the titles of exactly
      the user's items.
    - Process (C15-C18, [Lifecycle]): an invariant of every reachable
      state (nothing written while loading, the startup line first and
      once, then only answers; the default app exists from
      [initializeApp] on); liveness (a valid credential and a free port
      lead to serving); the unhandled rejection of [listen]; the crash
      on a missing credential file.
    - Consistency (C19, C20, [Integrity]; C24, [Contract]): on a keyed
      store [User.items] and [Item.user] are inverse; on a keyed,
      referential store [items { user { id } }] answers every item with
      its owner and no error; [User.items] is [Query.items] filtered on
      the owner, up to order.
    - Validation (C21, C22, [Validate]): [user] without [id] is rejected
      before any read; a valid request passes a string [id] to
      [Query.user].
    - Event loop (C26-C28, [Concurrency]), for every store whose
      listing succeeds: [items { user { id } }] makes one read per item
      plus the listing (the N+1 pattern, no batching), and its errors
      are the rejections of the owner reads in the order they settle,
      every order of the items being that of some run;
      [items { user { id } userId { id } }] answers every item with
      [null] and the error of [userId], and the rejection of the
      [Item.user] promise of every item whose owner is missing is an
      unhandled rejection.
    - Service (C29, [Service]): on every such store, that request ends a
      serving process in every order of its reads and of the other
      requests' turns.

    The claims rest on theorems about the executor and the runtime that
    hold for any schema and resolver map, and are kept as lemmas:
    [typeDefs_wf] (the schema checks), [server_response_conforms] and
    [response_depth_bound] (responses have the shape of the query),
    [resolvers_refine_view_store] (the resolvers over a lawful store
    behave as over the in-memory store with the same view),
    [valid_request_merged] and [valid_request_executes] (a valid request
    runs its merged query), [boot_terminates], [event_loop_data] and
    [event_loop_terminates] (the event loop builds the data of the
    sequential execution, in a bounded number of turns), and
    [service_refines_process] (concurrent serving refines the process
    of [Lifecycle] until an unhandled rejection ends it).

    ** Not modelled, and why

    Parsing of query text (queries are given as selection trees);
    fragments, aliases, variables and directives; the text of validation
    messages and their "Did you mean" suggestions (errors are kept as
    their kind and data); HTTP transport and the contents of the
    credential file beyond the fields [credential.cert] checks (the
    private-key parser is an input of the environment); the [Int],
    [Float] and [Boolean] result scalars, which [typeDefs] does not use.
    [Execute] runs sibling fields in selection order; [Async] runs them
    as graphql-js does, with the promise of each resolver settling when
    the scheduler picks it.  The one abstraction of [Async] is that the
    microtasks of one settlement run before those of the next: the
    reactions of two promises are not interleaved.  [Async] follows the
    [executeFields] of graphql-js 15, in which a field that throws
    synchronously abandons the promises of the fields before it; the
    repository pins no version of graphql-js, and later releases attach
    a handler to those promises, under which the unhandled rejections of
    C28 and C29 do not arise.  The messages of the Firestore client's
    path errors are kept without the quotes it prints around the
    argument name and the path.  Every read settles: a store request
    that hangs (spec
    section 5) is a run that stops, on which the theorems about
    reachable states still hold.  [Service] interleaves the turns of the
    requests in flight in any order, which covers what Node does; it
    does not model the HTTP layer that turns a request into a selection
    tree and a response into bytes.  The order of query results is left
    to the store, as its contract does.

    The Firestore client and the Apollo server are libraries the program
    only calls: their components are modelled through the calls the
    program makes (the [DocStore] interface and its laws, execution and
    validation of field selections), not through their own code, which
    is not part of the repository; the components that stand for them
    are therefore partly modelled.  A store kept as a tree of
    collections and documents would be one more instance of
    [DocStoreLaws]; it would describe the library, not the program, and
    is left out. *)

From stdpp Require Export base gmap strings list.
From stdpp Require Import options.

Declare Scope settled_scope.
Delimit Scope settled_scope with settled.

(** ** The settlement of a promise

    Every resolver is an [async] function: calling it yields a promise
    that is eventually fulfilled with a value or rejected with a thrown
    value.  The model of such a call is its settlement.  A synchronous
    [throw] inside an [async] body and a rejected [await] both settle the
    promise as [Rejected]. *)
Inductive settled (E A : Type) : Type :=
| Fulfilled (a : A)
| Rejected (e : E).
Arguments Fulfilled {E A} a.
Arguments Rejected {E A} e.

Definition settled_bind {E A B} (m : settled E A) (k : A -> settled E B) : settled E B :=
  match m with
  | Fulfilled a => k a
  | Rejected e => Rejected e
  end.

(** [try { body } catch (e) { handler }] *)
Definition try_catch {E A} (m : settled E A) (h : E -> settled E A) : settled E A :=
  match m with
  | Fulfilled a => Fulfilled a
  | Rejected e => h e
  end.

Notation "x <- m ;; k" := (settled_bind m (fun x => k))
  (at level 100, m at next level, right associativity) : settled_scope.

Lemma settled_bind_fulfilled {E A B} (a : A) (k : A -> settled E B) :
  settled_bind (Fulfilled a) k = k a.
Proof. reflexivity. Qed.

Lemma settled_bind_rejected {E A B} (e : E) (k : A -> settled E B) :
  settled_bind (Rejected e) k = Rejected e.
Proof. reflexivity. Qed.

Lemma try_catch_fulfilled {E A} (a : A) (h : E -> settled E A) :
  try_catch (Fulfilled a) h = Fulfilled a.
Proof. reflexivity. Qed.

Lemma try_catch_rejected {E A} (e : E) (h : E -> settled E A) :
  try_catch (Rejected e) h = h e.
Proof. reflexivity. Qed.

Lemma settled_bind_fulfilled_inv {E A B} (m : settled E A) (k : A -> settled E B) b :
  settled_bind m k = Fulfilled b -> exists a, m = Fulfilled a /\ k a = Fulfilled b.
Proof. destruct m; simpl; [eauto | discriminate]. Qed.

Create HintDb betlogan.
Create Rewrite HintDb settled_rw.
#[export] Hint Rewrite @settled_bind_fulfilled @settled_bind_rejected
  @try_catch_fulfilled @try_catch_rejected : settled_rw.

(** [settle] reduces every bind and catch whose settlement is known,
    and leaves the rest of the goal as it is. *)
Ltac settle := try autorewrite with settled_rw in *; cbn [settled_bind try_catch] in *.

(** ** Strings of the JavaScript runtime *)

Local Open Scope string_scope.

(** [s.split(c)] for a one-character separator [c]. *)
Fixpoint str_split (c : Ascii.ascii) (s : string) : list string :=
  match s with
  | EmptyString => [""]
  | String a s' =>
      let rest := str_split c s' in
      if decide (a = c) then "" :: rest
      else match rest with
           | r :: rs => String a r :: rs
           | [] => [String a ""]
           end
  end.

(** [s.indexOf(pat) >= 0] *)
Fixpoint str_contains (pat s : string) : bool :=
  String.prefix pat s ||
  match s with
  | EmptyString => false
  | String _ s' => str_contains pat s'
  end.

(** [c] occurs in [s]. *)
Fixpoint str_has_char (c : Ascii.ascii) (s : string) : bool :=
  match s with
  | EmptyString => false
  | String a s' => bool_decide (a = c) || str_has_char c s'
  end.

Lemma str_split_no_char c s :
  str_has_char c s = false -> str_split c s = [s].
Proof.
  induction s as [|a s IH]; simpl; [done|].
  intros Hf. apply orb_false_iff in Hf as [Ha Hs].
  rewrite IH by done. case_decide; [|done].
  by rewrite bool_decide_true in Ha.
Qed.

Lemma str_split_app_char c s1 s2 :
  str_has_char c s1 = false ->
  str_split c (s1 +:+ String c s2) = s1 :: str_split c s2.
Proof.
  induction s1 as [|a s1 IH]; simpl; intros Hf.
  - by rewrite decide_True.
  - apply orb_false_iff in Hf as [Ha Hs]. rewrite IH by done.
    rewrite decide_False; [done|]. intros ->. by rewrite bool_decide_true in Ha.
Qed.

Lemma str_has_char_app c s1 s2 :
  str_has_char c (s1 +:+ s2) = str_has_char c s1 || str_has_char c s2.
Proof. induction s1; simpl; [done|]. by rewrite IHs1, orb_assoc. Qed.

(** A string without [c] contains no pattern that starts with [c]. *)
Lemma str_contains_no_char c pat s :
  str_has_char c s = false -> str_contains (String c pat) s = false.
Proof.
  induction s as [|a s IH]; simpl; [done|].
  intros Hf. apply orb_false_iff in Hf as [Ha Hs].
  rewrite IH by done. rewrite orb_false_r.
  destruct (Ascii.ascii_dec c a) as [->|Hne]; [by rewrite bool_decide_true in Ha|done].
Qed.

(** [s1 + c + s2] contains no doubled separator when neither side
    contains the separator. *)
Lemma str_contains_sep c s1 s2 :
  str_has_char c s1 = false -> str_has_char c s2 = false ->
  str_contains (String c (String c "")) (s1 +:+ String c s2) = false.
Proof.
  intros H1 H2. induction s1 as [|a s1 IH]; simpl in *.
  - rewrite str_contains_no_char by done. rewrite orb_false_r.
    destruct (Ascii.ascii_dec c c) as [_|]; [|done].
    destruct s2 as [|b s2]; [done|]. simpl in H2.
    apply orb_false_iff in H2 as [Hb _]. simpl.
    destruct (Ascii.ascii_dec c b) as [->|]; [by rewrite bool_decide_true in Hb|done].
  - apply orb_false_iff in H1 as [Ha Hs]. rewrite IH by done. rewrite orb_false_r.
    destruct (Ascii.ascii_dec c a) as [->|]; [by rewrite bool_decide_true in Ha|done].
Qed.

(** ** Lists *)

(** Lookup of a key in the properties of an object literal, written as
    an association list (the first binding of a key wins). *)
Fixpoint assoc {A} (k : string) (l : list (string * A)) : option A :=
  match l with
  | [] => None
  | (k', v) :: l' => if decide (k = k') then Some v else assoc k l'
  end.

(** The distinct strings of a list in the order of their first
    occurrence: the key order of a JavaScript object filled in that
    order. *)
Definition insertion_order (l : list string) : list string :=
  foldl (fun (acc : list string) x => if decide (x ∈ acc) then acc else (acc ++ [x])%list) [] l.

(** A partial map that is injective on the first components it keeps
    preserves the absence of duplicate keys. *)
Lemma NoDup_omap_fst {K K' V V'} (f : K * V -> option (K' * V')) (l : list (K * V)) :
  (forall x y x' y', x ∈ l -> y ∈ l -> f x = Some x' -> f y = Some y' ->
     x'.1 = y'.1 -> x.1 = y.1) ->
  NoDup l.*1 -> NoDup (omap f l).*1.
Proof.
  induction l as [|x l IH]; intros Hinj Hnd; simpl; [constructor|].
  apply NoDup_cons in Hnd as [Hx Hnd].
  destruct (f x) as [x'|] eqn:Hfx; simpl.
  - constructor.
    + intros Hin. apply list_elem_of_fmap in Hin as [y' [Heq Hy']].
      apply list_elem_of_omap in Hy' as [y [Hy Hfy]].
      apply Hx, list_elem_of_fmap. exists y. split; [|done]. eapply (Hinj x y); [left|right|..]; done.
    + apply IH; [|done]. intros; eapply Hinj; eauto; right; done.
  - apply IH; [|done]. intros; eapply Hinj; eauto; right; done.
Qed.

(** A property that every step keeps holds along every path. *)
Lemma rtc_preserves {A} (R : relation A) (P : A -> Prop) x y :
  (forall a b, R a b -> P a -> P b) -> P x -> rtc R x y -> P y.
Proof. intros Hs Hx Hr. induction Hr; eauto. Qed.
