(* ===== verification/Js.v ===== *)
(** * Js: the JavaScript values and errors the resolvers handle

    Values stored in documents ([fvalue]), the values resolvers receive
    and return ([jsval]), the three kinds of [Error] object the code
    throws or returns ([js_error]), and the runtime operations the source
    uses on them: property access [o.k], [a || b], the string conversion
    of a template literal [`users/${x}`], [Error.prototype.toString] and
    the [new ApolloError(e)] of the [catch] blocks. *)
From S2P Require Import Prelude.
From stdpp Require Import pretty.
From stdpp Require Import options.

Local Open Scope string_scope.
#[local] Set Warnings "-register-all".

(** ** Document field values

    Every field the program reads ([id], [name], [birthday], [userId],
    [title], [content]) holds a scalar; integers are kept as [Z]. *)
Inductive fvalue :=
| FStr (s : string)
| FInt (z : Z)
| FBool (b : bool)
| FNull.

#[export] Instance fvalue_eq_dec : EqDecision fvalue.
Proof. solve_decision. Defined.

(** The data of a document: field name to value ([DocumentData]). *)
Abbreviation doc := (gmap string fvalue).

(** ** Errors *)

Inductive error_class := ErrorClass | ApolloErrorClass | ValidationErrorClass.

#[export] Instance error_class_eq_dec : EqDecision error_class.
Proof. solve_decision. Defined.

(** An [Error] object: its class, [name], [message] and the Apollo
    [extensions.code] it carries, if any. *)
Record js_error := JsError {
  err_class : error_class;
  err_name : string;
  err_message : string;
  err_code : option string
}.

#[export] Instance js_error_eq_dec : EqDecision js_error.
Proof. solve_decision. Defined.

(** The settlement of an async call: fulfilled, or rejected with an
    error. *)
Abbreviation outcome := (settled js_error).

(** ** Values *)

Inductive jsval :=
| JUndefined
| JNull
| JStr (s : string)
| JNum (z : Z)
| JBool (b : bool)
| JObject (d : doc)          (** a plain object: a document's data or the [args] *)
| JArray (xs : list jsval)
| JErr (e : js_error).       (** an [Error] instance used as a value *)

Definition of_fvalue (v : fvalue) : jsval :=
  match v with
  | FStr s => JStr s
  | FInt z => JNum z
  | FBool b => JBool b
  | FNull => JNull
  end.

(** [o.k].  A plain object answers its own fields; the model gives no
    property to primitives, arrays and errors, which is exact for the
    keys the program reads (none of them is an index or a member of a
    prototype). *)
Definition js_get (o : jsval) (k : string) : jsval :=
  match o with
  | JObject d => match d !! k with Some v => of_fvalue v | None => JUndefined end
  | _ => JUndefined
  end.

(** ToBoolean ([NaN] is not a value of the model). *)
Definition truthy (v : jsval) : bool :=
  match v with
  | JUndefined | JNull => false
  | JStr s => negb (bool_decide (s = ""))
  | JNum z => negb (Z.eqb z 0)
  | JBool b => b
  | JObject _ | JArray _ | JErr _ => true
  end.

(** [v instanceof Error] *)
Definition as_error (v : jsval) : option js_error :=
  match v with JErr e => Some e | _ => None end.

(** [a || b] *)
Definition js_or (a b : jsval) : jsval := if truthy a then a else b.

(** [Error.prototype.toString] (ECMA-262, 20.5.3.4). *)
Definition error_to_string (e : js_error) : string :=
  if bool_decide (err_name e = "") then err_message e
  else if bool_decide (err_message e = "") then err_name e
  else err_name e +:+ ": " +:+ err_message e.

(** ToString, as a template literal applies it to a substitution.
    Integers print in decimal, which is [Number.prototype.toString] for
    magnitudes below 10^21; an array joins its elements with commas,
    printing [null] and [undefined] as the empty string. *)
Fixpoint js_to_string (v : jsval) : string :=
  match v with
  | JUndefined => "undefined"
  | JNull => "null"
  | JStr s => s
  | JNum z => pretty z
  | JBool b => if b then "true" else "false"
  | JObject _ => "[object Object]"
  | JArray xs =>
      let elem (x : jsval) :=
        match x with JUndefined | JNull => "" | _ => js_to_string x end in
      (fix join (xs : list jsval) : string :=
         match xs with
         | [] => ""
         | [x] => elem x
         | x :: xs' => elem x +:+ "," +:+ join xs'
         end) xs
  | JErr e => error_to_string e
  end.

(** ** The errors the source builds *)

(** [new ApolloError(message, code)] *)
Definition apollo_error (message : string) (code : option string) : js_error :=
  JsError ApolloErrorClass "ApolloError" message code.

(** [new ValidationError(message)]: an [ApolloError] with the code
    [GRAPHQL_VALIDATION_FAILED]. *)
Definition validation_error (message : string) : js_error :=
  JsError ValidationErrorClass "ValidationError" message (Some "GRAPHQL_VALIDATION_FAILED").

(** [new ApolloError(e)] for a caught error [e]: the constructor's
    [message] parameter receives the error object itself, which
    [super(message)] converts with ToString, and no code. *)
Definition apollo_error_of (e : js_error) : js_error :=
  apollo_error (error_to_string e) None.

(** [catch (e) { throw new ApolloError(e); }] *)
Definition rethrow_apollo {A} (e : js_error) : outcome A :=
  Rejected (apollo_error_of e).

(** A plain [Error] with a message, as the store client throws. *)
Definition plain_error (message : string) : js_error :=
  JsError ErrorClass "Error" message None.

(** ** Lemmas *)

Lemma error_to_string_named e :
  err_name e <> "" -> err_message e <> "" ->
  error_to_string e = err_name e +:+ ": " +:+ err_message e.
Proof.
  intros Hn Hm. unfold error_to_string.
  rewrite !bool_decide_false by done. done.
Qed.

Lemma js_get_field d k v :
  d !! k = Some v -> js_get (JObject d) k = of_fvalue v.
Proof. intros H. simpl. by rewrite H. Qed.

Lemma js_get_missing d k :
  d !! k = None -> js_get (JObject d) k = JUndefined.
Proof. intros H. simpl. by rewrite H. Qed.

Lemma js_or_truthy a b : truthy a = true -> js_or a b = a.
Proof. unfold js_or. by intros ->. Qed.

Lemma js_or_falsy a b : truthy a = false -> js_or a b = b.
Proof. unfold js_or. by intros ->. Qed.

#[export] Hint Resolve js_get_field js_get_missing : betlogan.
