(* ===== verification/Firestore.v ===== *)
(** * Firestore: the document store behind [firebaseAdmin.firestore()]

    The store is external to the repository.  This file models the part
    of the client that runs synchronously in the resolvers (resource
    paths, [doc], [collection], [where]) and states what a read returns
    as an interface: [DocStore] gives the two reads ([DocumentReference.get]
    and [Query.get]) and [DocStoreLaws] their contract against an abstract
    view of the database (a map from document paths to document data) and
    a fault model (the error a read under a path meets).  [mem_store], an
    in-memory store with injectable faults, is an instance that discharges
    the laws; the resolvers are proved against the interface. *)
From Stdlib Require Import Ascii.
From S2P Require Import Prelude Js.
From stdpp Require Import options.

Local Open Scope string_scope.

(** ** Resource paths *)

(** The segments of a slash-separated path; empty segments (a leading or
    trailing slash) are dropped. *)
Definition path_segments (p : string) : list string :=
  filter (fun seg => seg <> "") (str_split "/"%char p).

Definition invalid_path_error (arg detail : string) : js_error :=
  plain_error ("Value for argument " +:+ arg +:+ " is not a valid resource path. " +:+ detail).

Definition validate_resource_path (arg p : string) : option js_error :=
  if bool_decide (p = "") then Some (invalid_path_error arg "Path must be a non-empty string.")
  else if str_contains "//" p then Some (invalid_path_error arg "Paths must not contain //.")
  else None.

Definition is_document (segs : list string) : bool :=
  bool_decide (segs <> []) && Nat.even (length segs).

Definition is_collection (segs : list string) : bool := Nat.odd (length segs).

(** A [DocumentReference]: the segments of its path. *)
Record docref := DocRef { dr_path : list string }.

(** [firestore().doc(p)]: throws on a malformed path or on a path with
    an odd number of segments. *)
Definition firestore_doc (p : string) : outcome docref :=
  match validate_resource_path "documentPath" p with
  | Some e => Rejected e
  | None =>
      let segs := path_segments p in
      if is_document segs then Fulfilled (DocRef segs)
      else Rejected (plain_error ("Value for argument documentPath must point to a document, but was "
                                  +:+ p +:+ ". Your path does not contain an even number of components."))
  end.

(** A [Query]: the collection it scans and its equality filters. *)
Record query := Query { q_path : list string; q_filters : list (string * jsval) }.

(** [firestore().collection(p)] *)
Definition firestore_collection (p : string) : outcome query :=
  match validate_resource_path "collectionPath" p with
  | Some e => Rejected e
  | None =>
      let segs := path_segments p in
      if is_collection segs then Fulfilled (Query segs [])
      else Rejected (plain_error ("Value for argument collectionPath must point to a collection, but was "
                                  +:+ p +:+ ". Your path does not contain an odd number of components."))
  end.

Definition undefined_value_error : js_error :=
  plain_error "Value for argument value is not a valid query constraint. Cannot use undefined as a Firestore value.".

(** [q.where(field, '==', v)]: [undefined] and [Error] objects are not
    Firestore values and make the call throw. *)
Definition query_where_eq (q : query) (field : string) (v : jsval) : outcome query :=
  match v with
  | JUndefined => Rejected undefined_value_error
  | JErr _ => Rejected (plain_error
      "Value for argument value is not a valid Firestore document. Couldn't serialize object of type Error.")
  | _ => Fulfilled (Query (q_path q) (q_filters q ++ [(field, v)]))
  end.

(** [==] between a stored value and a query value. *)
Definition fvalue_eqb (x : fvalue) (v : jsval) : bool :=
  match x, v with
  | FStr a, JStr b => bool_decide (a = b)
  | FInt a, JNum b => bool_decide (a = b)
  | FBool a, JBool b => bool_decide (a = b)
  | FNull, JNull => true
  | _, _ => false
  end.

Definition doc_matches (d : doc) (filters : list (string * jsval)) : bool :=
  forallb (fun '(f, v) => match d !! f with Some x => fvalue_eqb x v | None => false end) filters.

(** [snapshot.data()]: the document's fields, or [undefined] when the
    document does not exist. *)
Definition snapshot_data (snap : option doc) : jsval :=
  match snap with Some d => JObject d | None => JUndefined end.

(** ** The store interface *)

Class DocStore (S : Type) := {
  get_doc : S -> docref -> outcome (option doc);
  run_query : S -> query -> outcome (list (string * doc))
}.

(** [qs] lists, once each, the documents directly under the query's
    collection that pass its filters, with their ids; the order is the
    store's. *)
Definition query_listing (view : gmap (list string) doc) (q : query)
    (qs : list (string * doc)) : Prop :=
  NoDup qs.*1 /\
  forall id d, (id, d) ∈ qs <->
    view !! (q_path q ++ [id])%list = Some d /\ doc_matches d (q_filters q) = true.

Class DocStoreLaws (S : Type) `{!DocStore S} := {
  store_view : S -> gmap (list string) doc;
  store_fault : S -> list string -> option js_error;
  get_doc_fault s r e :
    store_fault s (dr_path r) = Some e -> get_doc s r = Rejected e;
  get_doc_ok s r :
    store_fault s (dr_path r) = None -> get_doc s r = Fulfilled (store_view s !! dr_path r);
  run_query_fault s q e :
    store_fault s (q_path q) = Some e -> run_query s q = Rejected e;
  run_query_ok s q :
    store_fault s (q_path q) = None ->
    exists qs, run_query s q = Fulfilled qs /\ query_listing (store_view s) q qs
}.

(** ** An in-memory store with injectable faults

    Documents are kept by full path; a read under a path whose root
    collection has a fault rejects with that fault. *)
Record mem_store := MemStore {
  ms_docs : gmap (list string) doc;
  ms_faults : gmap string js_error
}.

Definition ms_fault (s : mem_store) (p : list string) : option js_error :=
  match p with c :: _ => ms_faults s !! c | [] => None end.

(** [Some id] when [p] is [col ++ [id]]. *)
Fixpoint child_id (col p : list string) : option string :=
  match col, p with
  | [], [id] => Some id
  | c :: col', x :: p' => if decide (c = x) then child_id col' p' else None
  | _, _ => None
  end.

Definition ms_get_doc (s : mem_store) (r : docref) : outcome (option doc) :=
  match ms_fault s (dr_path r) with
  | Some e => Rejected e
  | None => Fulfilled (ms_docs s !! dr_path r)
  end.

Definition ms_select (q : query) (e : list string * doc) : option (string * doc) :=
  match child_id (q_path q) e.1 with
  | Some id => if doc_matches e.2 (q_filters q) then Some (id, e.2) else None
  | None => None
  end.

Definition ms_run_query (s : mem_store) (q : query) : outcome (list (string * doc)) :=
  match ms_fault s (q_path q) with
  | Some e => Rejected e
  | None => Fulfilled (omap (ms_select q) (map_to_list (ms_docs s)))
  end.

#[export] Instance mem_store_ops : DocStore mem_store :=
  {| get_doc := ms_get_doc; run_query := ms_run_query |}.

(** ** Lemmas on paths and filters *)

Lemma path_segments_app_slash s1 s2 :
  str_has_char "/" s1 = false -> s1 <> "" ->
  path_segments (s1 +:+ String "/" s2) = s1 :: path_segments s2.
Proof.
  intros Hc Hne. unfold path_segments.
  rewrite str_split_app_char by done. by rewrite filter_cons_True.
Qed.

Lemma path_segments_single k :
  str_has_char "/" k = false -> k <> "" -> path_segments k = [k].
Proof.
  intros Hc Hne. unfold path_segments.
  rewrite str_split_no_char by done. by rewrite filter_cons_True.
Qed.

(** [doc(col + '/' + k)] for two plain segments names the document [k]
    of the top-level collection [col]. *)
Lemma firestore_doc_child col k :
  col <> "" -> str_has_char "/" col = false ->
  k <> "" -> str_has_char "/" k = false ->
  firestore_doc (col +:+ String "/" k) = Fulfilled (DocRef [col; k]).
Proof.
  intros Hc Hcc Hk Hkc. unfold firestore_doc, validate_resource_path.
  rewrite bool_decide_false by (destruct col; done).
  rewrite str_contains_sep by done.
  rewrite path_segments_app_slash, path_segments_single by done. done.
Qed.

(** Whatever the key, [doc('users/' + k)] addresses the path ['users']
    followed by the segments of [k]. *)
Lemma firestore_doc_users_path k r :
  firestore_doc ("users/" +:+ k) = Fulfilled r -> dr_path r = "users" :: path_segments k.
Proof.
  unfold firestore_doc. destruct (validate_resource_path _ _); [done|].
  change ("users/" +:+ k) with ("users" +:+ String "/" k).
  rewrite path_segments_app_slash by done.
  destruct (is_document _); [|done]. by intros [= <-].
Qed.

(** A key whose segment count is even gives [users/key] an odd one:
    [doc] throws a plain [Error]. *)
Lemma firestore_doc_users_odd k :
  Nat.even (length (path_segments k)) = true ->
  exists e, firestore_doc ("users/" +:+ k) = Rejected e /\ err_class e = ErrorClass.
Proof.
  intros Hev. unfold firestore_doc.
  destruct (validate_resource_path _ _) as [e|] eqn:Hv.
  - eexists; split; [done|]. unfold validate_resource_path in Hv.
    repeat case_match; simplify_eq; done.
  - change ("users/" +:+ k) with ("users" +:+ String "/" k).
    rewrite path_segments_app_slash by done. unfold is_document.
    rewrite bool_decide_true by done. cbn [length]. rewrite Nat.even_succ, <- Nat.negb_even, Hev.
    by eexists.
Qed.

Lemma firestore_collection_top col :
  col <> "" -> str_has_char "/" col = false ->
  firestore_collection col = Fulfilled (Query [col] []).
Proof.
  intros Hc Hcc. unfold firestore_collection, validate_resource_path.
  rewrite bool_decide_false by done.
  rewrite str_contains_no_char by done.
  by rewrite path_segments_single.
Qed.

Lemma fvalue_eqb_spec x v : fvalue_eqb x v = true <-> of_fvalue x = v.
Proof.
  destruct x, v; simpl; rewrite ?bool_decide_eq_true;
    split; intros; simplify_eq; done.
Qed.

Lemma doc_matches_eq d f v :
  doc_matches d [(f, v)] = true <-> exists x, d !! f = Some x /\ of_fvalue x = v.
Proof.
  simpl. rewrite andb_true_r. destruct (d !! f) as [x|].
  - rewrite fvalue_eqb_spec. naive_solver.
  - naive_solver.
Qed.

(** ** The in-memory store satisfies the laws *)

Lemma child_id_spec col p id :
  child_id col p = Some id <-> p = (col ++ [id])%list.
Proof.
  revert p. induction col as [|c col IH]; intros [|x p]; simpl.
  - split; [done|]. intros; discriminate.
  - destruct p; split; intros; simplify_eq; done.
  - split; [done|]. intros; discriminate.
  - case_decide; subst.
    + rewrite IH. split; intros; simplify_eq; done.
    + split; [done|]. intros; simplify_eq.
Qed.

Lemma ms_select_spec q p d id d' :
  ms_select q (p, d) = Some (id, d') <->
  p = (q_path q ++ [id])%list /\ d' = d /\ doc_matches d (q_filters q) = true.
Proof.
  unfold ms_select; simpl. destruct (child_id _ p) as [id0|] eqn:Hc.
  - apply child_id_spec in Hc as ->.
    destruct (doc_matches d _) eqn:Hm; split; intros; destruct_and?; simplify_eq;
      try done; by apply app_inv_head, (inj (fun x => [x])) in H.
  - split; [done|]. intros (-> & _). by rewrite (proj2 (child_id_spec _ _ id)) in Hc.
Qed.

Lemma ms_run_query_listing s q :
  query_listing (ms_docs s) q (omap (ms_select q) (map_to_list (ms_docs s))).
Proof.
  split.
  - apply NoDup_omap_fst; [|apply NoDup_fst_map_to_list].
    intros [p1 d1] [p2 d2] [id1 d1'] [id2 d2'] _ _ H1 H2; simpl.
    apply ms_select_spec in H1 as (-> & _), H2 as (-> & _). by intros ->.
  - intros id d. rewrite list_elem_of_omap. split.
    + intros ([p d0] & Hin & Hs). apply ms_select_spec in Hs as (-> & -> & Hm).
      apply elem_of_map_to_list in Hin. done.
    + intros [Hl Hm]. exists ((q_path q ++ [id])%list, d).
      rewrite elem_of_map_to_list. split; [done|]. by apply ms_select_spec.
Qed.

(** The in-memory store refines the contract of [DocStoreLaws]: a query
    under a collection without fault lists, once each, exactly the
    matching documents directly under the collection, and a fault
    rejects it. *)
Lemma mem_store_query_refines (s : mem_store) (q : query) :
  match ms_fault s (q_path q) with
  | Some e => ms_run_query s q = Rejected e
  | None => exists qs, ms_run_query s q = Fulfilled qs /\ query_listing (ms_docs s) q qs
  end.
Proof.
  unfold ms_run_query. destruct (ms_fault s (q_path q)); [done|].
  eexists; split; [done|]. apply ms_run_query_listing.
Qed.

#[export] Instance mem_store_laws : DocStoreLaws mem_store.
Proof.
  refine {| store_view := ms_docs; store_fault := ms_fault |}; intros s; simpl.
  - intros r e H. unfold ms_get_doc. by rewrite H.
  - intros r H. unfold ms_get_doc. by rewrite H.
  - intros q e H. unfold ms_run_query. by rewrite H.
  - intros q H. unfold ms_run_query. rewrite H. eexists; split; [done|].
    apply ms_run_query_listing.
Defined.
