(* ===== verification/Schema.v ===== *)
(** * Schema: the type definitions [typeDefs] of lines 10-37

    GraphQL types as data ([gtype]: a named type, a list, a non-null
    wrapper), fields with their arguments and types, object types, and
    [typeDefs] itself.  [schema_wf] is the check a schema builder makes
    (unique names, every referenced type defined or built in, no doubled
    non-null, arguments of input types, a [Query] root), and
    [resolvers_in_schema] the check that every resolver names a declared
    field, which the server makes when it binds the resolver map. *)
From S2P Require Import Prelude.
From stdpp Require Import options.

Local Open Scope string_scope.

Inductive gtype :=
| TNamed (name : string)
| TList (of_type : gtype)
| TNonNull (of_type : gtype).

#[export] Instance gtype_eq_dec : EqDecision gtype.
Proof. solve_decision. Defined.

Record field_def := FieldDef {
  fd_name : string;
  fd_args : list (string * gtype);
  fd_type : gtype
}.

Record object_type := ObjectType {
  ot_name : string;
  ot_fields : list field_def
}.

(** ** [typeDefs] *)

Definition User_type : object_type :=
  ObjectType "User"
    [FieldDef "id" [] (TNonNull (TNamed "ID"));
     FieldDef "name" [] (TNonNull (TNamed "String"));
     FieldDef "birthday" [] (TNonNull (TNamed "String"));
     FieldDef "items" [] (TList (TNamed "Item"))].

Definition Item_type : object_type :=
  ObjectType "Item"
    [FieldDef "id" [] (TNonNull (TNamed "ID"));
     FieldDef "userId" [] (TNonNull (TNamed "User"));
     FieldDef "user" [] (TNonNull (TNamed "User"));
     FieldDef "title" [] (TNonNull (TNamed "String"));
     FieldDef "content" [] (TNonNull (TNamed "String"));
     FieldDef "comments" [] (TList (TNamed "Comment"))].

Definition Comment_type : object_type :=
  ObjectType "Comment"
    [FieldDef "id" [] (TNonNull (TNamed "ID"));
     FieldDef "content" [] (TNonNull (TNamed "String"));
     FieldDef "userId" [] (TNonNull (TNamed "User"))].

Definition Query_type : object_type :=
  ObjectType "Query"
    [FieldDef "items" [] (TList (TNamed "Item"));
     FieldDef "user" [("id", TNonNull (TNamed "String"))] (TNamed "User")].

Definition typeDefs : list object_type := [User_type; Item_type; Comment_type; Query_type].

(** ** Lookups *)

Definition builtin_scalars : list string := ["ID"; "String"; "Int"; "Float"; "Boolean"].

Definition is_scalar (n : string) : bool := bool_decide (n ∈ builtin_scalars).

Definition find_type (schema : list object_type) (n : string) : option object_type :=
  List.find (fun ot => bool_decide (ot_name ot = n)) schema.

Definition find_field (ot : object_type) (f : string) : option field_def :=
  List.find (fun fd => bool_decide (fd_name fd = f)) (ot_fields ot).

Fixpoint named_type (t : gtype) : string :=
  match t with
  | TNamed n => n
  | TList t' | TNonNull t' => named_type t'
  end.

Definition is_non_null (t : gtype) : bool :=
  match t with TNonNull _ => true | _ => false end.

(** ** Well-formedness *)

(** No non-null wrapper directly around another. *)
Fixpoint wrappers_ok (t : gtype) : bool :=
  match t with
  | TNamed _ => true
  | TList t' => wrappers_ok t'
  | TNonNull t' => negb (is_non_null t') && wrappers_ok t'
  end.

Definition type_ref_ok (schema : list object_type) (t : gtype) : bool :=
  wrappers_ok t &&
  (is_scalar (named_type t) || bool_decide (is_Some (find_type schema (named_type t)))).

Definition field_ok (schema : list object_type) (fd : field_def) : bool :=
  type_ref_ok schema (fd_type fd) &&
  bool_decide (NoDup (fd_args fd).*1) &&
  forallb (fun '(_, t) => wrappers_ok t && is_scalar (named_type t)) (fd_args fd).

Definition object_ok (schema : list object_type) (ot : object_type) : bool :=
  bool_decide (ot_fields ot <> []) &&
  bool_decide (NoDup (fd_name <$> ot_fields ot)) &&
  negb (is_scalar (ot_name ot)) &&
  forallb (field_ok schema) (ot_fields ot).

Definition schema_wf (schema : list object_type) : bool :=
  bool_decide (NoDup (ot_name <$> schema)) &&
  bool_decide (is_Some (find_type schema "Query")) &&
  forallb (object_ok schema) schema.

(** Every type and field of a resolver map, given as the names it
    binds, is declared by the schema. *)
Definition resolvers_in_schema (schema : list object_type)
    (names : list (string * list string)) : bool :=
  forallb (fun '(tn, fs) =>
    match find_type schema tn with
    | Some ot => forallb (fun f => bool_decide (is_Some (find_field ot f))) fs
    | None => false
    end) names.

(** ** Properties *)

(** [typeDefs] passes the schema checks: the server can be built
    from it. *)
Theorem typeDefs_wf : schema_wf typeDefs = true.
Proof. vm_compute. reflexivity. Qed.
