(* ===== verification/Resolvers.v ===== *)
(** * Resolvers: the resolver map of src/apollo/src/index.ts, lines 39-92

    The four resolvers, each an async function of its parent object and
    its arguments, written against the store interface of [Firestore]:
    [user_items] ([User.items]), [item_user] ([Item.user]),
    [query_items] ([Query.items]) and [query_user] ([Query.user]), and the
    object [resolvers] that maps type and field names to them.  The
    handle [firebaseAdmin.firestore()] is the store state [s] passed to
    each call.  The theorems hold for every store that satisfies
    [DocStoreLaws]. *)
From Stdlib Require Import Ascii.
From S2P Require Import Prelude Js Firestore.
From stdpp Require Import options.

Local Open Scope string_scope.
Local Open Scope settled_scope.

(** A resolver: [(parent, args) => Promise]. *)
Definition resolver_fn := jsval -> jsval -> outcome jsval.

(** [snapshot.docs.map((item) => item.data())] *)
Definition docs_data (qs : list (string * doc)) : jsval :=
  JArray ((fun '(_, d) => JObject d) <$> qs).

(** The [args] object of [user(id: k)]. *)
Definition id_args (k : string) : jsval := JObject {["id" := FStr k]}.

Section Resolvers.
Context {S : Type} `{!DocStore S}.

(** [const userItems = await firebaseAdmin.firestore().collection('items')
    .where('userId', '==', user.id).get()], lines 43-47. *)
Definition fetch_user_items (s : S) (user : jsval) : outcome (list (string * doc)) :=
  q0 <- firestore_collection "items" ;;
  q <- query_where_eq q0 "userId" (js_get user "id") ;;
  run_query s q.

(** [User.items(user)], lines 41-53. *)
Definition user_items (s : S) (user : jsval) : outcome jsval :=
  try_catch
    (userItems <- fetch_user_items s user ;;
     Fulfilled (docs_data userItems))
    rethrow_apollo.

(** [const itemAuthor = await firebaseAdmin.firestore()
    .doc(`users/${item.userId}`).get()], lines 58-61. *)
Definition fetch_item_author (s : S) (item : jsval) : outcome (option doc) :=
  r <- firestore_doc ("users/" +:+ js_to_string (js_get item "userId")) ;;
  get_doc s r.

(** [Item.user(item)], lines 56-67. *)
Definition item_user (s : S) (item : jsval) : outcome jsval :=
  try_catch
    (itemAuthor <- fetch_item_author s item ;;
     Fulfilled (snapshot_data itemAuthor))
    rethrow_apollo.

(** [const items = await firebaseAdmin.firestore().collection('items')
    .get()], lines 71-74. *)
Definition fetch_items (s : S) : outcome (list (string * doc)) :=
  q <- firestore_collection "items" ;;
  run_query s q.

(** [Query.items()], lines 70-77: no [try]; a failure rejects the
    promise with the store's own error. *)
Definition query_items (s : S) : outcome jsval :=
  items <- fetch_items s ;;
  Fulfilled (docs_data items).

(** [const userDoc = await firebaseAdmin.firestore()
    .doc(`users/${args.id}`).get()], lines 80-83. *)
Definition fetch_user_doc (s : S) (args : jsval) : outcome (option doc) :=
  r <- firestore_doc ("users/" +:+ js_to_string (js_get args "id")) ;;
  get_doc s r.

(** [Query.user(_, args)], lines 78-90. *)
Definition query_user (s : S) (args : jsval) : outcome jsval :=
  try_catch
    (userDoc <- fetch_user_doc s args ;;
     let user := snapshot_data userDoc in
     Fulfilled (js_or user (JErr (validation_error "User not found."))))
    rethrow_apollo.

(** [User: { async items(user) { ... } }], lines 40-54. *)
Definition User_resolvers (s : S) : list (string * resolver_fn) :=
  [("items", fun user _ => user_items s user)].

(** [Item: { async user(item) { ... } }], lines 55-68. *)
Definition Item_resolvers (s : S) : list (string * resolver_fn) :=
  [("user", fun item _ => item_user s item)].

(** [Query: { async items() { ... }, async user(_, args) { ... } }],
    lines 69-91. *)
Definition Query_resolvers (s : S) : list (string * resolver_fn) :=
  [("items", fun _ _ => query_items s);
   ("user", fun _ args => query_user s args)].

(** The object [resolvers], lines 39-92. *)
Definition resolvers (s : S) : list (string * list (string * resolver_fn)) :=
  [("User", User_resolvers s); ("Item", Item_resolvers s); ("Query", Query_resolvers s)].

(** [resolvers[typeName][fieldName]] *)
Definition lookup_resolver (s : S) (type_name field : string) : option resolver_fn :=
  assoc type_name (resolvers s) ≫= assoc field.

End Resolvers.

(** ** Helper lemmas *)

Lemma of_fvalue_inj x y : of_fvalue x = of_fvalue y -> x = y.
Proof. destruct x, y; simpl; intros; simplify_eq; done. Qed.

Lemma of_fvalue_defined x : of_fvalue x <> JUndefined /\ forall e, of_fvalue x <> JErr e.
Proof. destruct x; done. Qed.

Lemma collection_items : firestore_collection "items" = Fulfilled (Query ["items"] []).
Proof. by apply firestore_collection_top. Qed.

Lemma firestore_doc_users k :
  k <> "" -> str_has_char "/"%char k = false ->
  firestore_doc ("users/" +:+ k) = Fulfilled (DocRef ["users"; k]).
Proof. intros. by apply (firestore_doc_child "users" k). Qed.

Lemma where_userId u x :
  u !! "id" = Some x ->
  query_where_eq (Query ["items"] []) "userId" (js_get (JObject u) "id")
  = Fulfilled (Query ["items"] [("userId", of_fvalue x)]).
Proof. intros Hx. rewrite (js_get_field _ _ _ Hx). by destruct x. Qed.

(** A listing under one equality filter holds exactly the documents
    whose field stores the filtered value. *)
Lemma listing_eq_filter view col f x qs :
  query_listing view (Query col [(f, of_fvalue x)]) qs ->
  forall id d, (id, d) ∈ qs <-> view !! (col ++ [id])%list = Some d /\ d !! f = Some x.
Proof.
  intros [_ Hl] id d. rewrite Hl. cbn [q_path q_filters]. rewrite doc_matches_eq.
  split; intros [Hv Hm]; split; try done.
  - destruct Hm as (y & Hy & Heq). apply of_fvalue_inj in Heq. by subst.
  - by exists x.
Qed.

Lemma id_args_id k : js_to_string (js_get (id_args k) "id") = k.
Proof. unfold id_args. by rewrite (js_get_field _ "id" (FStr k)) by apply lookup_singleton_eq. Qed.

#[export] Hint Resolve collection_items firestore_doc_users where_userId : betlogan.

Section Properties.
Context {S : Type} `{!DocStore S, !DocStoreLaws S}.

(** ** Each resolver is one read of the store *)

Lemma query_items_eq (s : S) :
  query_items s = (items <- run_query s (Query ["items"] []) ;; Fulfilled (docs_data items)).
Proof. unfold query_items, fetch_items. by rewrite collection_items. Qed.

Lemma user_items_eq (s : S) (u : doc) (x : fvalue) :
  u !! "id" = Some x ->
  user_items s (JObject u) =
  try_catch (userItems <- run_query s (Query ["items"] [("userId", of_fvalue x)]) ;;
             Fulfilled (docs_data userItems)) rethrow_apollo.
Proof.
  intros Hx. unfold user_items, fetch_user_items. rewrite collection_items. settle.
  by rewrite (where_userId u x Hx).
Qed.

Lemma item_user_eq (s : S) (it : doc) (k : string) :
  it !! "userId" = Some (FStr k) -> k <> "" -> str_has_char "/"%char k = false ->
  item_user s (JObject it) =
  try_catch (a <- get_doc s (DocRef ["users"; k]) ;; Fulfilled (snapshot_data a)) rethrow_apollo.
Proof.
  intros Hk Hne Hc. unfold item_user, fetch_item_author.
  rewrite (js_get_field _ _ _ Hk). cbn [js_to_string of_fvalue].
  by rewrite firestore_doc_users.
Qed.

Lemma query_user_eq (s : S) (k : string) :
  k <> "" -> str_has_char "/"%char k = false ->
  query_user s (id_args k) =
  try_catch (u <- get_doc s (DocRef ["users"; k]) ;;
             Fulfilled (js_or (snapshot_data u) (JErr (validation_error "User not found."))))
            rethrow_apollo.
Proof.
  intros Hne Hc. unfold query_user, fetch_user_doc. rewrite id_args_id.
  by rewrite firestore_doc_users.
Qed.

(** The settled value of one read, for a healthy store. *)
Lemma query_items_ok (s : S) :
  store_fault s ["items"] = None ->
  exists qs, query_items s = Fulfilled (docs_data qs) /\
             query_listing (store_view s) (Query ["items"] []) qs.
Proof.
  intros Hf. rewrite query_items_eq.
  destruct (run_query_ok s (Query ["items"] []) Hf) as (qs & -> & Hl). by exists qs.
Qed.

Lemma query_user_ok (s : S) (k : string) :
  k <> "" -> str_has_char "/"%char k = false -> store_fault s ["users"; k] = None ->
  query_user s (id_args k) =
  Fulfilled (js_or (snapshot_data (store_view s !! ["users"; k]))
                   (JErr (validation_error "User not found."))).
Proof.
  intros Hne Hc Hf. rewrite query_user_eq by done.
  by rewrite (get_doc_ok s (DocRef ["users"; k]) Hf).
Qed.

Lemma item_user_ok (s : S) (it : doc) (k : string) :
  it !! "userId" = Some (FStr k) -> k <> "" -> str_has_char "/"%char k = false ->
  store_fault s ["users"; k] = None ->
  item_user s (JObject it) = Fulfilled (snapshot_data (store_view s !! ["users"; k])).
Proof.
  intros Hk Hne Hc Hf. rewrite (item_user_eq s it k) by done.
  by rewrite (get_doc_ok s (DocRef ["users"; k]) Hf).
Qed.

Lemma query_items_fault (s : S) (e : js_error) :
  store_fault s ["items"] = Some e -> query_items s = Rejected e.
Proof.
  intros Hf. rewrite query_items_eq.
  by rewrite (run_query_fault s (Query ["items"] []) e Hf).
Qed.

Lemma query_user_fault (s : S) (k : string) (e : js_error) :
  k <> "" -> str_has_char "/"%char k = false -> store_fault s ["users"; k] = Some e ->
  query_user s (id_args k) = Rejected (apollo_error_of e).
Proof.
  intros Hne Hc Hf. rewrite query_user_eq by done.
  by rewrite (get_doc_fault s (DocRef ["users"; k]) e Hf).
Qed.

(** ** Properties *)

(** C1: [Query.items] returns the data of every document of the [items]
    collection, each exactly once, when the read succeeds. *)
Theorem query_items_lists_collection (s : S) :
  store_fault s ["items"] = None ->
  exists qs, query_items s = Fulfilled (docs_data qs) /\ NoDup qs.*1 /\
    forall id d, (id, d) ∈ qs <-> store_view s !! ["items"; id] = Some d.
Proof.
  intros Hf. destruct (query_items_ok s Hf) as (qs & Hq & Hnd & Hl).
  exists qs. split_and!; [done|done|]. intros id d. rewrite Hl. simpl. naive_solver.
Qed.

(** C2: [User.items] returns exactly the items whose [userId] field
    stores the parent's [id] field, each once. *)
Theorem user_items_exact (s : S) (u : doc) (x : fvalue) :
  u !! "id" = Some x -> store_fault s ["items"] = None ->
  exists qs, user_items s (JObject u) = Fulfilled (docs_data qs) /\ NoDup qs.*1 /\
    forall id d, (id, d) ∈ qs <->
      store_view s !! ["items"; id] = Some d /\ d !! "userId" = Some x.
Proof.
  intros Hx Hf. rewrite (user_items_eq s u x Hx).
  destruct (run_query_ok s (Query ["items"] [("userId", of_fvalue x)]) Hf) as (qs & -> & Hl).
  exists qs. split; [done|]. split; [apply Hl|]. exact (listing_eq_filter _ _ _ _ _ Hl).
Qed.

(** C3: [Item.user] reads the user document whose key is the item's
    [userId] spelled by the template literal [users/${item.userId}]:
    the user's data when it exists, [undefined] otherwise; an item
    without [userId] reads [users/undefined]. *)
Theorem item_user_reads_owner (s : S) (it : doc) (k : string) :
  js_to_string (js_get (JObject it) "userId") = k -> k <> "" -> str_has_char "/"%char k = false ->
  store_fault s ["users"; k] = None ->
  item_user s (JObject it) = Fulfilled (snapshot_data (store_view s !! ["users"; k])).
Proof.
  intros Hk Hne Hc Hf. unfold item_user, fetch_item_author. rewrite Hk, firestore_doc_users by done.
  settle. by rewrite (get_doc_ok s (DocRef ["users"; k]) Hf).
Qed.

(** C4: [Query.user] returns the user's data when the document exists,
    and otherwise fulfils with a [ValidationError] object as its value
    instead of rejecting. *)
Theorem query_user_found_or_error_value (s : S) (k : string) :
  k <> "" -> str_has_char "/"%char k = false -> store_fault s ["users"; k] = None ->
  query_user s (id_args k) =
    Fulfilled (match store_view s !! ["users"; k] with
               | Some u => JObject u
               | None => JErr (validation_error "User not found.")
               end).
Proof.
  intros Hne Hc Hf. rewrite query_user_ok by done.
  by destruct (store_view s !! _).
Qed.

(** C5: a failed read of [items] rejects [Query.items] with the store's
    own error, unwrapped: this resolver has no [try]. *)
Theorem query_items_fault_raw (s : S) (e : js_error) :
  store_fault s ["items"] = Some e -> query_items s = Rejected e.
Proof. apply query_items_fault. Qed.

(** A failed read rejects [User.items] with [new ApolloError(e)]. *)
Theorem user_items_fault_wrapped (s : S) (u : doc) (x : fvalue) (e : js_error) :
  u !! "id" = Some x -> store_fault s ["items"] = Some e ->
  user_items s (JObject u) = Rejected (apollo_error_of e).
Proof.
  intros Hx Hf. rewrite (user_items_eq s u x Hx).
  by rewrite (run_query_fault s (Query ["items"] [("userId", of_fvalue x)]) e Hf).
Qed.

(** A failed read rejects [Item.user] with [new ApolloError(e)]. *)
Theorem item_user_fault_wrapped (s : S) (it : doc) (k : string) (e : js_error) :
  it !! "userId" = Some (FStr k) -> k <> "" -> str_has_char "/"%char k = false ->
  store_fault s ["users"; k] = Some e ->
  item_user s (JObject it) = Rejected (apollo_error_of e).
Proof.
  intros Hk Hne Hc Hf. rewrite (item_user_eq s it k) by done.
  by rewrite (get_doc_fault s (DocRef ["users"; k]) e Hf).
Qed.

(** A failed read rejects [Query.user] with [new ApolloError(e)]. *)
Theorem query_user_fault_wrapped (s : S) (k : string) (e : js_error) :
  k <> "" -> str_has_char "/"%char k = false -> store_fault s ["users"; k] = Some e ->
  query_user s (id_args k) = Rejected (apollo_error_of e).
Proof. apply query_user_fault. Qed.

(** C6: the three resolvers with a [try] rethrow a failed read as
    [new ApolloError(e)]: [User.items] when the scan of [items] fails,
    [Item.user] and [Query.user] when the read of the user fails. *)
Theorem caught_faults_wrapped (s : S) (e : js_error) :
  (forall u x, u !! "id" = Some x -> store_fault s ["items"] = Some e ->
     user_items s (JObject u) = Rejected (apollo_error_of e)) /\
  (forall it k, it !! "userId" = Some (FStr k) -> k <> "" -> str_has_char "/"%char k = false ->
     store_fault s ["users"; k] = Some e -> item_user s (JObject it) = Rejected (apollo_error_of e)) /\
  (forall k, k <> "" -> str_has_char "/"%char k = false -> store_fault s ["users"; k] = Some e ->
     query_user s (id_args k) = Rejected (apollo_error_of e)).
Proof.
  split_and!; intros *; [apply user_items_fault_wrapped|apply item_user_fault_wrapped|apply query_user_fault_wrapped].
Qed.

(** [User.items] filters on the parent's stored [id] field, not on
    the document key: a user document without an [id] field makes the
    resolver reject, whatever the store holds. *)
Theorem user_items_missing_id_rejected (s : S) (u : doc) :
  u !! "id" = None ->
  user_items s (JObject u) = Rejected (apollo_error_of undefined_value_error).
Proof.
  intros Hx. unfold user_items, fetch_user_items. rewrite collection_items. settle.
  by rewrite (js_get_missing _ _ Hx).
Qed.

(** The id is spliced into the path [users/${id}]; an id with an
    even number of segments (the empty id, ["a/b"]) makes [doc] throw,
    and [Query.user] rejects with an [ApolloError] around that plain
    [Error] instead of answering "User not found.". *)
Theorem query_user_malformed_id_rejected (s : S) (k : string) :
  Nat.even (length (path_segments k)) = true ->
  exists e, query_user s (id_args k) = Rejected (apollo_error_of e) /\ err_class e = ErrorClass.
Proof.
  intros Hev. unfold query_user, fetch_user_doc. rewrite id_args_id.
  destruct (firestore_doc_users_odd k Hev) as (e & -> & Hc).
  by exists e.
Qed.

(** C7: malformed inputs make the resolvers reject instead of answering:
    a user without a stored [id] field makes [User.items] reject,
    whatever the store holds, and an id with an even number of path
    segments makes [Query.user] reject with an [ApolloError] around the
    plain [Error] that [doc] throws, not with "User not found.". *)
Theorem malformed_inputs_rejected (s : S) (u : doc) (k : string) :
  u !! "id" = None -> Nat.even (length (path_segments k)) = true ->
  user_items s (JObject u) = Rejected (apollo_error_of undefined_value_error) /\
  exists e, query_user s (id_args k) = Rejected (apollo_error_of e) /\ err_class e = ErrorClass.
Proof.
  intros Hu Hk. split; [by apply user_items_missing_id_rejected|by apply query_user_malformed_id_rejected].
Qed.

(** C8: whatever the id, [Query.user] reads the document at ["users"]
    followed by the id's own segments: an id with slashes reaches a
    document of a subcollection. *)
Theorem query_user_reads_key_path (s : S) (k : string) (r : docref) :
  firestore_doc ("users/" +:+ k) = Fulfilled r -> store_fault s (dr_path r) = None ->
  dr_path r = "users" :: path_segments k /\
  query_user s (id_args k) =
    Fulfilled (js_or (snapshot_data (store_view s !! dr_path r))
                     (JErr (validation_error "User not found."))).
Proof.
  intros Hr Hf. split; [by apply firestore_doc_users_path|].
  unfold query_user, fetch_user_doc. rewrite id_args_id, Hr. settle.
  by rewrite (get_doc_ok s r Hf).
Qed.

(** An item without a [userId] field makes [Item.user] read the
    document [users/undefined]. *)
Theorem item_user_missing_owner (s : S) (it : doc) :
  it !! "userId" = None -> store_fault s ["users"; "undefined"] = None ->
  item_user s (JObject it) =
    Fulfilled (snapshot_data (store_view s !! ["users"; "undefined"])).
Proof.
  intros Hk Hf. unfold item_user, fetch_item_author. rewrite (js_get_missing _ _ Hk).
  cbn [js_to_string]. rewrite firestore_doc_users by done. settle.
  by rewrite (get_doc_ok s (DocRef ["users"; "undefined"]) Hf).
Qed.

End Properties.
