(* ===== verification/Contract.v ===== *)
(** * Contract: the resolvers depend only on the database contents

    The store contract of [Firestore] fixes what a read returns from the
    abstract view, except the order in which a query lists its
    documents.  This file states what that leaves open as an equivalence
    on settled values ([outcome_equiv]: the same error, or values equal up
    to the order of a top-level list), with its [Equivalence] and
    [Proper] instances, and proves that the resolver map over any lawful
    store without faults refines the resolver map over the in-memory
    store that holds the same view: the resolvers use nothing of the
    store but its contents.  With the same equivalence, [User.items] is
    [Query.items] filtered on the owner. *)
From Stdlib Require Import Ascii.
From S2P Require Import Prelude Js Firestore Resolvers.
From stdpp Require Import options.

Local Open Scope string_scope.

(** ** Values up to the order of a listing *)

Inductive jsval_perm : jsval -> jsval -> Prop :=
| jsval_perm_refl v : jsval_perm v v
| jsval_perm_array xs ys : xs ≡ₚ ys -> jsval_perm (JArray xs) (JArray ys).

Inductive outcome_equiv : outcome jsval -> outcome jsval -> Prop :=
| outcome_equiv_rejected e : outcome_equiv (Rejected e) (Rejected e)
| outcome_equiv_fulfilled v1 v2 : jsval_perm v1 v2 -> outcome_equiv (Fulfilled v1) (Fulfilled v2).

#[export] Hint Constructors jsval_perm outcome_equiv : betlogan.

#[export] Instance jsval_perm_equiv : Equivalence jsval_perm.
Proof.
  split.
  - intros v. constructor.
  - intros v1 v2 []; constructor. by symmetry.
  - intros v1 v2 v3 [] H23; [done|]. inversion H23; subst; constructor; [done|by etrans].
Qed.

#[export] Instance outcome_equiv_equiv : Equivalence outcome_equiv.
Proof.
  split.
  - intros [v|e]; constructor. reflexivity.
  - intros o1 o2 []; constructor. by symmetry.
  - intros o1 o2 o3 [] H23; inversion H23; subst; constructor. by etrans.
Qed.

#[export] Instance Fulfilled_jsval_perm_proper :
  Proper (jsval_perm ==> outcome_equiv) (@Fulfilled js_error jsval).
Proof. intros v1 v2 Hv. by constructor. Qed.

#[export] Instance docs_data_perm_proper : Proper ((≡ₚ) ==> jsval_perm) docs_data.
Proof. intros qs1 qs2 Hp. unfold docs_data. constructor. by rewrite Hp. Qed.

(** ** Two listings of one query *)

(** Two listings of the same query over the same view hold the same
    documents: they differ only in order. *)
Lemma query_listing_perm view q qs1 qs2 :
  query_listing view q qs1 -> query_listing view q qs2 -> qs1 ≡ₚ qs2.
Proof.
  intros [Hnd1 Hl1] [Hnd2 Hl2]. apply NoDup_Permutation.
  - by apply NoDup_fmap_1 in Hnd1.
  - by apply NoDup_fmap_1 in Hnd2.
  - intros [id d]. by rewrite Hl1, Hl2.
Qed.

Section TwoStores.
#[local] Set Default Proof Using "All".
Context {S1 S2 : Type} `{!DocStore S1, !DocStoreLaws S1, !DocStore S2, !DocStoreLaws S2}.
Variables (s1 : S1) (s2 : S2).
Hypothesis healthy1 : forall p, store_fault s1 p = None.
Hypothesis healthy2 : forall p, store_fault s2 p = None.
Hypothesis same_view : store_view s1 = store_view s2.

Lemma get_doc_agree r : get_doc s1 r = get_doc s2 r.
Proof. by rewrite (get_doc_ok s1 r (healthy1 _)), (get_doc_ok s2 r (healthy2 _)), same_view. Qed.

Lemma run_query_agree q :
  exists qs1 qs2, run_query s1 q = Fulfilled qs1 /\ run_query s2 q = Fulfilled qs2 /\ qs1 ≡ₚ qs2.
Proof.
  destruct (run_query_ok s1 q (healthy1 _)) as (qs1 & H1 & L1).
  destruct (run_query_ok s2 q (healthy2 _)) as (qs2 & H2 & L2).
  exists qs1, qs2. split_and!; [done|done|]. rewrite same_view in L1.
  by eapply query_listing_perm.
Qed.

(** A scan followed by [docs_data] agrees up to order. *)
Lemma scan_agree q :
  outcome_equiv (items <- run_query s1 q ;; Fulfilled (docs_data items))%settled
                (items <- run_query s2 q ;; Fulfilled (docs_data items))%settled.
Proof.
  destruct (run_query_agree q) as (qs1 & qs2 & -> & -> & Hp). settle.
  by rewrite Hp.
Qed.

Lemma query_items_agree : outcome_equiv (query_items s1) (query_items s2).
Proof. rewrite !query_items_eq. apply scan_agree. Qed.

Lemma user_items_agree user : outcome_equiv (user_items s1 user) (user_items s2 user).
Proof.
  unfold user_items, fetch_user_items. rewrite collection_items. settle.
  destruct (query_where_eq _ _ _) as [q|e]; settle; [|reflexivity].
  destruct (run_query_agree q) as (qs1 & qs2 & -> & -> & Hp). settle.
  by rewrite Hp.
Qed.

Lemma item_user_agree item : item_user s1 item = item_user s2 item.
Proof.
  unfold item_user, fetch_item_author. destruct (firestore_doc _) as [r|e]; settle; [|done].
  by rewrite get_doc_agree.
Qed.

Lemma query_user_agree args : query_user s1 args = query_user s2 args.
Proof.
  unfold query_user, fetch_user_doc. destruct (firestore_doc _) as [r|e]; settle; [|done].
  by rewrite get_doc_agree.
Qed.

(** The resolver maps of the two stores bind the same names to
    resolvers that agree up to the order of listings. *)
Lemma lookup_resolver_agree t f r1 :
  lookup_resolver s1 t f = Some r1 ->
  exists r2, lookup_resolver s2 t f = Some r2 /\
             forall parent args, outcome_equiv (r1 parent args) (r2 parent args).
Proof.
  unfold lookup_resolver, resolvers. simpl. intros H.
  repeat (case_match; simplify_eq/=); eexists; split; try done; intros.
  - apply user_items_agree.
  - by rewrite item_user_agree.
  - apply query_items_agree.
  - by rewrite query_user_agree.
Qed.

End TwoStores.

(** The in-memory store holding a view, without faults. *)
Definition view_store (view : gmap (list string) doc) : mem_store := MemStore view ∅.

Lemma view_store_healthy view p : store_fault (view_store view) p = None.
Proof. by destruct p. Qed.

(** The resolver map over any lawful store without faults refines
    the resolver map over the in-memory store that holds the same view:
    each resolver settles the same way, up to the order in which a
    listing returns its documents. *)
Theorem resolvers_refine_view_store {S} `{!DocStore S, !DocStoreLaws S} (s : S) t f r :
  (forall p, store_fault s p = None) -> lookup_resolver s t f = Some r ->
  exists r', lookup_resolver (view_store (store_view s)) t f = Some r' /\
             forall parent args, outcome_equiv (r parent args) (r' parent args).
Proof.
  intros Hh. apply (lookup_resolver_agree s (view_store (store_view s))); [done | apply view_store_healthy | done].
Qed.

Section Filter.
Context {S : Type} `{!DocStore S, !DocStoreLaws S}.

(** A listing of a collection, filtered on one field, is a listing of
    the query with that equality filter. *)
Lemma listing_filter view col f x qs :
  query_listing view (Query col []) qs ->
  query_listing view (Query col [(f, of_fvalue x)]) (filter (fun '(_, d) => d !! f = Some x) qs).
Proof.
  intros [Hnd Hl]. split.
  - apply NoDup_fmap_1 in Hnd. apply NoDup_fmap_2_strong; [|by apply NoDup_filter].
    intros [i1 d1] [i2 d2] H1%list_elem_of_filter H2%list_elem_of_filter Heq; simpl in *. subst.
    destruct H1 as [_ H1%Hl], H2 as [_ H2%Hl]. simpl in *. naive_solver.
  - intros i d. rewrite list_elem_of_filter, Hl. cbn [q_path q_filters]. rewrite doc_matches_eq.
    split; [intros [Hx [Hv _]]; split; [done|by exists x]|].
    intros [Hv (y & Hy & Heq)]. apply of_fvalue_inj in Heq as ->. done.
Qed.

(** C24: on a store without faults, [User.items] of a user whose [id]
    field holds [x] returns the items [Query.items] returns that store
    [x] as [userId], and only those, up to their order. *)
Theorem user_items_filters_query_items (s : S) (u : doc) (x : fvalue) :
  (forall p, store_fault s p = None) -> u !! "id" = Some x ->
  exists qs, query_items s = Fulfilled (docs_data qs) /\
    outcome_equiv (user_items s (JObject u))
                  (Fulfilled (docs_data (filter (fun '(_, d) => d !! "userId" = Some x) qs))).
Proof.
  intros Hh Hx. destruct (query_items_ok s (Hh _)) as (qs & Hq & Hl).
  exists qs. split; [done|]. rewrite (user_items_eq s u x Hx).
  destruct (run_query_ok s (Query ["items"] [("userId", of_fvalue x)]) (Hh _)) as (qs' & -> & Hl').
  settle. constructor. apply docs_data_perm_proper.
  eapply query_listing_perm; [exact Hl'|]. by apply listing_filter.
Qed.

End Filter.
