(* ===== verification/Execute.v ===== *)
(** * Execute: GraphQL execution of a query against a schema and resolvers

    The execution algorithm the Apollo server runs (graphql-js [execute]):
    every selected field is resolved by its resolver, or by the default
    resolver that reads the parent's property of the same name; the
    settled value is completed against the field's declared type
    ([completeValue]): an [Error] value is thrown, a non-null type
    rejects [null], a list completes item by item, a leaf is serialized,
    an object executes its sub-selection with the value as parent.  A
    field error is recorded and the field set to [null] when its type is
    nullable ([handleFieldError]); otherwise it propagates to the
    enclosing field or list item.

    Queries are validated field selections (no fragments, aliases or
    directives).  This file is the sequential reading of that algorithm:
    every promise is awaited where it is made, so sibling fields all run,
    their recorded errors are kept in selection order, and when several
    siblings propagate an error the first in selection order is the one
    thrown further.  The data it computes is the data of every run of the
    event loop ([Async], [AsyncSim]); the errors may differ, since there
    a field that throws synchronously stops its later siblings and the
    first rejection to settle is the one propagated.  The leaf types are
    [ID] and [String], the only scalars of [typeDefs].

    Execution recurses structurally on the selection ([execute_field]
    calls [complete_value_with] on the sub-selection), so it is total:
    no fuel is involved. *)
From S2P Require Import Prelude Js Schema.
From stdpp Require Import pretty.
From stdpp Require Import options.

Local Open Scope string_scope.
Local Open Scope list_scope.
#[local] Set Warnings "-register-all".

(** ** Queries, responses and errors *)

Inductive selection := Sel (name : string) (args : list (string * fvalue)) (sub : list selection).

Definition sel_name (s : selection) : string := match s with Sel n _ _ => n end.

Inductive path_key := PKey (k : string) | PIndex (i : nat).

Record gql_error := GqlError {
  ge_message : string;
  ge_path : list path_key;
  ge_code : option string
}.

Inductive rvalue :=
| RNull
| RString (s : string)
| RList (xs : list rvalue)
| RObject (fields : list (string * rvalue)).

(** The completion of a value: the errors recorded on the way, and the
    completed value or the error thrown to the enclosing position. *)
Abbreviation completion := (list gql_error * (gql_error + rvalue))%type.
Abbreviation fields_completion := (list gql_error * (gql_error + list (string * rvalue)))%type.
Abbreviation items_completion := (list gql_error * (gql_error + list rvalue))%type.

Record response := Response { resp_data : rvalue; resp_errors : list gql_error }.

(** ** Errors raised by execution *)

(** [locatedError]: an error thrown or returned by a resolver. *)
Definition located_error (e : js_error) (p : list path_key) : gql_error :=
  GqlError (err_message e) p (err_code e).

Definition non_null_error (parent field : string) (p : list path_key) : gql_error :=
  GqlError ("Cannot return null for non-nullable field " +:+ parent +:+ "." +:+ field +:+ ".") p None.

Definition not_iterable_error (parent field : string) (p : list path_key) : gql_error :=
  GqlError ("Expected Iterable, but did not find one for field " +:+ parent +:+ "." +:+ field +:+ ".") p None.

(** The serializer's message, without the printed value. *)
Definition leaf_error (scalar : string) (p : list path_key) : gql_error :=
  GqlError (scalar +:+ " cannot represent value") p None.

Definition unknown_field_error (type_name field : string) (p : list path_key) : gql_error :=
  GqlError ("Cannot query field " +:+ field +:+ " on type " +:+ type_name +:+ ".") p None.

Definition unknown_type_error (n : string) (p : list path_key) : gql_error :=
  GqlError ("Unknown type " +:+ n +:+ ".") p None.

(** [serializeString] and [serializeID]. *)
Definition serialize_leaf (scalar : string) (v : jsval) : option rvalue :=
  if decide (scalar = "String") then
    match v with
    | JStr s => Some (RString s)
    | JBool b => Some (RString (if b then "true" else "false"))
    | JNum z => Some (RString (pretty z))
    | _ => None
    end
  else if decide (scalar = "ID") then
    match v with
    | JStr s => Some (RString s)
    | JNum z => Some (RString (pretty z))
    | _ => None
    end
  else None.

(** [handleFieldError] *)
Definition handle_field_error (t : gtype) (es : list gql_error) (e : gql_error) : completion :=
  if is_non_null t then (es, inl e) else (es ++ [e], inr RNull).

Definition is_nullish (v : jsval) : bool :=
  match v with JUndefined | JNull => true | _ => false end.

(** One more field of an object, in front of the fields after it. *)
Definition merge_field (name : string) (c : completion) (rest : fields_completion) : fields_completion :=
  let '(es1, r1) := c in
  let '(es2, r2) := rest in
  (es1 ++ es2, match r1, r2 with
               | inl e, _ => inl e
               | inr _, inl e => inl e
               | inr v, inr vs => inr ((name, v) :: vs)
               end).

(** One more item of a list: an item error is handled at the item's
    type. *)
Definition merge_item (t : gtype) (c : completion) (rest : items_completion) : items_completion :=
  let '(es1, r1) := match c with (es, inl e) => handle_field_error t es e | _ => c end in
  let '(es2, r2) := rest in
  (es1 ++ es2, match r1, r2 with
               | inl e, _ => inl e
               | inr _, inl e => inl e
               | inr v, inr vs => inr (v :: vs)
               end).

Definition wrap_fields (c : fields_completion) : completion :=
  match c with (es, inl e) => (es, inl e) | (es, inr fs) => (es, inr (RObject fs)) end.

Definition wrap_items (c : items_completion) : completion :=
  match c with (es, inl e) => (es, inl e) | (es, inr vs) => (es, inr (RList vs)) end.

(** ** Execution *)

Section Execute.
Variable schema : list object_type.
Variable resolve : string -> string -> option (jsval -> jsval -> outcome jsval).

Abbreviation field_executor := (object_type -> jsval -> selection -> list path_key -> completion).

(** [executeFields]: every selection of [sels] on the parent [src]. *)
Definition execute_fields_with (exec : field_executor) (ot : object_type) (src : jsval)
    (sels : list selection) (p : list path_key) : fields_completion :=
  (fix go (sels : list selection) : fields_completion :=
     match sels with
     | [] => ([], inr [])
     | s1 :: rest => merge_field (sel_name s1) (exec ot src s1 p) (go rest)
     end) sels.

(** [completeValue] for the field [parent.field] with sub-selection [sub]. *)
Definition complete_value_with (exec : field_executor) (parent field : string)
    (sub : list selection) : gtype -> jsval -> list path_key -> completion :=
  fix complete (t : gtype) (v : jsval) (p : list path_key) : completion :=
    match as_error v with
    | Some e => ([], inl (located_error e p))
    | None =>
      match t with
      | TNonNull t' =>
          match complete t' v p with
          | (es, inr RNull) => (es, inl (non_null_error parent field p))
          | c => c
          end
      | TList t' =>
          if is_nullish v then ([], inr RNull) else
          match v with
          | JArray xs =>
              wrap_items
                ((fix items (xs : list jsval) (i : nat) : items_completion :=
                    match xs with
                    | [] => ([], inr [])
                    | x :: xs' => merge_item t' (complete t' x (p ++ [PIndex i])) (items xs' (S i))
                    end) xs 0)
          | _ => ([], inl (not_iterable_error parent field p))
          end
      | TNamed n =>
          if is_nullish v then ([], inr RNull) else
          if is_scalar n then
            match serialize_leaf n v with
            | Some rv => ([], inr rv)
            | None => ([], inl (leaf_error n p))
            end
          else
            match find_type schema n with
            | Some ot' => wrap_fields (execute_fields_with exec ot' v sub p)
            | None => ([], inl (unknown_type_error n p))
            end
      end
    end.

(** [defaultFieldResolver] *)
Definition default_resolver (src : jsval) (field : string) : outcome jsval :=
  Fulfilled (js_get src field).

Definition args_object (args : list (string * fvalue)) : jsval :=
  JObject (list_to_map args).

Definition resolve_field (ot : object_type) (fd : field_def) (src : jsval)
    (args : list (string * fvalue)) : outcome jsval :=
  match resolve (ot_name ot) (fd_name fd) with
  | Some r => r src (args_object args)
  | None => default_resolver src (fd_name fd)
  end.

(** [executeField] *)
Fixpoint execute_field (ot : object_type) (src : jsval) (sel : selection)
    (path : list path_key) {struct sel} : completion :=
  match sel with
  | Sel fname args sub =>
      let p := path ++ [PKey fname] in
      match find_field ot fname with
      | None => ([], inl (unknown_field_error (ot_name ot) fname p))
      | Some fd =>
          match resolve_field ot fd src args with
          | Rejected e => handle_field_error (fd_type fd) [] (located_error e p)
          | Fulfilled v =>
              match complete_value_with execute_field (ot_name ot) fname sub (fd_type fd) v p with
              | (es, inl e) => handle_field_error (fd_type fd) es e
              | c => c
              end
          end
      end
  end.

Definition execute_fields := execute_fields_with execute_field.

(** [executeOperation] for a query: the root value is [undefined]; an
    error that reaches the root makes [data] null. *)
Definition execute_query (q : list selection) : response :=
  match find_type schema "Query" with
  | None => Response RNull [GqlError "Schema is not configured to execute query operation." [] None]
  | Some qt =>
      let '(es, r) := execute_fields qt JUndefined q [] in
      match r with
      | inl e => Response RNull (es ++ [e])
      | inr fs => Response (RObject fs) es
      end
  end.

End Execute.

(** ** Equations of execution *)

Section Equations.
Variable schema : list object_type.
Variable exec : object_type -> jsval -> selection -> list path_key -> completion.

Lemma execute_fields_with_nil ot src p :
  execute_fields_with exec ot src [] p = ([], inr []).
Proof. reflexivity. Qed.

Lemma execute_fields_with_cons ot src s1 rest p :
  execute_fields_with exec ot src (s1 :: rest) p =
  merge_field (sel_name s1) (exec ot src s1 p) (execute_fields_with exec ot src rest p).
Proof. reflexivity. Qed.

Lemma complete_non_null_eq parent field sub t v p :
  complete_value_with schema exec parent field sub (TNonNull t) v p =
  match as_error v with
  | Some e => ([], inl (located_error e p))
  | None =>
      match complete_value_with schema exec parent field sub t v p with
      | (es, inr RNull) => (es, inl (non_null_error parent field p))
      | c => c
      end
  end.
Proof. reflexivity. Qed.

(** A value completed at an object type executes the sub-selection on
    it. *)
Lemma complete_named_object parent field sub n ot v p :
  as_error v = None -> is_nullish v = false -> is_scalar n = false -> find_type schema n = Some ot ->
  complete_value_with schema exec parent field sub (TNamed n) v p =
  wrap_fields (execute_fields_with exec ot v sub p).
Proof. intros H1 H2 H3 H4. simpl. by rewrite H1, H2, H3, H4. Qed.

(** The items of a list, completed one by one from index [i]. *)
Definition complete_items (parent field : string) (sub : list selection) (t : gtype)
    (p : list path_key) : list jsval -> nat -> items_completion :=
  fix items (xs : list jsval) (i : nat) : items_completion :=
    match xs with
    | [] => ([], inr [])
    | x :: xs' =>
        merge_item t (complete_value_with schema exec parent field sub t x (p ++ [PIndex i]))
                   (items xs' (S i))
    end.

Lemma complete_list_array_eq parent field sub t xs p :
  complete_value_with schema exec parent field sub (TList t) (JArray xs) p =
  wrap_items (complete_items parent field sub t p xs 0).
Proof. reflexivity. Qed.

(** Completing at a non-null type never yields [null]. *)
Lemma complete_non_null_not_null parent field sub t v p es rv :
  complete_value_with schema exec parent field sub (TNonNull t) v p = (es, inr rv) ->
  rv <> RNull.
Proof.
  rewrite complete_non_null_eq. destruct (as_error v); [done|].
  destruct (complete_value_with _ _ _ _ _ _ _ _) as [es' [e|[]]];
    intros Hc; simplify_eq; done.
Qed.

End Equations.

Create Rewrite HintDb execute_rw.
#[export] Hint Rewrite execute_fields_with_nil execute_fields_with_cons
  complete_non_null_eq complete_list_array_eq : execute_rw.

Lemma execute_field_fulfilled schema resolve ot src f args sub p fd v :
  find_field ot f = Some fd -> resolve_field resolve ot fd src args = Fulfilled v ->
  execute_field schema resolve ot src (Sel f args sub) p =
  match complete_value_with schema (execute_field schema resolve) (ot_name ot) f sub
          (fd_type fd) v (p ++ [PKey f]) with
  | (es, inl e) => handle_field_error (fd_type fd) es e
  | c => c
  end.
Proof. intros Hf Hr. cbn [execute_field]. by rewrite Hf, Hr. Qed.

(** ** Properties of execution *)

Section ExecuteProperties.
Variable schema : list object_type.
Variable resolve : string -> string -> option (jsval -> jsval -> outcome jsval).
Variable exec : object_type -> jsval -> selection -> list path_key -> completion.

(** Items of a nullable type never throw: each failing item is null. *)
Lemma complete_items_nullable parent field sub t p xs i :
  is_non_null t = false ->
  exists es vs, complete_items schema exec parent field sub t p xs i = (es, inr vs) /\
                length vs = length xs.
Proof.
  intros Hn. revert i. induction xs as [|x xs IH]; intros i; simpl; [by eauto|].
  destruct (IH (S i)) as (es2 & vs & -> & Hl).
  unfold merge_item, handle_field_error. rewrite Hn.
  destruct (complete_value_with _ _ _ _ _ _ _ _) as [es1 [e|v]]; simpl;
    eexists _, _; split; try done; simpl; by rewrite Hl.
Qed.

(** A list of nullable items completes to a list with one entry per
    item: an item whose completion fails becomes [null] (its error
    recorded) and the other items are kept. *)
Lemma complete_nullable_list parent field sub t xs p :
  is_non_null t = false ->
  exists es vs,
    complete_value_with schema exec parent field sub (TList t) (JArray xs) p = (es, inr (RList vs)) /\
    length vs = length xs.
Proof.
  intros Hn. rewrite complete_list_array_eq.
  destruct (complete_items_nullable parent field sub t p xs 0 Hn) as (es & vs & Hc & Hl).
  rewrite Hc. by exists es, vs.
Qed.

End ExecuteProperties.

(** ** Conformance of completed values to the schema *)

(** Induction on selections, with the hypothesis for every field of the
    sub-selection. *)
Definition selection_ind' (P : selection -> Prop)
    (H : forall f args sub, Forall P sub -> P (Sel f args sub)) : forall s, P s :=
  fix F (s : selection) : P s :=
    match s with
    | Sel f args sub =>
        H f args sub
          ((fix G (l : list selection) : Forall P l :=
              match l with
              | [] => @List.Forall_nil _ P
              | s1 :: l' => @List.Forall_cons _ P s1 l' (F s1) (G l')
              end) sub)
    end.

Section Conformance.
Variable schema : list object_type.

Abbreviation sel_checker := (object_type -> selection -> rvalue -> Prop).

(** The fields of an object answer the selection, in order. *)
Definition fields_conform_with (selc : sel_checker) (ot : object_type) :
    list selection -> list (string * rvalue) -> Prop :=
  fix fconf (sels : list selection) (fs : list (string * rvalue)) : Prop :=
    match sels, fs with
    | [], [] => True
    | s1 :: sels', (k, v) :: fs' => k = sel_name s1 /\ selc ot s1 v /\ fconf sels' fs'
    | _, _ => False
    end.

(** A value of type [t]: never [null] under a non-null type, a list of
    values of the item type, a string for a leaf, an object answering
    the sub-selection for an object type. *)
Definition type_conforms_with (selc : sel_checker) (sub : list selection) :
    gtype -> rvalue -> Prop :=
  fix tconf (t : gtype) (rv : rvalue) : Prop :=
    match t with
    | TNonNull t' => rv <> RNull /\ tconf t' rv
    | TList t' => rv = RNull \/ exists xs, rv = RList xs /\ Forall (tconf t') xs
    | TNamed n =>
        rv = RNull \/
        (if is_scalar n then exists str, rv = RString str
         else exists ot' fs, find_type schema n = Some ot' /\ rv = RObject fs /\
                             fields_conform_with selc ot' sub fs)
    end.

Fixpoint sel_conforms (ot : object_type) (sel : selection) (rv : rvalue) {struct sel} : Prop :=
  match sel with
  | Sel f _ sub =>
      match find_field ot f with
      | Some fd => type_conforms_with sel_conforms sub (fd_type fd) rv
      | None => False
      end
  end.

End Conformance.

Section ConformanceProofs.
Variable schema : list object_type.
Variable resolve : string -> string -> option (jsval -> jsval -> outcome jsval).

Local Abbreviation exec := (execute_field schema resolve).
Local Abbreviation tconf := (type_conforms_with schema (sel_conforms schema)).

Lemma nullable_conforms_null sub t : is_non_null t = false -> tconf sub t RNull.
Proof. destruct t; simpl; [by left | by left | done]. Qed.

Lemma handle_field_error_conforms sub t es e es' rv :
  handle_field_error t es e = (es', inr rv) -> tconf sub t rv.
Proof.
  unfold handle_field_error. destruct (is_non_null t) eqn:Hn; intros; simplify_eq.
  by apply nullable_conforms_null.
Qed.

Lemma serialize_leaf_string n v rv : serialize_leaf n v = Some rv -> exists str, rv = RString str.
Proof. unfold serialize_leaf. repeat case_match; intros; simplify_eq; eauto. Qed.

Lemma complete_items_cons parent field sub t p x xs i :
  complete_items schema exec parent field sub t p (x :: xs) i =
  merge_item t (complete_value_with schema exec parent field sub t x (p ++ [PIndex i]))
             (complete_items schema exec parent field sub t p xs (S i)).
Proof. reflexivity. Qed.

(** Given conformance of every sub-selected field, the fields of an
    object conform. *)
Lemma execute_fields_conform ot src sub p es fs :
  Forall (fun s => forall ot src p es rv, exec ot src s p = (es, inr rv) -> sel_conforms schema ot s rv) sub ->
  execute_fields_with exec ot src sub p = (es, inr fs) ->
  fields_conform_with (sel_conforms schema) ot sub fs.
Proof.
  intros IH. revert es fs. induction IH as [|s1 rest Hs1 _ IHrest]; intros es fs.
  - rewrite execute_fields_with_nil. by intros [= _ <-].
  - rewrite execute_fields_with_cons. unfold merge_field.
    destruct (exec ot src s1 p) as [es1 [e1|v1]] eqn:H1;
      destruct (execute_fields_with _ _ _ _ _) as [es2 [e2|vs]] eqn:H2; try done.
    intros [= _ <-]. split_and!; [done| by eapply Hs1 | by eapply IHrest].
Qed.

Lemma complete_items_conform parent field sub t p :
  (forall v p es rv, complete_value_with schema exec parent field sub t v p = (es, inr rv) -> tconf sub t rv) ->
  forall xs i es vs, complete_items schema exec parent field sub t p xs i = (es, inr vs) ->
  Forall (tconf sub t) vs.
Proof.
  intros IHt xs. induction xs as [|x xs IH]; intros i es vs.
  - by intros [= _ <-].
  - rewrite complete_items_cons. unfold merge_item, handle_field_error.
    destruct (complete_value_with _ _ _ _ _ _ x _) as [es1 [e|v]] eqn:Hx;
      [destruct (is_non_null t) eqn:Hn|];
      destruct (complete_items _ _ _ _ _ _ _ xs _) as [es2 [e2|vs2]] eqn:Hr;
      intros; simplify_eq/=.
    + constructor; [by apply nullable_conforms_null | by eapply IH].
    + constructor; [by eapply IHt | by eapply IH].
Qed.

Lemma complete_value_conforms parent field sub :
  Forall (fun s => forall ot src p es rv, exec ot src s p = (es, inr rv) -> sel_conforms schema ot s rv) sub ->
  forall t v p es rv,
  complete_value_with schema exec parent field sub t v p = (es, inr rv) -> tconf sub t rv.
Proof.
  intros IH t. induction t as [n|t IHt|t IHt]; intros v p es rv.
  - simpl. destruct (as_error v); [intros; simplify_eq|].
    destruct (is_nullish v); [intros; simplify_eq; by left|].
    intros Hc. right. destruct (is_scalar n).
    + destruct (serialize_leaf n v) eqn:Hs; simplify_eq. by eapply serialize_leaf_string.
    + destruct (find_type schema n) as [ot'|] eqn:Hf; [|simplify_eq].
      unfold wrap_fields in Hc.
      destruct (execute_fields_with _ _ _ _ _) as [es' [e|fs]] eqn:He; simplify_eq.
      exists ot', fs. split_and!; [done|done|]. by eapply execute_fields_conform.
  - destruct v as [| | | | | |xs|e0]; try (simpl; intros; simplify_eq; by left).
    rewrite complete_list_array_eq. unfold wrap_items.
    destruct (complete_items _ _ _ _ _ _ _ xs 0) as [es' [e|vs]] eqn:Hc; intros; simplify_eq.
    right. exists vs. split; [done|].
    by eapply (complete_items_conform parent field sub t p IHt xs 0).
  - rewrite complete_non_null_eq. destruct (as_error v); [done|].
    destruct (complete_value_with _ _ _ _ _ t v p) as [es' [e|[]]] eqn:Hc;
      intros; simplify_eq; (split; [done|by eapply IHt]).
Qed.

(** Every field the executor completes conforms to its declared type. *)
Lemma execute_field_conforms sel :
  forall ot src p es rv, exec ot src sel p = (es, inr rv) -> sel_conforms schema ot sel rv.
Proof.
  induction sel as [f args sub IH] using selection_ind'.
  intros ot src p es rv. cbn [execute_field sel_conforms].
  destruct (find_field ot f) as [fd|]; [|done].
  destruct (resolve_field _ _ _ _ _) as [v|e]; [|apply handle_field_error_conforms].
  destruct (complete_value_with _ _ _ _ _ _ v _) as [es' [e|rv']] eqn:Hc;
    [apply handle_field_error_conforms|].
  intros [= _ <-]. by eapply complete_value_conforms.
Qed.

Lemma execute_fields_conform_all ot src sels p es fs :
  execute_fields_with exec ot src sels p = (es, inr fs) ->
  fields_conform_with (sel_conforms schema) ot sels fs.
Proof.
  apply execute_fields_conform. apply Forall_forall. intros s _. apply execute_field_conforms.
Qed.

End ConformanceProofs.
