(* ===== verification/Async.v ===== *)
(** * Async: the event loop of graphql-js execution

    Every resolver of [Resolvers] is an [async] function: when the
    executor calls it, it returns a promise that settles later, once
    its read of the store has come back.  graphql-js starts the
    resolvers of all the fields of an object in selection order
    ([executeFields]), attaches to each promise a continuation that
    completes the value ([result.then(resolved => completeValue(...))])
    and a handler ([.then(undefined, e => handleFieldError(e, ...))]),
    and joins the fields of an object and the items of a list with
    [Promise.all].  The reads come back in an order the program does not
    choose.

    This file models that execution as a step relation.  The state
    ([aconf]) holds the pending resolver promises ([task]), the shared
    list of errors [exeContext.errors] in the order they are pushed, the
    response under construction as a tree of promises ([ptree]) and the
    promises that nothing waits for any more.  One step settles one
    pending promise chosen by the scheduler and runs everything that
    follows from it synchronously.  Synchronous code is the same as in
    [Execute], with two differences that only the event loop shows:
    - a field that throws synchronously stops the loop of
      [executeFields]: the fields after it are never resolved, and the
      promises of the fields before it are abandoned;
    - [Promise.all] rejects with the first rejection to arrive, and the
      promises it still waits for run on unobserved.
    The response is taken when the root promise settles.  Atomicity:
    each step runs one settlement and its synchronous consequences to
    the end; microtasks of different settlements are not interleaved. *)
From S2P Require Import Prelude Js Schema Execute.
From stdpp Require Import gmap.
From stdpp Require Import options.

Local Open Scope string_scope.
Local Open Scope list_scope.
#[local] Set Warnings "-register-all".

(** ** Promises under construction *)

(** A resolver promise not yet settled: its settlement (the resolver
    ran when it was called) and the completion that waits for it. *)
Record task := Task {
  tk_parent : string;
  tk_field : string;
  tk_sub : list selection;
  tk_type : gtype;
  tk_path : list path_key;
  tk_out : outcome jsval
}.

(** The response under construction: a settled value, a rejected
    promise, a resolver promise still pending, a [Promise.all] over the
    fields of an object or the items of a list, or a promise with the
    handler [handleFieldError] at a type. *)
Inductive ptree :=
| PVal (rv : rvalue)
| PErr (e : gql_error)
| PWait (id : nat)
| PObj (fs : list (string * ptree))
| PArr (xs : list ptree)
| PCatch (t : gtype) (x : ptree).

(** The state shared by synchronous code: the next promise id, the
    pending resolver promises, [exeContext.errors], and the promises
    nothing waits for ([true] when a rejected [Promise.all] still holds
    a handler on it, [false] when nothing does). *)
Record ectx := ECtx {
  ec_next : nat;
  ec_tasks : gmap nat task;
  ec_errors : list gql_error;
  ec_orphans : list (bool * ptree)
}.

Definition push_error (e : gql_error) (c : ectx) : ectx :=
  ECtx (ec_next c) (ec_tasks c) (ec_errors c ++ [e]) (ec_orphans c).

(** Calling an async resolver: a new pending promise. *)
Definition spawn (tk : task) (c : ectx) : nat * ectx :=
  (ec_next c, ECtx (S (ec_next c)) (<[ec_next c := tk]> (ec_tasks c)) (ec_errors c) (ec_orphans c)).

(** A promise that still waits for a resolver. *)
Definition pending (x : ptree) : bool :=
  match x with PVal _ | PErr _ => false | _ => true end.

(** A pending promise dropped by the code that created it. *)
Definition orphan (handled : bool) (x : ptree) (c : ectx) : ectx :=
  if pending x then ECtx (ec_next c) (ec_tasks c) (ec_errors c) (ec_orphans c ++ [(handled, x)]) else c.

Definition settled_value (x : ptree) : option rvalue :=
  match x with PVal rv => Some rv | _ => None end.

(** The fields of an object: a plain object when every field is
    settled, otherwise [promiseForObject]. *)
Definition object_of (fs : list (string * ptree)) : ptree :=
  match mapM (fun '(k, x) => pair k <$> settled_value x) fs with
  | Some rfs => PVal (RObject rfs)
  | None => PObj fs
  end.

Definition array_of (xs : list ptree) : ptree :=
  match mapM settled_value xs with
  | Some rvs => PVal (RList rvs)
  | None => PArr xs
  end.

(** [handleFieldError] for an error thrown synchronously. *)
Definition handle_sync (t : gtype) (e : gql_error) (c : ectx) : ectx * (gql_error + ptree) :=
  if is_non_null t then (c, inl e) else (push_error e c, inr (PVal RNull)).

(** A completion that is a promise gets the handler at its type. *)
Definition await_at (t : gtype) (x : ptree) : ptree :=
  match x with PVal _ => x | _ => PCatch t x end.

Abbreviation sync_result := (ectx * (gql_error + ptree))%type.

(** A field or list item completed synchronously: a thrown error goes to
    [handleFieldError] at once, a promise gets the handler. *)
Definition handled (t : gtype) (cr : sync_result) : sync_result :=
  match cr with
  | (c, inl e) => handle_sync t e c
  | (c, inr x) => (c, inr (await_at t x))
  end.
Abbreviation afield_executor := (object_type -> jsval -> selection -> list path_key -> ectx -> sync_result).

(** ** Synchronous code *)

Section AsyncExecute.
Variable schema : list object_type.
Variable resolve : string -> string -> option (jsval -> jsval -> outcome jsval).


(** [executeFields]: the fields in selection order; a field that throws
    ends the loop and abandons the promises of the fields before it. *)
Definition aexecute_fields_with (exec : afield_executor) (ot : object_type) (src : jsval)
    (sels : list selection) (p : list path_key) : ectx -> ectx * (gql_error + list (string * ptree)) :=
  (fix go (sels : list selection) (c : ectx) : ectx * (gql_error + list (string * ptree)) :=
    match sels with
    | [] => (c, inr [])
    | s1 :: rest =>
        match exec ot src s1 p c with
        | (c1, inl e) => (c1, inl e)
        | (c1, inr x1) =>
            match go rest c1 with
            | (c2, inl e) => (orphan false x1 c2, inl e)
            | (c2, inr xs) => (c2, inr ((sel_name s1, x1) :: xs))
            end
        end
    end) sels.

(** [completeValue], run synchronously until it returns a value, a
    promise or throws. *)
Definition acomplete_with (exec : afield_executor) (parent field : string)
    (sub : list selection) : gtype -> jsval -> list path_key -> ectx -> sync_result :=
  fix complete (t : gtype) (v : jsval) (p : list path_key) (c : ectx) : sync_result :=
    match as_error v with
    | Some e => (c, inl (located_error e p))
    | None =>
      match t with
      | TNonNull t' =>
          match complete t' v p c with
          | (c', inr (PVal RNull)) => (c', inl (non_null_error parent field p))
          | r => r
          end
      | TList t' =>
          if is_nullish v then (c, inr (PVal RNull)) else
          match v with
          | JArray xs =>
              match (fix items (xs : list jsval) (i : nat) (c : ectx)
                       : ectx * (gql_error + list ptree) :=
                       match xs with
                       | [] => (c, inr [])
                       | x :: xs' =>
                           match handled t' (complete t' x (p ++ [PIndex i]) c) with
                           | (c1, inl e) => (c1, inl e)
                           | (c1, inr x1) =>
                               match items xs' (S i) c1 with
                               | (c2, inl e) => (orphan false x1 c2, inl e)
                               | (c2, inr ys) => (c2, inr (x1 :: ys))
                               end
                           end
                       end) xs 0 c with
              | (c', inl e) => (c', inl e)
              | (c', inr ys) => (c', inr (array_of ys))
              end
          | _ => (c, inl (not_iterable_error parent field p))
          end
      | TNamed n =>
          if is_nullish v then (c, inr (PVal RNull)) else
          if is_scalar n then
            match serialize_leaf n v with
            | Some rv => (c, inr (PVal rv))
            | None => (c, inl (leaf_error n p))
            end
          else
            match find_type schema n with
            | Some ot' =>
                match aexecute_fields_with exec ot' v sub p c with
                | (c', inl e) => (c', inl e)
                | (c', inr fs) => (c', inr (object_of fs))
                end
            | None => (c, inl (unknown_type_error n p))
            end
      end
    end.

(** [executeField]: a field with a resolver of the map calls it and
    waits for its promise; a field without one reads the parent's
    property and completes it at once. *)
Fixpoint aexecute_field (ot : object_type) (src : jsval) (sel : selection)
    (path : list path_key) (c : ectx) {struct sel} : sync_result :=
  match sel with
  | Sel fname args sub =>
      let p := path ++ [PKey fname] in
      match find_field ot fname with
      | None => (c, inl (unknown_field_error (ot_name ot) fname p))
      | Some fd =>
          match resolve (ot_name ot) (fd_name fd) with
          | Some r =>
              let '(id, c') := spawn (Task (ot_name ot) fname sub (fd_type fd) p (r src (args_object args))) c in
              (c', inr (PCatch (fd_type fd) (PWait id)))
          | None =>
              handled (fd_type fd)
                (acomplete_with aexecute_field (ot_name ot) fname sub (fd_type fd) (js_get src (fd_name fd)) p c)
          end
      end
  end.

(** The continuation of a resolver promise that settles:
    [result.then(resolved => completeValue(...))]. *)
Definition settle_task (tk : task) (c : ectx) : ectx * ptree :=
  match tk_out tk with
  | Rejected e => (c, PErr (located_error e (tk_path tk)))
  | Fulfilled v =>
      match acomplete_with aexecute_field (tk_parent tk) (tk_field tk) (tk_sub tk)
              (tk_type tk) v (tk_path tk) c with
      | (c', inl e) => (c', PErr e)
      | (c', inr x) => (c', x)
      end
  end.

End AsyncExecute.

(** ** The promise machinery *)

(** A loop over a list that threads the shared state. *)
Fixpoint map_state {A B} (f : A -> ectx -> ectx * B) (l : list A) (c : ectx) : ectx * list B :=
  match l with
  | [] => (c, [])
  | x :: l' => let '(c1, y) := f x c in let '(c2, ys) := map_state f l' c1 in (c2, y :: ys)
  end.

(** The first rejection among the promises a [Promise.all] waits for. *)
Definition first_rejection (xs : list ptree) : option gql_error :=
  head (omap (fun x => match x with PErr e => Some e | _ => None end) xs).

(** After a settlement, every promise passes its value or its rejection
    on to what waits for it: a handler makes a rejection [null] at a
    nullable type (pushing the error) and passes it on at a non-null
    one; a [Promise.all] rejects with a rejection of one of its
    promises, leaving the others to run on, and resolves when all are
    settled. *)
Fixpoint norm (x : ptree) (c : ectx) {struct x} : ectx * ptree :=
  match x with
  | PVal _ | PErr _ | PWait _ => (c, x)
  | PCatch t y =>
      match norm y c with
      | (c', PErr e) => if is_non_null t then (c', PErr e) else (push_error e c', PVal RNull)
      | (c', PVal rv) => (c', PVal rv)
      | (c', y') => (c', PCatch t y')
      end
  | PObj fs =>
      let '(c', fs') := map_state (fun ky c => let r := norm ky.2 c in (r.1, (ky.1, r.2))) fs c in
      match first_rejection (snd <$> fs') with
      | Some e => (foldl (fun c y => orphan true y c) c' (snd <$> fs'), PErr e)
      | None => (c', object_of fs')
      end
  | PArr xs =>
      let '(c', xs') := map_state norm xs c in
      match first_rejection xs' with
      | Some e => (foldl (fun c y => orphan true y c) c' xs', PErr e)
      | None => (c', array_of xs')
      end
  end.

(** The settlement [y] of the promise [id], put where it is awaited. *)
Fixpoint plug (id : nat) (y : ptree) (x : ptree) {struct x} : ptree :=
  match x with
  | PWait j => if decide (j = id) then y else x
  | PObj fs => PObj ((fun '(k, z) => (k, plug id y z)) <$> fs)
  | PArr xs => PArr (plug id y <$> xs)
  | PCatch t z => PCatch t (plug id y z)
  | PVal _ | PErr _ => x
  end.

(** ** Configurations and steps *)

(** The execution of a request: the shared state, the root promise, the
    response once the root has settled, and the unhandled rejections. *)
Record aconf := AConf {
  ac_ctx : ectx;
  ac_root : ptree;
  ac_response : option response;
  ac_unhandled : list gql_error
}.

(** [executeOperation]: when the root settles the response is built
    from the errors pushed so far; a rejected root is pushed as an
    error and [data] is null. *)
Definition respond (c : ectx) (x : ptree) (r : option response) : ectx * option response :=
  match r with
  | Some _ => (c, r)
  | None =>
      match x with
      | PVal rv => (c, Some (Response rv (ec_errors c)))
      | PErr e => (push_error e c, Some (Response RNull (ec_errors c ++ [e])))
      | _ => (c, None)
      end
  end.

(** The abandoned promises after the settlement of [id]: a settled one
    is dropped; a rejection that no [Promise.all] holds is unhandled. *)
Fixpoint settle_orphans (id : nat) (y : ptree) (os : list (bool * ptree)) (c : ectx)
    : ectx * list (bool * ptree) * list gql_error :=
  match os with
  | [] => (c, [], [])
  | (h, o) :: os1 =>
      let '(c1, o') := norm (plug id y o) c in
      let '(c2, kept, un) := settle_orphans id y os1 c1 in
      match o' with
      | PVal _ => (c2, kept, un)
      | PErr e => (c2, kept, if h then un else e :: un)
      | _ => (c2, (h, o') :: kept, un)
      end
  end.

Section Steps.
Variable schema : list object_type.
Variable resolve : string -> string -> option (jsval -> jsval -> outcome jsval).

(** The promise [id] settles: its continuation runs, then everything
    that waits for it. *)
Definition settle (id : nat) (a : aconf) : option aconf :=
  tk ← ec_tasks (ac_ctx a) !! id;
  let c := ac_ctx a in
  let c0 := ECtx (ec_next c) (delete id (ec_tasks c)) (ec_errors c) [] in
  let '(c1, y) := settle_task schema resolve tk c0 in
  let '(c2, root) := norm (plug id y (ac_root a)) c1 in
  let '(c3, r) := respond c2 root (ac_response a) in
  let '(c4, kept, un) := settle_orphans id y (ec_orphans c) c3 in
  Some (AConf (ECtx (ec_next c4) (ec_tasks c4) (ec_errors c4) (kept ++ ec_orphans c4))
              root r (ac_unhandled a ++ un)).

(** One turn of the event loop: the scheduler picks a pending promise. *)
Inductive astep : aconf -> aconf -> Prop :=
| astep_settle a id a' : settle id a = Some a' -> astep a a'.

Definition empty_ctx : ectx := ECtx 0 ∅ [] [].

(** [execute] on a query: the root fields start synchronously. *)
Definition astart (q : list selection) : aconf :=
  match find_type schema "Query" with
  | None =>
      AConf empty_ctx (PVal RNull)
        (Some (Response RNull [GqlError "Schema is not configured to execute query operation." [] None])) []
  | Some qt =>
      let '(c, x) :=
        match aexecute_fields_with (aexecute_field schema resolve) qt JUndefined q [] empty_ctx with
        | (c, inl e) => (c, PErr e)
        | (c, inr fs) => (c, object_of fs)
        end in
      let '(c', r) := respond c x None in
      AConf c' x r []
  end.

(** A run under a schedule: the ids of the promises in the order they
    settle. *)
Fixpoint run (sched : list nat) (a : aconf) : option aconf :=
  match sched with
  | [] => Some a
  | id :: sched' => settle id a ≫= run sched'
  end.

End Steps.

(** ** What a promise settles to *)

(** The value a sequential completion yields; [None] when it throws. *)
Definition result_of {A} (c : list gql_error * (gql_error + A)) : option A :=
  match c.2 with inr a => Some a | inl _ => None end.

(** The value after the handler [handleFieldError] at [t]. *)
Definition catch_data (t : gtype) (d : option rvalue) : option rvalue :=
  match d with Some rv => Some rv | None => if is_non_null t then None else Some RNull end.

(** The data a tree of promises settles to, given the data each pending
    resolver promise settles to: [None] for a rejection. *)
Fixpoint den (dt : nat -> option rvalue) (x : ptree) {struct x} : option rvalue :=
  match x with
  | PVal rv => Some rv
  | PErr _ => None
  | PWait id => dt id
  | PCatch t y => catch_data t (den dt y)
  | PObj fs => RObject <$> mapM (fun '(k, y) => pair k <$> den dt y) fs
  | PArr xs => RList <$> mapM (den dt) xs
  end.

(** The pending resolver promises a tree waits for. *)
Fixpoint holes (x : ptree) : list nat :=
  match x with
  | PWait id => [id]
  | PObj fs => mjoin ((fun '(_, y) => holes y) <$> fs)
  | PArr xs => mjoin (holes <$> xs)
  | PCatch _ y => holes y
  | PVal _ | PErr _ => []
  end.

Definition rejected (x : ptree) : bool :=
  match x with PErr _ => true | _ => false end.

(** A tree as the promise machinery leaves it: a handler or a
    [Promise.all] waits only for promises still pending, and a
    [Promise.all] waits for one at least. *)
Fixpoint normal (x : ptree) : bool :=
  match x with
  | PVal _ | PErr _ | PWait _ => true
  | PCatch _ y => pending y && normal y
  | PObj fs =>
      existsb (fun '(_, y) => pending y) fs &&
      forallb (fun '(_, y) => normal y && negb (rejected y)) fs
  | PArr xs => existsb pending xs && forallb (fun y => normal y && negb (rejected y)) xs
  end.

Section Measures.
Variable schema : list object_type.
Variable resolve : string -> string -> option (jsval -> jsval -> outcome jsval).
Local Abbreviation exec := (execute_field schema resolve).

(** What a pending resolver promise settles to in the sequential model,
    before the handler of its field. *)
Definition task_completion (tk : task) : completion :=
  match tk_out tk with
  | Rejected e => ([], inl (located_error e (tk_path tk)))
  | Fulfilled v => complete_value_with schema exec (tk_parent tk) (tk_field tk) (tk_sub tk) (tk_type tk) v (tk_path tk)
  end.

Definition task_den (c : ectx) (id : nat) : option rvalue :=
  tk ← ec_tasks c !! id; result_of (task_completion tk).

(** The resolver calls the sequential execution makes when every field
    runs: a bound on what the event loop can still spawn. *)
Definition calls_complete_with (cf : object_type -> jsval -> selection -> nat)
    (sub : list selection) : gtype -> jsval -> nat :=
  fix calls (t : gtype) (v : jsval) : nat :=
    match as_error v with
    | Some _ => 0
    | None =>
      match t with
      | TNonNull t' => calls t' v
      | TList t' => match v with JArray xs => sum_list_with (calls t') xs | _ => 0 end
      | TNamed n =>
          if is_nullish v then 0 else if is_scalar n then 0 else
          match find_type schema n with
          | Some ot' => sum_list_with (cf ot' v) sub
          | None => 0
          end
      end
    end.

Fixpoint calls_field (ot : object_type) (src : jsval) (sel : selection) {struct sel} : nat :=
  match sel with
  | Sel f args sub =>
      match find_field ot f with
      | None => 0
      | Some fd =>
          match resolve (ot_name ot) (fd_name fd) with
          | Some r =>
              S (match r src (args_object args) with
                 | Fulfilled v => calls_complete_with calls_field sub (fd_type fd) v
                 | Rejected _ => 0
                 end)
          | None => calls_complete_with calls_field sub (fd_type fd) (js_get src (fd_name fd))
          end
      end
  end.

Definition calls_fields (ot : object_type) (src : jsval) (sels : list selection) : nat :=
  sum_list_with (calls_field ot src) sels.

Definition task_work (tk : task) : nat :=
  S (match tk_out tk with
     | Fulfilled v => calls_complete_with calls_field (tk_sub tk) (tk_type tk) v
     | Rejected _ => 0
     end).

(** The resolver calls still to come: the measure of termination. *)
Definition work (c : ectx) : nat := map_fold (fun _ tk n => task_work tk + n) 0 (ec_tasks c).

End Measures.
