(* ===== verification/AsyncSim.v ===== *)
(** * AsyncSim: every run of the event loop agrees with the sequential model

    The theorems on [Async]: the synchronous code of the event loop
    simulates the sequential completion of [Execute] (the tree it builds
    settles to the value the sequential model computes, and it spawns no
    more resolver calls than the sequential model makes); the promise
    machinery ([norm], [plug]) keeps what a tree settles to; hence an
    invariant of every run ([ainv]): until the root settles it settles
    to the data of the sequential response, and the response, when built,
    has that data.  Each turn consumes work ([work]), so every run has at
    most [root_calls] turns and ends with the response built. *)
From S2P Require Import Prelude Js Schema Execute Async.
From stdpp Require Import gmap.
From stdpp Require Import options.

Local Open Scope string_scope.
Local Open Scope list_scope.

(** ** Lemmas on trees *)

(** Induction on trees, with the hypothesis for every subtree. *)
Definition ptree_ind' (P : ptree -> Prop)
    (Hval : forall rv, P (PVal rv)) (Herr : forall e, P (PErr e)) (Hwait : forall id, P (PWait id))
    (Hobj : forall fs, Forall (fun ky => P ky.2) fs -> P (PObj fs))
    (Harr : forall xs, Forall P xs -> P (PArr xs))
    (Hcatch : forall t y, P y -> P (PCatch t y)) : forall x, P x :=
  fix F (x : ptree) : P x :=
    match x with
    | PVal rv => Hval rv
    | PErr e => Herr e
    | PWait id => Hwait id
    | PObj fs =>
        Hobj fs ((fix G (l : list (string * ptree)) : Forall (fun ky => P ky.2) l :=
                    match l with
                    | [] => List.Forall_nil _
                    | ky :: l' => List.Forall_cons _ ky l' (F ky.2) (G l')
                    end) fs)
    | PArr xs =>
        Harr xs ((fix G (l : list ptree) : Forall P l :=
                    match l with
                    | [] => List.Forall_nil _
                    | y :: l' => List.Forall_cons _ y l' (F y) (G l')
                    end) xs)
    | PCatch t y => Hcatch t y (F y)
    end.

Lemma mapM_ext_Forall {A B} (f g : A -> option B) (l : list A) :
  Forall (fun x => f x = g x) l -> mapM f l = mapM g l.
Proof. induction 1 as [|x l Hx _ IH]; [done|]. simpl. by rewrite Hx, IH. Qed.

(** The data of a tree depends only on the data of its holes. *)
Lemma den_agree dt1 dt2 x :
  (forall j, j ∈ holes x -> dt1 j = dt2 j) -> den dt1 x = den dt2 x.
Proof.
  induction x as [rv|e|id|fs IH|xs IH|t y IH] using ptree_ind'; intros Hh; simpl in *.
  - done.
  - done.
  - apply Hh. by left.
  - f_equal. apply mapM_ext_Forall. rewrite Forall_forall in IH |- *. intros [k y] Hky.
    simpl. f_equal. apply (IH _ Hky). intros j Hj. apply Hh. apply list_elem_of_join.
    exists (holes y). split; [done|]. apply list_elem_of_fmap. by exists (k, y).
  - f_equal. apply mapM_ext_Forall. rewrite Forall_forall in IH |- *. intros y Hy.
    apply IH; [done|]. intros j Hj. apply Hh. apply list_elem_of_join.
    exists (holes y). split; [done|]. apply list_elem_of_fmap. by exists y.
  - by rewrite IH.
Qed.

Lemma settled_den dt x rv : settled_value x = Some rv -> den dt x = Some rv.
Proof. by destruct x; intros; simplify_eq/=. Qed.

Lemma mapM_settled_obj dt (fs : list (string * ptree)) rfs :
  mapM (fun '(k, x) => pair k <$> settled_value x) fs = Some rfs ->
  mapM (fun '(k, y) => pair k <$> den dt y) fs = Some rfs.
Proof.
  intros E%mapM_Some_1. apply mapM_Some_2. eapply Forall2_impl; [exact E|].
  intros [k y] [k' rv]. destruct (settled_value y) eqn:Ey; simpl; [|done].
  by rewrite (settled_den dt y _ Ey).
Qed.

Lemma mapM_settled_arr dt (xs : list ptree) rvs :
  mapM settled_value xs = Some rvs -> mapM (den dt) xs = Some rvs.
Proof.
  intros E%mapM_Some_1. apply mapM_Some_2. eapply Forall2_impl; [exact E|]. apply settled_den.
Qed.

Lemma unsettled_pending x : settled_value x = None -> rejected x = false -> pending x = true.
Proof. by destruct x. Qed.

Lemma object_of_den dt fs : den dt (object_of fs) = den dt (PObj fs).
Proof.
  unfold object_of. destruct (mapM (fun '(k, x) => pair k <$> settled_value x) fs) eqn:E; [|done].
  simpl. by rewrite (mapM_settled_obj dt fs _ E).
Qed.

Lemma array_of_den dt xs : den dt (array_of xs) = den dt (PArr xs).
Proof.
  unfold array_of. destruct (mapM settled_value xs) eqn:E; [|done].
  simpl. by rewrite (mapM_settled_arr dt xs _ E).
Qed.

Lemma object_of_holes fs j : j ∈ holes (object_of fs) -> j ∈ holes (PObj fs).
Proof. unfold object_of. destruct (mapM _ fs); [|done]. intros Hj. by apply elem_of_nil in Hj. Qed.

Lemma array_of_holes xs j : j ∈ holes (array_of xs) -> j ∈ holes (PArr xs).
Proof. unfold array_of. destruct (mapM _ xs); [|done]. intros Hj. by apply elem_of_nil in Hj. Qed.

Lemma object_of_rejected fs : rejected (object_of fs) = false.
Proof. unfold object_of. by destruct (mapM _ fs). Qed.

Lemma array_of_rejected xs : rejected (array_of xs) = false.
Proof. unfold array_of. by destruct (mapM _ xs). Qed.

(** A [Promise.all] over settled or pending promises, none rejected,
    is as the machinery leaves it. *)
Lemma object_of_normal fs :
  Forall (fun ky => normal ky.2 = true /\ rejected ky.2 = false) fs -> normal (object_of fs) = true.
Proof.
  intros Hall. unfold object_of.
  destruct (mapM (fun '(k, x) => pair k <$> settled_value x) fs) as [rfs|] eqn:E; [done|].
  simpl. apply andb_true_intro. rewrite Forall_forall in Hall. split.
  - apply existsb_exists. apply mapM_None_1, Exists_exists in E as ([k y] & Hin & Hy).
    exists (k, y). split; [by apply list_elem_of_In|]. destruct (Hall _ Hin) as [_ Hr].
    apply unsettled_pending; [|done]. by destruct (settled_value y).
  - apply forallb_forall. intros [k y] Hin%list_elem_of_In.
    destruct (Hall _ Hin) as [Hn Hr]. simpl in Hn, Hr |- *. by rewrite Hn, Hr.
Qed.

Lemma array_of_normal xs :
  Forall (fun y => normal y = true /\ rejected y = false) xs -> normal (array_of xs) = true.
Proof.
  intros Hall. unfold array_of.
  destruct (mapM settled_value xs) as [rvs|] eqn:E; [done|].
  simpl. apply andb_true_intro. rewrite Forall_forall in Hall. split.
  - apply existsb_exists. apply mapM_None_1, Exists_exists in E as (y & Hin & Hy).
    exists y. split; [by apply list_elem_of_In|]. destruct (Hall _ Hin) as [_ Hr].
    by apply unsettled_pending.
  - apply forallb_forall. intros y Hin%list_elem_of_In. destruct (Hall _ Hin) as [Hn Hr]. by rewrite Hn, Hr.
Qed.

(** ** The shared state *)

Create HintDb async.

(** Every pending promise has an id below the next one. *)
Definition ctx_wf (c : ectx) : Prop := forall j, is_Some (ec_tasks c !! j) -> j < ec_next c.

(** [c'] only adds pending promises to those of [c]. *)
Definition ctx_ext (c c' : ectx) : Prop :=
  ec_next c <= ec_next c' /\ forall j, j < ec_next c -> ec_tasks c' !! j = ec_tasks c !! j.

(** [c'] has the pending promises of [c]: it differs by pushed errors
    and abandoned promises only. *)
Definition same_tasks (c c' : ectx) : Prop := ec_next c' = ec_next c /\ ec_tasks c' = ec_tasks c.

Definition holes_in (c : ectx) (x : ptree) : Prop := forall j, j ∈ holes x -> is_Some (ec_tasks c !! j).

#[export] Instance ctx_ext_preorder : PreOrder ctx_ext.
Proof.
  split; [by intros c; split|].
  intros c1 c2 c3 [H12 E12] [H23 E23]. split; [lia|]. intros j Hj. rewrite E23 by lia. by apply E12.
Qed.

#[export] Instance same_tasks_equiv : Equivalence same_tasks.
Proof.
  split; [by intros c | intros c1 c2 [H E]; split; congruence | intros c1 c2 c3 [H1 E1] [H2 E2]; split; congruence].
Qed.

Lemma same_tasks_ext c c' : same_tasks c c' -> ctx_ext c c'.
Proof. intros [H E]. split; [lia|]. by rewrite E. Qed.

Lemma same_tasks_wf c c' : same_tasks c c' -> ctx_wf c -> ctx_wf c'.
Proof. intros [H E] Hwf j. rewrite H, E. apply Hwf. Qed.

Lemma same_tasks_holes_in c c' x : same_tasks c c' -> holes_in c x -> holes_in c' x.
Proof. intros [_ E] Hh j. rewrite E. apply Hh. Qed.

Lemma push_error_same e c : same_tasks c (push_error e c).
Proof. done. Qed.

Lemma orphan_same h x c : same_tasks c (orphan h x c).
Proof. unfold orphan. by destruct (pending x). Qed.

Lemma orphans_same h xs c : same_tasks c (foldl (fun c y => orphan h y c) c xs).
Proof.
  revert c. induction xs as [|x xs IH]; intros c; simpl; [done|].
  etrans; [apply orphan_same | apply IH].
Qed.

#[export] Hint Resolve push_error_same orphan_same orphans_same same_tasks_ext : async.

Lemma holes_in_ext c c' x : ctx_wf c -> ctx_ext c c' -> holes_in c x -> holes_in c' x.
Proof.
  intros Hwf [_ E] Hh j Hj. specialize (Hh j Hj). rewrite E; [done|]. by apply Hwf.
Qed.

Lemma holes_in_obj c fs : Forall (fun ky => holes_in c ky.2) fs -> holes_in c (PObj fs).
Proof.
  intros Hall j Hj. simpl in Hj. apply list_elem_of_join in Hj as (l & Hj & Hl).
  apply list_elem_of_fmap in Hl as ([k y] & -> & Hky). rewrite Forall_forall in Hall.
  exact (Hall (k, y) Hky j Hj).
Qed.

Lemma holes_in_arr c xs : Forall (holes_in c) xs -> holes_in c (PArr xs).
Proof.
  intros Hall j Hj. simpl in Hj. apply list_elem_of_join in Hj as (l & Hj & Hl).
  apply list_elem_of_fmap in Hl as (y & -> & Hy). rewrite Forall_forall in Hall. exact (Hall y Hy j Hj).
Qed.

Lemma spawn_wf tk c : ctx_wf c -> ctx_wf (spawn tk c).2.
Proof.
  intros Hwf j. simpl. rewrite lookup_insert_is_Some'. intros [<-|Hj]; [lia|]. specialize (Hwf j Hj). lia.
Qed.

Lemma spawn_ext tk c : ctx_wf c -> ctx_ext c (spawn tk c).2.
Proof.
  intros Hwf. split; simpl; [lia|]. intros j Hj. rewrite lookup_insert_ne; [done|lia].
Qed.

Lemma spawn_lookup tk c : ec_tasks (spawn tk c).2 !! (spawn tk c).1 = Some tk.
Proof. simpl. by rewrite lookup_insert_eq. Qed.

Lemma spawn_fresh tk c : ctx_wf c -> ec_tasks c !! (spawn tk c).1 = None.
Proof. intros Hwf. simpl. destruct (ec_tasks c !! ec_next c) eqn:E; [|done]. specialize (Hwf _ (mk_is_Some _ _ E)). lia. Qed.

Lemma spawn_size tk c : ctx_wf c -> size (ec_tasks (spawn tk c).2) = 1 + size (ec_tasks c).
Proof. intros Hwf. apply map_size_insert_None, (spawn_fresh tk), Hwf. Qed.

Section MeasureLemmas.
Variable schema : list object_type.
Variable resolve : string -> string -> option (jsval -> jsval -> outcome jsval).
Local Abbreviation work := (work schema resolve).
Local Abbreviation task_den := (task_den schema resolve).
Local Abbreviation task_work := (task_work schema resolve).

Lemma work_same c c' : same_tasks c c' -> work c' = work c.
Proof. intros [_ E]. unfold Async.work. by rewrite E. Qed.

Lemma work_spawn tk c : ctx_wf c -> work (spawn tk c).2 = task_work tk + work c.
Proof.
  intros Hwf. unfold Async.work. cbn [spawn snd ec_tasks].
  rewrite map_fold_insert_L; [done | intros; lia | by apply (spawn_fresh tk)].
Qed.

Lemma work_delete c id tk :
  ec_tasks c !! id = Some tk ->
  work c = task_work tk + map_fold (fun _ tk n => Async.task_work schema resolve tk + n) 0 (delete id (ec_tasks c)).
Proof. intros Hid. unfold Async.work. rewrite (map_fold_delete_L _ _ id tk); [done | intros; lia | done]. Qed.

Lemma task_den_same c c' x : same_tasks c c' -> den (task_den c') x = den (task_den c) x.
Proof. intros [_ E]. unfold Async.task_den. by rewrite E. Qed.

Lemma task_den_ext c c' x :
  ctx_wf c -> ctx_ext c c' -> holes_in c x -> den (task_den c') x = den (task_den c) x.
Proof.
  intros Hwf [_ E] Hh. apply den_agree. intros j Hj. unfold Async.task_den.
  rewrite E; [done|]. by apply Hwf, Hh.
Qed.

End MeasureLemmas.

(** ** Equations of the synchronous code *)

Lemma result_merge_field name c rest :
  result_of (merge_field name c rest) = (v ← result_of c; vs ← result_of rest; Some ((name, v) :: vs)).
Proof. destruct c as [es1 [e1|v1]], rest as [es2 [e2|vs]]; reflexivity. Qed.

Lemma result_handled t (c : completion) :
  result_of (match c with (es, inl e) => handle_field_error t es e | _ => c end) = catch_data t (result_of c).
Proof. destruct c as [es [e|v]]; unfold handle_field_error, catch_data; simpl; [by destruct (is_non_null t) | done]. Qed.

Lemma result_merge_item t c rest :
  result_of (merge_item t c rest) = (v ← catch_data t (result_of c); vs ← result_of rest; Some (v :: vs)).
Proof.
  unfold merge_item, handle_field_error, catch_data.
  destruct c as [es [e|v]]; [destruct (is_non_null t)|]; destruct rest as [es2 [e2|vs]]; reflexivity.
Qed.

Lemma aexecute_fields_with_cons aexec ot src s1 rest p c :
  aexecute_fields_with aexec ot src (s1 :: rest) p c =
  match aexec ot src s1 p c with
  | (c1, inl e) => (c1, inl e)
  | (c1, inr x1) =>
      match aexecute_fields_with aexec ot src rest p c1 with
      | (c2, inl e) => (orphan false x1 c2, inl e)
      | (c2, inr xs) => (c2, inr ((sel_name s1, x1) :: xs))
      end
  end.
Proof. reflexivity. Qed.

(** ** The promise machinery keeps what a tree settles to *)

Lemma map_state_same {A B} (f : A -> ectx -> ectx * B) l c :
  (forall x c, x ∈ l -> same_tasks c (f x c).1) -> same_tasks c (map_state f l c).1.
Proof.
  revert c. induction l as [|x l IH]; intros c Hf; simpl; [done|].
  destruct (f x c) as [c1 y] eqn:E. destruct (map_state f l c1) as [c2 ys] eqn:E2. simpl.
  assert (H1 : same_tasks c c1) by (change c1 with (c1, y).1; rewrite <- E; apply Hf; by left).
  assert (H2 : same_tasks c1 c2).
  { change c2 with (c2, ys).1. rewrite <- E2. apply IH. intros. apply Hf. by right. }
  by etrans.
Qed.

Lemma map_state_Forall2 {A B} (f : A -> ectx -> ectx * B) (P : A -> B -> Prop) l c :
  (forall x c, x ∈ l -> P x (f x c).2) -> Forall2 P l (map_state f l c).2.
Proof.
  revert c. induction l as [|x l IH]; intros c Hf; simpl; [done|].
  destruct (f x c) as [c1 y] eqn:E. destruct (map_state f l c1) as [c2 ys] eqn:E2. simpl.
  constructor.
  - change y with (c1, y).2. rewrite <- E. apply Hf. by left.
  - change ys with (c2, ys).2. rewrite <- E2. apply IH. intros. apply Hf. by right.
Qed.

Lemma first_rejection_Some xs e : first_rejection xs = Some e -> PErr e ∈ xs.
Proof.
  unfold first_rejection. induction xs as [|x xs IH]; simpl; [done|].
  destruct x; simpl; try (intros; right; by apply IH). intros [= ->]. by left.
Qed.

Lemma first_rejection_None xs : first_rejection xs = None -> Forall (fun y => rejected y = false) xs.
Proof.
  unfold first_rejection. induction xs as [|x xs IH]; simpl; [done|].
  destruct x; simpl; try done; intros H; constructor; auto.
Qed.

Lemma Forall2_elem_r {A B} (P : A -> B -> Prop) l k y : Forall2 P l k -> y ∈ k -> exists x, x ∈ l /\ P x y.
Proof.
  induction 1 as [|x y' l k Hxy _ IH]; intros Hy; [by apply elem_of_nil in Hy|].
  apply elem_of_cons in Hy as [->|Hy]; [exists x; split; [by left|done]|].
  destruct (IH Hy) as (z & ? & ?). exists z. split; [by right|done].
Qed.

Lemma mapM_Forall2_eq {A A' B} (f : A -> option B) (g : A' -> option B) l l' :
  Forall2 (fun x y => f x = g y) l l' -> mapM f l = mapM g l'.
Proof. induction 1 as [|x y l l' Hxy _ IH]; [done|]. cbn [mapM]. by rewrite Hxy, IH. Qed.

(** A tree [x'] that settles as [x] does, waits for no promise [x] does
    not, and is as the machinery leaves it. *)
Definition keeps (x x' : ptree) : Prop :=
  (forall dt, den dt x' = den dt x) /\ holes x' ⊆ holes x /\ normal x' = true.

Lemma keeps_fields fs fs' :
  Forall2 (fun ky ky' => ky'.1 = ky.1 /\ keeps ky.2 ky'.2) fs fs' ->
  (forall dt, mapM (fun '(k, y) => pair k <$> den dt y) fs' = mapM (fun '(k, y) => pair k <$> den dt y) fs) /\
  holes (PObj fs') ⊆ holes (PObj fs) /\ Forall (fun ky => normal ky.2 = true) fs'.
Proof.
  intros Hf. split_and!.
  - intros dt. symmetry. apply mapM_Forall2_eq. eapply Forall2_impl; [exact Hf|].
    intros [k y] [k' y'] [Hk (Hd & _ & _)]. simpl in *. subst. by rewrite Hd.
  - intros j Hj. simpl in *. apply list_elem_of_join in Hj as (l & Hj & Hl).
    apply list_elem_of_fmap in Hl as ([k' y'] & -> & Hin').
    destruct (Forall2_elem_r _ _ _ _ Hf Hin') as ([k y] & Hin & _ & _ & Hh & _).
    apply list_elem_of_join. exists (holes y). split; [by apply Hh|].
    apply list_elem_of_fmap. by exists (k, y).
  - apply Forall_forall. intros ky' Hin'. destruct (Forall2_elem_r _ _ _ _ Hf Hin') as (ky & _ & _ & _ & _ & Hn).
    done.
Qed.

Lemma keeps_items xs xs' :
  Forall2 keeps xs xs' ->
  (forall dt, mapM (den dt) xs' = mapM (den dt) xs) /\
  holes (PArr xs') ⊆ holes (PArr xs) /\ Forall (fun y => normal y = true) xs'.
Proof.
  intros Hf. split_and!.
  - intros dt. symmetry. apply mapM_Forall2_eq. eapply Forall2_impl; [exact Hf|].
    intros y y' (Hd & _ & _). by rewrite Hd.
  - intros j Hj. simpl in *. apply list_elem_of_join in Hj as (l & Hj & Hl).
    apply list_elem_of_fmap in Hl as (y' & -> & Hin').
    destruct (Forall2_elem_r _ _ _ _ Hf Hin') as (y & Hin & _ & Hh & _).
    apply list_elem_of_join. exists (holes y). split; [by apply Hh|].
    apply list_elem_of_fmap. by exists y.
  - apply Forall_forall. intros y' Hin'. by destruct (Forall2_elem_r _ _ _ _ Hf Hin') as (y & _ & _ & _ & Hn).
Qed.

Lemma den_catch dt t x : den dt (PCatch t x) = catch_data t (den dt x).
Proof. reflexivity. Qed.

Lemma normal_catch t x : pending x = true -> normal x = true -> normal (PCatch t x) = true.
Proof. simpl. by intros -> ->. Qed.

(** What the promise machinery guarantees on a tree: it changes no
    pending promise and keeps the tree's meaning. *)
Definition norm_ok (x : ptree) : Prop := forall c, same_tasks c (norm x c).1 /\ keeps x (norm x c).2.

Lemma norm_obj_spec fs : Forall (fun ky => norm_ok ky.2) fs -> norm_ok (PObj fs).
Proof.
  intros IH c. cbn [norm]. set (F := fun ky c => let r := norm ky.2 c in (r.1, (ky.1, r.2))).
  rewrite Forall_forall in IH.
  assert (Hs : same_tasks c (map_state F fs c).1).
  { apply map_state_same. intros ky c' Hin. apply (IH _ Hin c'). }
  assert (Hf : Forall2 (fun ky ky' => ky'.1 = ky.1 /\ keeps ky.2 ky'.2) fs (map_state F fs c).2).
  { apply map_state_Forall2. intros ky c' Hin. split; [done|]. apply (IH _ Hin c'). }
  destruct (map_state F fs c) as [c' fs']. simpl in Hs, Hf.
  destruct (keeps_fields _ _ Hf) as (Hd & Hh & Hn).
  destruct (first_rejection (snd <$> fs')) as [e|] eqn:Er.
  - split; [etrans; [done|]; apply orphans_same|]. split_and!; [|set_solver|done].
    intros dt. simpl. rewrite <- Hd. apply first_rejection_Some, list_elem_of_fmap in Er as ([k y] & Hy & Hin).
    simpl in Hy. subst. rewrite (mapM_None_2 _ fs'); [done|]. apply Exists_exists.
    exists (k, PErr e). by split.
  - split; [done|]. cbn [snd]. split_and!.
    + intros dt. by rewrite object_of_den; simpl; rewrite Hd.
    + intros j Hj%object_of_holes. by apply Hh.
    + apply object_of_normal. apply first_rejection_None in Er. rewrite Forall_fmap in Er.
      apply Forall_and; split; [done|]. by eapply Forall_impl; [exact Er|].
Qed.

Lemma norm_arr_spec xs : Forall norm_ok xs -> norm_ok (PArr xs).
Proof.
  intros IH c. cbn [norm]. rewrite Forall_forall in IH.
  assert (Hs : same_tasks c (map_state norm xs c).1).
  { apply map_state_same. intros y c' Hin. apply (IH _ Hin c'). }
  assert (Hf : Forall2 keeps xs (map_state norm xs c).2).
  { apply map_state_Forall2. intros y c' Hin. apply (IH _ Hin c'). }
  destruct (map_state norm xs c) as [c' xs']. simpl in Hs, Hf.
  destruct (keeps_items _ _ Hf) as (Hd & Hh & Hn).
  destruct (first_rejection xs') as [e|] eqn:Er.
  - split; [etrans; [done|]; apply orphans_same|]. split_and!; [|set_solver|done].
    intros dt. simpl. rewrite <- Hd. apply first_rejection_Some in Er.
    rewrite (mapM_None_2 _ xs'); [done|]. apply Exists_exists. by exists (PErr e).
  - split; [done|]. cbn [snd]. split_and!.
    + intros dt. by rewrite array_of_den; simpl; rewrite Hd.
    + intros j Hj%array_of_holes. by apply Hh.
    + apply array_of_normal. apply first_rejection_None in Er.
      apply Forall_and; split; [done|]. done.
Qed.

Lemma norm_catch_spec t y : norm_ok y -> norm_ok (PCatch t y).
Proof.
  intros IH c. cbn [norm]. destruct (IH c) as [Hs (Hd & Hh & Hn)].
  destruct (norm y c) as [c1 y']. cbn [fst snd] in *.
  destruct y' as [rv|e|id|fs|xs|t0 z];
    cbn [fst snd];
    [| |split; [done|]; split_and!; [intros dt; by rewrite 2!(den_catch dt t), Hd | exact Hh | by apply normal_catch]..].
  - split; [done|]. split_and!; [intros dt; rewrite den_catch, <- Hd; done | set_solver | done].
  - destruct (is_non_null t) eqn:Hnn.
    + split; [done|]. split_and!; [intros dt; rewrite den_catch, <- Hd; simpl; by rewrite Hnn | set_solver | done].
    + split; [etrans; [done|]; apply push_error_same|].
      split_and!; [intros dt; rewrite den_catch, <- Hd; simpl; by rewrite Hnn | set_solver | done].
Qed.

Lemma norm_spec x : forall c, same_tasks c (norm x c).1 /\ keeps x (norm x c).2.
Proof.
  induction x as [rv|e|id|fs IH|xs IH|t y IH] using ptree_ind'; intros c.
  - split_and!; done.
  - split_and!; done.
  - split_and!; done.
  - by apply norm_obj_spec.
  - by apply norm_arr_spec.
  - by apply norm_catch_spec.
Qed.

(** Plugging the settlement of promise [id] where it is awaited keeps
    what the tree settles to, given that the settlement settles as the
    promise did. *)
Lemma plug_den id y x dt1 dt2 :
  den dt2 y = dt1 id -> (forall j, j ∈ holes x -> j <> id -> dt2 j = dt1 j) ->
  den dt2 (plug id y x) = den dt1 x.
Proof.
  intros Hy. induction x as [rv|e|j|fs IH|xs IH|t z IH] using ptree_ind'; intros Hh; cbn [plug].
  - done.
  - done.
  - case_decide; [by subst|]. apply Hh; [by left|done].
  - cbn [den]. f_equal. apply mapM_Forall2_eq. apply Forall2_fmap_l, Forall_Forall2_diag.
    rewrite Forall_forall in IH |- *. intros [k z] Hin. simpl. f_equal. apply (IH _ Hin).
    intros j Hj. apply Hh. apply list_elem_of_join. exists (holes z). split; [done|].
    apply list_elem_of_fmap. by exists (k, z).
  - cbn [den]. f_equal. apply mapM_Forall2_eq. apply Forall2_fmap_l, Forall_Forall2_diag.
    rewrite Forall_forall in IH |- *. intros z Hin. apply (IH _ Hin).
    intros j Hj. apply Hh. apply list_elem_of_join. exists (holes z). split; [done|].
    apply list_elem_of_fmap. by exists z.
  - rewrite !den_catch. by rewrite IH.
Qed.

Lemma plug_holes id y x j : j ∈ holes (plug id y x) -> j ∈ holes y \/ (j ∈ holes x /\ j <> id).
Proof.
  induction x as [rv|e|i|fs IH|xs IH|t z IH] using ptree_ind'; cbn [plug holes].
  - by intros ?%elem_of_nil.
  - by intros ?%elem_of_nil.
  - case_decide; [by left|]. intros ->%list_elem_of_singleton. right. split; [by left|done].
  - intros (l & Hj & Hl)%list_elem_of_join. rewrite <- list_fmap_compose in Hl.
    apply list_elem_of_fmap in Hl as ([k z] & -> & Hin). rewrite Forall_forall in IH.
    destruct (IH _ Hin Hj) as [?|[? ?]]; [by left|right]. split; [|done].
    apply list_elem_of_join. exists (holes z). split; [done|]. apply list_elem_of_fmap. by exists (k, z).
  - intros (l & Hj & Hl)%list_elem_of_join. rewrite <- list_fmap_compose in Hl.
    apply list_elem_of_fmap in Hl as (z & -> & Hin). rewrite Forall_forall in IH.
    destruct (IH _ Hin Hj) as [?|[? ?]]; [by left|right]. split; [|done].
    apply list_elem_of_join. exists (holes z). split; [done|]. apply list_elem_of_fmap. by exists z.
  - apply IH.
Qed.

(** ** The synchronous code simulates the sequential model *)

Section Simulation.
Variable schema : list object_type.
Variable resolve : string -> string -> option (jsval -> jsval -> outcome jsval).
Local Abbreviation work := (work schema resolve).
Local Abbreviation task_den := (task_den schema resolve).
Local Abbreviation exec := (execute_field schema resolve).

Definition tree_ok (c : ectx) (x : ptree) : Prop :=
  holes_in c x /\ normal x = true /\ rejected x = false.

(** A synchronous run from [c] to [c'] with result [r] agrees with a
    sequential completion whose value is [d]: it only adds pending
    promises, at most [k] resolver calls' worth, and when it returns a
    tree, the tree settles to [d]. *)
Definition simr {R D} (ok : ectx -> R -> Prop) (dn : ectx -> R -> option D)
    (c c' : ectx) (k : nat) (r : gql_error + R) (d : option D) : Prop :=
  ctx_wf c' /\ ctx_ext c c' /\ work c' <= work c + k /\
  match r with inl _ => d = None | inr x => ok c' x /\ dn c' x = d end.

Local Abbreviation sim := (simr tree_ok (fun c x => den (task_den c) x)).
Local Abbreviation sim_items := (simr (fun c xs => Forall (tree_ok c) xs) (fun c xs => mapM (den (task_den c)) xs)).
Local Abbreviation sim_fields :=
  (simr (fun c fs => Forall (fun ky => tree_ok c ky.2) fs)
        (fun c fs => mapM (fun '(k, y) => pair k <$> den (task_den c) y) fs)).

Lemma tree_ok_ext c c' x :
  ctx_wf c -> ctx_ext c c' -> tree_ok c x -> tree_ok c' x /\ den (task_den c') x = den (task_den c) x.
Proof.
  intros Hwf He (Hh & Hn & Hr). split; [|by apply task_den_ext].
  split_and!; [by eapply holes_in_ext | done | done].
Qed.

Lemma tree_ok_same c c' x : same_tasks c c' -> tree_ok c x -> tree_ok c' x.
Proof. intros Hs (Hh & Hn & Hr). split_and!; [by eapply same_tasks_holes_in | done | done]. Qed.

(** The loop of [executeFields]. *)
Lemma afields_sim (aexec : afield_executor) ot src p sels :
  Forall (fun s => forall c c' r, ctx_wf c -> aexec ot src s p c = (c', r) ->
            sim c c' (calls_field schema resolve ot src s) r (result_of (exec ot src s p))) sels ->
  forall c c' r, ctx_wf c -> aexecute_fields_with aexec ot src sels p c = (c', r) ->
  sim_fields c c' (calls_fields schema resolve ot src sels) r
    (result_of (execute_fields_with exec ot src sels p)).
Proof.
  induction 1 as [|s1 sels Hs1 _ IH]; intros c c' r Hwf Hrun.
  - simpl in Hrun. simplify_eq. split_and!; [done | reflexivity | lia | done | done].
  - rewrite aexecute_fields_with_cons in Hrun. rewrite execute_fields_with_cons, result_merge_field.
    change (calls_fields schema resolve ot src (s1 :: sels))
      with (calls_field schema resolve ot src s1 + calls_fields schema resolve ot src sels).
    destruct (aexec ot src s1 p c) as [c1 r1] eqn:H1.
    destruct (Hs1 c c1 r1 Hwf H1) as (Hwf1 & He1 & Hw1 & Hr1).
    destruct r1 as [e|x1].
    + simplify_eq. rewrite Hr1. split_and!; [done | done | lia | done].
    + destruct (aexecute_fields_with aexec ot src sels p c1) as [c2 r2] eqn:H2.
      destruct (IH c1 c2 r2 Hwf1 H2) as (Hwf2 & He2 & Hw2 & Hr2).
      destruct Hr1 as [Hok1 Hd1].
      destruct r2 as [e|xs]; injection Hrun as <- <-.
      * pose proof (orphan_same false x1 c2) as Hs.
        split_and!; [by eapply same_tasks_wf | etrans; [done|]; etrans; [done|]; by apply same_tasks_ext
                    | rewrite (work_same _ _ _ _ Hs); lia | ].
        rewrite <- Hd1, Hr2. by destruct (den _ x1).
      * destruct Hr2 as [Hok2 Hd2]. destruct (tree_ok_ext c1 c2 x1 Hwf1 He2 Hok1) as [Hok1' Hd1'].
        split_and!; [done | by etrans | lia | by constructor |].
        cbn [mapM]. rewrite Hd1', Hd1, Hd2. by destruct (result_of (exec ot src s1 p)).
Qed.

Lemma tree_ok_val c rv : tree_ok c (PVal rv).
Proof. split_and!; [intros j Hj; by apply elem_of_nil in Hj | done | done]. Qed.

Lemma await_at_ok c t x :
  tree_ok c x -> tree_ok c (await_at t x) /\
  den (task_den c) (await_at t x) = catch_data t (den (task_den c) x).
Proof.
  intros (Hh & Hn & Hr). destruct x; simpl in *; try done; split; try done;
    split_and!; simpl; try done; by rewrite Hn.
Qed.

(** A field or item handled at its type. *)
Lemma handled_sim t c c1 k r d c2 r2 :
  sim c c1 k r d -> handled t (c1, r) = (c2, r2) -> sim c c2 k r2 (catch_data t d).
Proof.
  intros (Hwf & He & Hw & Hr) Hh. destruct r as [e|x]; simpl in Hh.
  - subst d. unfold handle_sync in Hh. destruct (is_non_null t) eqn:Hn; injection Hh as <- <-.
    + split_and!; [done | done | done | simpl; by rewrite Hn].
    + pose proof (push_error_same e c1) as Hs.
      split_and!; [by eapply same_tasks_wf | etrans; [done|]; by apply same_tasks_ext
                  | rewrite (work_same _ _ _ _ Hs); lia | apply tree_ok_val | simpl; by rewrite Hn].
  - destruct Hr as [Hok Hd]. injection Hh as <- <-. destruct (await_at_ok c1 t x Hok) as [Hok' Hd'].
    split_and!; [done | done | done | done | by rewrite Hd', Hd].
Qed.

(** The loop of [completeListValue]. *)
Definition acomplete_items (aexec : afield_executor) (parent field : string) (sub : list selection)
    (t : gtype) (p : list path_key) : list jsval -> nat -> ectx -> ectx * (gql_error + list ptree) :=
  fix items (xs : list jsval) (i : nat) (c : ectx) : ectx * (gql_error + list ptree) :=
    match xs with
    | [] => (c, inr [])
    | x :: xs' =>
        match handled t (acomplete_with schema aexec parent field sub t x (p ++ [PIndex i]) c) with
        | (c1, inl e) => (c1, inl e)
        | (c1, inr x1) =>
            match items xs' (S i) c1 with
            | (c2, inl e) => (orphan false x1 c2, inl e)
            | (c2, inr ys) => (c2, inr (x1 :: ys))
            end
        end
    end.

Lemma acomplete_list_array_eq aexec parent field sub t xs p c :
  acomplete_with schema aexec parent field sub (TList t) (JArray xs) p c =
  match acomplete_items aexec parent field sub t p xs 0 c with
  | (c', inl e) => (c', inl e)
  | (c', inr ys) => (c', inr (array_of ys))
  end.
Proof. reflexivity. Qed.

Lemma object_of_ok c fs :
  Forall (fun ky => tree_ok c ky.2) fs ->
  tree_ok c (object_of fs) /\
  den (task_den c) (object_of fs) = RObject <$> mapM (fun '(k, y) => pair k <$> den (task_den c) y) fs.
Proof.
  intros Hall. rewrite object_of_den. split; [|done].
  split_and!; [|apply object_of_normal|apply object_of_rejected].
  - intros j Hj%object_of_holes. revert j Hj. apply holes_in_obj. by eapply Forall_impl; [done|]; intros ? [].
  - by eapply Forall_impl; [done|]; intros ? (_ & ? & ?).
Qed.

Lemma array_of_ok c xs :
  Forall (tree_ok c) xs ->
  tree_ok c (array_of xs) /\ den (task_den c) (array_of xs) = RList <$> mapM (den (task_den c)) xs.
Proof.
  intros Hall. rewrite array_of_den. split; [|done].
  split_and!; [|apply array_of_normal|apply array_of_rejected].
  - intros j Hj%array_of_holes. revert j Hj. apply holes_in_arr. by eapply Forall_impl; [done|]; intros ? [].
  - by eapply Forall_impl; [done|]; intros ? (_ & ? & ?).
Qed.

Local Abbreviation calls_complete := (calls_complete_with schema (calls_field schema resolve)).

Lemma aitems_sim (aexec : afield_executor) parent field sub t p :
  (forall v p c c' r, ctx_wf c -> acomplete_with schema aexec parent field sub t v p c = (c', r) ->
     sim c c' (calls_complete sub t v) r (result_of (complete_value_with schema exec parent field sub t v p))) ->
  forall xs i c c' r, ctx_wf c -> acomplete_items aexec parent field sub t p xs i c = (c', r) ->
  sim_items c c' (sum_list_with (calls_complete sub t) xs) r
    (result_of (complete_items schema exec parent field sub t p xs i)).
Proof.
  intros Ht xs. induction xs as [|x xs IH]; intros i c c' r Hwf Hrun.
  - simpl in Hrun. simplify_eq. split_and!; [done | reflexivity | simpl; lia | done | done].
  - cbn [acomplete_items] in Hrun. fold (acomplete_items aexec parent field sub t p) in Hrun.
    rewrite complete_items_cons, result_merge_item. cbn [sum_list_with].
    destruct (acomplete_with schema aexec parent field sub t x (p ++ [PIndex i]) c) as [c0 r0] eqn:H0.
    pose proof (Ht x _ c c0 r0 Hwf H0) as Hs0.
    destruct (handled t (c0, r0)) as [c1 r1] eqn:H1.
    destruct (handled_sim t c c0 _ r0 _ c1 r1 Hs0 H1) as (Hwf1 & He1 & Hw1 & Hr1).
    destruct r1 as [e|x1].
    + simplify_eq. rewrite Hr1. split_and!; [done | done | lia | done].
    + destruct (acomplete_items aexec parent field sub t p xs (S i) c1) as [c2 r2] eqn:H2.
      destruct (IH (S i) c1 c2 r2 Hwf1 H2) as (Hwf2 & He2 & Hw2 & Hr2).
      destruct Hr1 as [Hok1 Hd1].
      destruct r2 as [e|ys]; injection Hrun as <- <-.
      * pose proof (orphan_same false x1 c2) as Hs.
        split_and!; [by eapply same_tasks_wf | etrans; [done|]; etrans; [done|]; by apply same_tasks_ext
                    | rewrite (work_same _ _ _ _ Hs); lia | ].
        rewrite <- Hd1, Hr2. by destruct (den _ x1).
      * destruct Hr2 as [Hok2 Hd2]. destruct (tree_ok_ext c1 c2 x1 Hwf1 He2 Hok1) as [Hok1' Hd1'].
        split_and!; [done | by etrans | lia | by constructor |].
        cbn [mapM]. rewrite Hd1', Hd1, Hd2. by destruct (catch_data _ _).
Qed.

Lemma result_wrap_fields (fc : fields_completion) : result_of (wrap_fields fc) = RObject <$> result_of fc.
Proof. by destruct fc as [es [e|fs]]. Qed.

Lemma result_wrap_items (ic : items_completion) : result_of (wrap_items ic) = RList <$> result_of ic.
Proof. by destruct ic as [es [e|vs]]. Qed.

Lemma sim_throw c k e : ctx_wf c -> sim c c k (inl e) None.
Proof. intros Hwf. split_and!; [done | reflexivity | lia | done]. Qed.

Lemma sim_settled c k rv : ctx_wf c -> sim c c k (inr (PVal rv)) (Some rv).
Proof. intros Hwf. split_and!; [done | reflexivity | lia | apply tree_ok_val | done]. Qed.

#[local] Hint Resolve sim_throw sim_settled : async.

(** The check of a non-null type on a completion. *)
Definition non_null_check (parent field : string) (p : list path_key) (cr : sync_result) : sync_result :=
  match cr with
  | (c', inr (PVal RNull)) => (c', inl (non_null_error parent field p))
  | r => r
  end.

Lemma acomplete_non_null_eq aexec parent field sub t v p c :
  acomplete_with schema aexec parent field sub (TNonNull t) v p c =
  match as_error v with
  | Some e => (c, inl (located_error e p))
  | None => non_null_check parent field p (acomplete_with schema aexec parent field sub t v p c)
  end.
Proof.
  cbn [acomplete_with]. destruct (as_error v); [done|]. unfold non_null_check.
  by destruct (acomplete_with schema aexec parent field sub t v p c) as [? [?|[[]| | | | |]]].
Qed.

Definition is_null_tree (x : ptree) : bool :=
  match x with PVal RNull => true | _ => false end.

Lemma non_null_check_ne parent field p c x :
  is_null_tree x = false -> non_null_check parent field p (c, inr x) = (c, inr x).
Proof. intros Hx. destruct x as [[]| | | | |]; done. Qed.

Lemma result_non_null (cc : completion) nn :
  result_of (match cc with (es, inr RNull) => (es, inl nn) | c => c end) =
  match result_of cc with Some RNull => None | d => d end.
Proof. by destruct cc as [es [e|[]]]. Qed.

(** What [completeValue] at the type [t] guarantees: the simulation,
    and a promise where the sequential result is [null] only when the
    completion is [null] itself. *)
Definition complete_ok (parent field : string) (sub : list selection) (t : gtype) : Prop :=
  forall v p c c' r, ctx_wf c ->
  acomplete_with schema (aexecute_field schema resolve) parent field sub t v p c = (c', r) ->
  sim c c' (calls_complete sub t v) r (result_of (complete_value_with schema exec parent field sub t v p)) /\
  (forall x, r = inr x -> result_of (complete_value_with schema exec parent field sub t v p) = Some RNull ->
             x = PVal RNull).

Local Abbreviation fields_ok sub :=
  (Forall (fun s => forall ot src p c c' r, ctx_wf c -> aexecute_field schema resolve ot src s p c = (c', r) ->
            sim c c' (calls_field schema resolve ot src s) r (result_of (exec ot src s p))) sub).

Lemma acomplete_named_sim parent field sub n : fields_ok sub -> complete_ok parent field sub (TNamed n).
Proof.
  intros IH v p c c' r Hwf Hrun.
  cbn [acomplete_with complete_value_with calls_complete_with] in Hrun |- *.
  destruct (as_error v) eqn:Hv; [injection Hrun as <- <-; split; [by apply sim_throw | by intros ? [=]]|].
  destruct (is_nullish v); [injection Hrun as <- <-; split; [by apply sim_settled | by intros ? [= <-]]|].
  destruct (is_scalar n).
  - destruct (serialize_leaf n v); injection Hrun as <- <-;
      (split; [by apply sim_settled || by apply sim_throw | by intros ? [= <-] [= ->]]).
  - destruct (find_type schema n) as [ot'|];
      [|injection Hrun as <- <-; split; [by apply sim_throw | by intros ? [=]]].
    rewrite result_wrap_fields.
    destruct (aexecute_fields_with _ ot' v sub p c) as [c1 r1] eqn:Hf.
    assert (Hs := afields_sim _ ot' v p sub (Forall_impl _ _ _ IH (fun s H => H ot' v p)) c c1 r1 Hwf Hf).
    destruct Hs as (Hwf1 & He1 & Hw1 & Hr1).
    destruct r1 as [e|fs]; injection Hrun as <- <-.
    + split; [split_and!; [done | done | done | by rewrite Hr1] | by intros ? [=]].
    + destruct Hr1 as [Hok Hd]. destruct (object_of_ok c1 fs Hok) as [Hok' Hd'].
      split; [split_and!; [done | done | done | done | by rewrite Hd', Hd]|].
      intros x [= <-]. by destruct (result_of (execute_fields_with exec ot' v sub p)).
Qed.

Lemma acomplete_list_sim parent field sub t : complete_ok parent field sub t -> complete_ok parent field sub (TList t).
Proof.
  intros IHt v p c c' r Hwf Hrun.
  destruct v as [| | | | | |xs|e0];
    [..|rewrite acomplete_list_array_eq in Hrun; rewrite complete_list_array_eq, result_wrap_items|];
    [try (cbn [acomplete_with complete_value_with calls_complete_with as_error is_nullish] in Hrun |- *;
          injection Hrun as <- <-; split;
          [first [by apply sim_settled | by apply sim_throw] | first [by intros ? [= <-] | by intros ? [=]]])..].
  change (calls_complete sub (TList t) (JArray xs)) with (sum_list_with (calls_complete sub t) xs).
  destruct (acomplete_items _ parent field sub t p xs 0 c) as [c1 r1] eqn:Hi.
  destruct (aitems_sim _ parent field sub t p (fun v p c c' r Hwf H => proj1 (IHt v p c c' r Hwf H))
              xs 0 c c1 r1 Hwf Hi) as (Hwf1 & He1 & Hw1 & Hr1).
  destruct r1 as [e|ys]; injection Hrun as <- <-.
  - split; [split_and!; [done | done | done | by rewrite Hr1] | by intros ? [=]].
  - destruct Hr1 as [Hok Hd]. destruct (array_of_ok c1 ys Hok) as [Hok' Hd'].
    split; [split_and!; [done | done | done | done | by rewrite Hd', Hd]|].
    intros x [= <-]. by destruct (result_of (complete_items schema exec parent field sub t p xs 0)).
Qed.

Lemma acomplete_non_null_sim parent field sub t :
  complete_ok parent field sub t -> complete_ok parent field sub (TNonNull t).
Proof.
  intros IHt v p c c' r Hwf Hrun. destruct (as_error v) eqn:Hv.
  - cbn [acomplete_with complete_value_with calls_complete_with] in Hrun |- *. rewrite Hv in Hrun |- *.
    injection Hrun as <- <-. split; [by apply sim_throw | by intros ? [=]].
  - rewrite acomplete_non_null_eq, Hv in Hrun. rewrite complete_non_null_eq, Hv.
    replace (calls_complete sub (TNonNull t) v) with (calls_complete sub t v)
      by (cbn [calls_complete_with]; by rewrite Hv).
    destruct (acomplete_with _ _ parent field sub t v p c) as [c0 r0] eqn:H0.
    destruct (IHt v p c c0 r0 Hwf H0) as [(Hwf0 & He0 & Hw0 & Hr0) Hnull0].
    destruct r0 as [e0|x]; [|destruct (is_null_tree x) eqn:Hx; [destruct x as [[]| | | | |]; try done|]];
      [cbn in Hrun | cbn in Hrun | rewrite non_null_check_ne in Hrun by done];
      injection Hrun as <- <-;
      destruct (complete_value_with schema exec parent field sub t v p) as [es [e|[]]];
      cbn [result_of snd] in *; try done;
      try (split; [split_and!; try done; by destruct Hr0 | by intros ? [=]]).
    by rewrite (Hnull0 x eq_refl eq_refl) in Hx.
Qed.

(** [completeValue] *)
Lemma acomplete_sim parent field sub : fields_ok sub -> forall t, complete_ok parent field sub t.
Proof.
  intros IH t. induction t as [n|t IHt|t IHt].
  - by apply acomplete_named_sim.
  - by apply acomplete_list_sim.
  - by apply acomplete_non_null_sim.
Qed.

(** [executeField]: a resolver call is a pending promise whose work is
    that of the field; a default-resolved field completes at once. *)
Lemma aexecute_field_sim sel :
  forall ot src p c c' r, ctx_wf c -> aexecute_field schema resolve ot src sel p c = (c', r) ->
  sim c c' (calls_field schema resolve ot src sel) r (result_of (exec ot src sel p)).
Proof.
  induction sel as [f args sub IH] using selection_ind'.
  intros ot src p c c' r Hwf Hrun. cbn [aexecute_field calls_field execute_field] in Hrun |- *.
  destruct (find_field ot f) as [fd|]; [|injection Hrun as <- <-; by apply sim_throw].
  unfold resolve_field. destruct (resolve (ot_name ot) (fd_name fd)) as [rf|] eqn:Hr.
  - set (tk := Task (ot_name ot) f sub (fd_type fd) (p ++ [PKey f]) (rf src (args_object args))).
    injection Hrun as <- <-. split_and!.
    + by apply spawn_wf.
    + by apply spawn_ext.
    + assert (Hw := work_spawn schema resolve tk c Hwf). unfold Async.task_work in Hw. subst tk. simpl in Hw |- *. lia.
    + split_and!; [|done|done]. intros j Hj. apply list_elem_of_singleton in Hj as ->.
      simpl. rewrite lookup_insert_eq. by eexists.
    + cbn [den]. unfold Async.task_den. simpl. rewrite lookup_insert_eq. simpl.
      rewrite <- result_handled. unfold task_completion. simpl.
      destruct (rf src (args_object args)) as [v|e]; [|done].
      by destruct (complete_value_with _ _ _ _ _ _ v _) as [es [e|rv]].
  - destruct (acomplete_with schema (aexecute_field schema resolve) (ot_name ot) f sub (fd_type fd)
                (js_get src (fd_name fd)) (p ++ [PKey f]) c) as [c0 r0] eqn:H0.
    destruct (acomplete_sim (ot_name ot) f sub IH _ _ _ c c0 r0 Hwf H0) as [Hs0 _].
    eapply (handled_sim (fd_type fd)) in Hs0; [|exact Hrun].
    unfold default_resolver. rewrite <- result_handled in Hs0.
    by destruct (complete_value_with _ _ _ _ _ _ (js_get src (fd_name fd)) _) as [es [e|rv]].
Qed.

(** The continuation of a settled resolver promise. *)
Lemma settle_task_sim tk c c' y :
  ctx_wf c -> settle_task schema resolve tk c = (c', y) ->
  ctx_wf c' /\ ctx_ext c c' /\ S (work c') <= work c + task_work schema resolve tk /\
  holes_in c' y /\ den (task_den c') y = result_of (task_completion schema resolve tk).
Proof.
  intros Hwf Hst. unfold settle_task, task_completion, Async.task_work in *.
  destruct (tk_out tk) as [v|e].
  - destruct (acomplete_with schema (aexecute_field schema resolve) (tk_parent tk) (tk_field tk)
                (tk_sub tk) (tk_type tk) v (tk_path tk) c) as [c1 r1] eqn:H1.
    assert (IH : Forall (fun s => forall ot src p c c' r, ctx_wf c ->
                   aexecute_field schema resolve ot src s p c = (c', r) ->
                   sim c c' (calls_field schema resolve ot src s) r (result_of (exec ot src s p))) (tk_sub tk))
      by (apply Forall_forall; intros s _; apply aexecute_field_sim).
    destruct (acomplete_sim (tk_parent tk) (tk_field tk) (tk_sub tk) IH _ _ _ c c1 r1 Hwf H1)
      as [(Hwf1 & He1 & Hw1 & Hr1) _].
    destruct r1 as [e|x]; injection Hst as <- <-.
    + split_and!; [done | done | lia | intros j Hj; by apply elem_of_nil in Hj | by rewrite Hr1].
    + destruct Hr1 as [(Hh & _ & _) Hd]. split_and!; [done | done | lia | done | done].
  - injection Hst as <- <-. split_and!; [done | reflexivity | lia | intros j Hj; by apply elem_of_nil in Hj | done].
Qed.

End Simulation.

(** ** Runs of the event loop *)

Lemma settle_orphans_same id y os c : same_tasks c (settle_orphans id y os c).1.1.
Proof.
  revert c. induction os as [|[h o] os IH]; intros c; simpl; [done|].
  destruct (norm (plug id y o) c) as [c1 o'] eqn:E.
  pose proof (proj1 (norm_spec (plug id y o) c)) as Hs. rewrite E in Hs.
  specialize (IH c1). destruct (settle_orphans id y os c1) as [[c2 kept] un].
  simpl in *. by destruct o'; simpl; etrans.
Qed.

Lemma respond_same c x r : same_tasks c (respond c x r).1.
Proof. unfold respond. by destruct r; [|destruct x]. Qed.

(** A tree as the machinery leaves it, still pending, waits for a
    resolver promise. *)
Lemma pending_normal_holes x : normal x = true -> pending x = true -> exists j, j ∈ holes x.
Proof.
  induction x as [rv|e|id|fs IH|xs IH|t y IH] using ptree_ind'; simpl; try done.
  - intros _ _. exists id. by left.
  - intros (Hex & Hall)%andb_true_iff _. apply existsb_exists in Hex as ([k y] & Hin%list_elem_of_In & Hp).
    rewrite forallb_forall in Hall. specialize (Hall (k, y) (proj1 (list_elem_of_In _ _) Hin)).
    apply andb_true_iff in Hall as [Hn _]. rewrite Forall_forall in IH.
    destruct (IH _ Hin Hn Hp) as [j Hj]. exists j. apply list_elem_of_join.
    exists (holes y). split; [done|]. apply list_elem_of_fmap. by exists (k, y).
  - intros (Hex & Hall)%andb_true_iff _. apply existsb_exists in Hex as (y & Hin%list_elem_of_In & Hp).
    rewrite forallb_forall in Hall. specialize (Hall y (proj1 (list_elem_of_In _ _) Hin)).
    apply andb_true_iff in Hall as [Hn _]. rewrite Forall_forall in IH.
    destruct (IH _ Hin Hn Hp) as [j Hj]. exists j. apply list_elem_of_join.
    exists (holes y). split; [done|]. apply list_elem_of_fmap. by exists y.
  - intros (Hp & Hn)%andb_true_iff _. by apply IH.
Qed.

Section Run.
Variable schema : list object_type.
Variable resolve : string -> string -> option (jsval -> jsval -> outcome jsval).
Local Abbreviation work := (work schema resolve).
Local Abbreviation task_den := (task_den schema resolve).
Local Abbreviation astep := (astep schema resolve).

Definition den_data (d : option rvalue) : rvalue := match d with Some rv => rv | None => RNull end.

(** The invariant of a run: the pending promises are well numbered, the
    root waits only for pending promises and is as the machinery leaves
    it; until the response is built the root settles to the data of the
    sequential response, and the response built has that data. *)
Definition ainv (q : list selection) (a : aconf) : Prop :=
  ctx_wf (ac_ctx a) /\ holes_in (ac_ctx a) (ac_root a) /\ normal (ac_root a) = true /\
  match ac_response a with
  | None => pending (ac_root a) = true /\
            den_data (den (task_den (ac_ctx a)) (ac_root a)) = resp_data (execute_query schema resolve q)
  | Some r => resp_data r = resp_data (execute_query schema resolve q)
  end.

Lemma ctx_ext_lookup c c' j : ctx_wf c -> ctx_ext c c' -> is_Some (ec_tasks c !! j) ->
  ec_tasks c' !! j = ec_tasks c !! j.
Proof. intros Hwf [_ E] Hj. apply E, Hwf, Hj. Qed.

(** One turn of the event loop keeps the invariant and consumes work. *)
Lemma settle_inv q id a a' :
  ainv q a -> settle schema resolve id a = Some a' ->
  ainv q a' /\ work (ac_ctx a') < work (ac_ctx a).
Proof.
  intros (Hwf & Hh & Hn & Hr) Hs. unfold settle in Hs.
  destruct (ec_tasks (ac_ctx a) !! id) as [tk|] eqn:Htk; [|done]. cbn [mbind option_bind] in Hs.
  set (c := ac_ctx a) in *.
  set (c0 := ECtx (ec_next c) (delete id (ec_tasks c)) (ec_errors c) []) in *.
  assert (Hwf0 : ctx_wf c0).
  { intros j Hj. apply Hwf. simpl in Hj. by apply lookup_delete_is_Some in Hj as [_ ?]. }
  destruct (settle_task schema resolve tk c0) as [c1 y] eqn:Hst.
  destruct (settle_task_sim schema resolve tk c0 c1 y Hwf0 Hst) as (Hwf1 & He1 & Hw1 & Hhy & Hdy).
  (* every pending promise of the root other than [id] is unchanged *)
  assert (Hkeep : forall j, j ∈ holes (ac_root a) -> j <> id -> ec_tasks c1 !! j = ec_tasks c !! j).
  { intros j Hj Hne. rewrite (ctx_ext_lookup c0 c1 j Hwf0 He1); simpl; [by rewrite lookup_delete_ne|].
    rewrite lookup_delete_ne by done. by apply Hh. }
  set (root1 := plug id y (ac_root a)) in *.
  assert (Hd1 : den (task_den c1) root1 = den (task_den c) (ac_root a)).
  { apply plug_den.
    - rewrite Hdy. unfold Async.task_den. by rewrite Htk.
    - intros j Hj Hne. unfold Async.task_den. by rewrite Hkeep. }
  assert (Hh1 : holes_in c1 root1).
  { intros j Hj. apply plug_holes in Hj as [Hj|[Hj Hne]]; [by apply Hhy|]. rewrite Hkeep by done. by apply Hh. }
  destruct (norm root1 c1) as [c2 root2] eqn:Hnorm.
  destruct (norm_spec root1 c1) as [Hs2 (Hd2 & Hh2 & Hn2)]. rewrite Hnorm in Hs2, Hd2, Hh2, Hn2. simpl in *.
  destruct (respond c2 root2 (ac_response a)) as [c3 r] eqn:Hresp.
  pose proof (respond_same c2 root2 (ac_response a)) as Hs3. rewrite Hresp in Hs3. simpl in Hs3.
  destruct (settle_orphans id y (ec_orphans c) c3) as [[c4 kept] un] eqn:Horph.
  pose proof (settle_orphans_same id y (ec_orphans c) c3) as Hs4. rewrite Horph in Hs4. simpl in Hs4.
  injection Hs as <-. cbn [ac_ctx ac_root ac_response].
  assert (Hs14 : same_tasks c1 (ECtx (ec_next c4) (ec_tasks c4) (ec_errors c4) (kept ++ ec_orphans c4))).
  { destruct Hs2 as [N2 T2], Hs3 as [N3 T3], Hs4 as [N4 T4]. split; simpl; congruence. }
  split.
  - split_and!.
    + by eapply same_tasks_wf.
    + eapply same_tasks_holes_in; [done|]. intros j Hj. by apply Hh1, Hh2.
    + done.
    + unfold respond in Hresp. destruct (ac_response a) as [r0|]; [by injection Hresp as <- <-|].
      destruct Hr as [_ Hr]. rewrite <- Hd1, <- (Hd2 (task_den c1)) in Hr.
      destruct root2 as [rv|e|j|fs|xs|t y']; injection Hresp as <- <-; [done|done|..];
        (split; [done|]; by rewrite (task_den_same _ _ _ _ _ Hs14)).
  - rewrite (work_same _ _ _ _ Hs14). rewrite (work_delete schema resolve c id tk Htk).
    change (work c0) with (map_fold (fun _ tk n => task_work schema resolve tk + n) 0 (delete id (ec_tasks c))) in Hw1.
    lia.
Qed.

(** What a turn of the event loop does to the pending promises: it
    removes the one it settles, and its handler adds what it spawns. *)
Lemma settle_tasks id a a' :
  settle schema resolve id a = Some a' ->
  exists tk, ec_tasks (ac_ctx a) !! id = Some tk /\
    same_tasks (settle_task schema resolve tk
                  (ECtx (ec_next (ac_ctx a)) (delete id (ec_tasks (ac_ctx a))) (ec_errors (ac_ctx a)) [])).1
               (ac_ctx a').
Proof.
  unfold settle. destruct (ec_tasks (ac_ctx a) !! id) as [tk|] eqn:Htk; [|done]. cbn [mbind option_bind].
  intros Hs. exists tk. split; [done|].
  destruct (settle_task _ _ _ _) as [c1 y]. simpl.
  destruct (norm (plug id y (ac_root a)) c1) as [c2 root2] eqn:Hnorm.
  pose proof (proj1 (norm_spec (plug id y (ac_root a)) c1)) as [N2 T2]. rewrite Hnorm in N2, T2.
  destruct (respond c2 root2 (ac_response a)) as [c3 r] eqn:Hresp.
  pose proof (respond_same c2 root2 (ac_response a)) as [N3 T3]. rewrite Hresp in N3, T3.
  destruct (settle_orphans id y (ec_orphans (ac_ctx a)) c3) as [[c4 kept] un] eqn:Horph.
  pose proof (settle_orphans_same id y (ec_orphans (ac_ctx a)) c3) as [N4 T4]. rewrite Horph in N4, T4.
  injection Hs as <-. simpl in *. split; simpl; congruence.
Qed.

(** The resolver calls of the root fields: the work a request can do. *)
Definition root_calls (q : list selection) : nat :=
  match find_type schema "Query" with
  | Some qt => calls_fields schema resolve qt JUndefined q
  | None => 0
  end.

Lemma work_empty : work empty_ctx = 0.
Proof. reflexivity. Qed.

Lemma empty_ctx_wf : ctx_wf empty_ctx.
Proof. intros j [? Hj]. simpl in Hj. by rewrite lookup_empty in Hj. Qed.

Lemma astart_inv q : ainv q (astart schema resolve q) /\ work (ac_ctx (astart schema resolve q)) <= root_calls q.
Proof.
  unfold ainv, astart, root_calls, execute_query. destruct (find_type schema "Query") as [qt|] eqn:Hq.
  2: { split; [split_and!; [apply empty_ctx_wf | intros j Hj; by apply elem_of_nil in Hj | done | done]|].
       simpl. rewrite work_empty. lia. }
  assert (IH : Forall (fun s => forall ot src p c c' r, ctx_wf c ->
                 aexecute_field schema resolve ot src s p c = (c', r) ->
                 simr schema resolve tree_ok (fun c x => den (task_den c) x) c c'
                   (calls_field schema resolve ot src s) r (result_of (execute_field schema resolve ot src s p))) q)
    by (apply Forall_forall; intros s _; apply aexecute_field_sim).
  destruct (aexecute_fields_with (aexecute_field schema resolve) qt JUndefined q [] empty_ctx) as [c r] eqn:Hf.
  assert (Hwf0 := empty_ctx_wf).
  destruct (afields_sim schema resolve _ qt JUndefined [] q (Forall_impl _ _ _ IH (fun s H => H qt JUndefined []))
              empty_ctx c r Hwf0 Hf) as (Hwf & _ & Hw & Hr).
  unfold execute_fields. rewrite work_empty in Hw.
  destruct r as [e|fs].
  - cbn [respond ac_ctx ac_root ac_response].
    split; [|rewrite (work_same schema resolve _ _ (push_error_same e c)); lia].
    split_and!; [by eapply same_tasks_wf; [apply push_error_same|] | intros j Hj; by apply elem_of_nil in Hj | done |].
    simpl. by destruct (execute_fields_with _ qt JUndefined q []) as [es [e'|fs']].
  - destruct Hr as [Hok Hd]. destruct (object_of_ok schema resolve c fs Hok) as [(Hh & Hn & _) Hd'].
    destruct (object_of fs) as [rv|e|j|fs'|xs|t y] eqn:Ho; cbn [respond ac_ctx ac_root ac_response];
      (split; [|done]); split_and!; try done.
    all: revert Hd'; rewrite Hd; destruct (execute_fields_with _ qt JUndefined q []) as [es [e'|fs0]];
      cbn; intros H; rewrite ?H; by simplify_eq.
Qed.

Lemma rtc_ainv q a a' : ainv q a -> rtc astep a a' -> ainv q a'.
Proof.
  intros Hi Hr. induction Hr as [a|a1 a2 a3 Hs _ IH]; [done|]. apply IH.
  destruct Hs as [a1 id a2 Hs]. by apply (settle_inv q id a1 a2).
Qed.

Lemma nsteps_work q n a a' : ainv q a -> nsteps astep n a a' -> n + work (ac_ctx a') <= work (ac_ctx a).
Proof.
  intros Hi Hr. revert Hi. induction Hr as [a|n a1 a2 a3 Hs _ IH]; intros Hi; [lia|].
  destruct Hs as [a1 id a2 Hs]. destruct (settle_inv q id a1 a2 Hi Hs) as [Hi2 Hw].
  specialize (IH Hi2). lia.
Qed.

Lemma settle_is_Some id a : is_Some (ec_tasks (ac_ctx a) !! id) -> is_Some (settle schema resolve id a).
Proof.
  intros [tk Htk]. unfold settle. rewrite Htk. cbn [mbind option_bind].
  repeat case_match. by eexists.
Qed.

Lemma reachable_ainv q a : rtc astep (astart schema resolve q) a -> ainv q a.
Proof. intros Hr. eapply rtc_ainv; [apply astart_inv | exact Hr]. Qed.

(** The response, whenever the event loop builds it, has the data of the
    sequential model. *)
Lemma async_response_data q a r :
  rtc astep (astart schema resolve q) a -> ac_response a = Some r ->
  resp_data r = resp_data (execute_query schema resolve q).
Proof. intros Hr Ha. destruct (reachable_ainv q a Hr) as (_ & _ & _ & Hi). by rewrite Ha in Hi. Qed.

(** No run settles more promises than the root fields can call
    resolvers. *)
Lemma async_steps_bound q n a : nsteps astep n (astart schema resolve q) a -> n <= root_calls q.
Proof.
  intros Hr. destruct (astart_inv q) as [Hi Hw].
  pose proof (nsteps_work q n _ a Hi Hr). lia.
Qed.

(** A state from which no promise can settle has none pending and has
    built its response. *)
Lemma async_final q a :
  rtc astep (astart schema resolve q) a -> (forall a', ~ astep a a') ->
  ec_tasks (ac_ctx a) = ∅ /\ is_Some (ac_response a).
Proof.
  intros Hr Hstuck. destruct (reachable_ainv q a Hr) as (Hwf & Hh & Hn & Hresp).
  assert (Hempty : ec_tasks (ac_ctx a) = ∅).
  { apply map_empty. intros id. destruct (ec_tasks (ac_ctx a) !! id) eqn:E; [|done]. exfalso.
    destruct (settle_is_Some id a) as [a' Ha']; [by eexists|]. apply (Hstuck a'). by econstructor. }
  split; [done|]. destruct (ac_response a) eqn:E; [by eexists|]. destruct Hresp as [Hp _].
  destruct (pending_normal_holes _ Hn Hp) as [j Hj]. destruct (Hh j Hj) as [tk Htk].
  by rewrite Hempty, lookup_empty in Htk.
Qed.

Lemma done_responded q a : ainv q a -> ec_tasks (ac_ctx a) = ∅ -> is_Some (ac_response a).
Proof.
  intros (Hwf & Hh & Hn & Hresp) Hempty. destruct (ac_response a) eqn:E; [by eexists|].
  destruct Hresp as [Hp _]. destruct (pending_normal_holes _ Hn Hp) as [j Hj].
  destruct (Hh j Hj) as [tk Htk]. by rewrite Hempty, lookup_empty in Htk.
Qed.

(** From every state some run settles every pending promise. *)
Lemma async_can_finish q a :
  ainv q a -> exists a', rtc astep a a' /\ ec_tasks (ac_ctx a') = ∅ /\ is_Some (ac_response a').
Proof.
  remember (work (ac_ctx a)) as w eqn:Hw. revert a Hw.
  induction (lt_wf w) as [w _ IH]. intros a -> Hi.
  destruct (decide (ec_tasks (ac_ctx a) = ∅)) as [He|Hne].
  - exists a. split_and!; [done | done | by apply (done_responded q)].
  - apply map_choose in Hne as [id [tk Htk]].
    destruct (settle_is_Some id a) as [a2 Hs]; [by eexists|].
    destruct (settle_inv q id a a2 Hi Hs) as [Hi2 Hw].
    destruct (IH _ Hw a2 eq_refl Hi2) as (a' & Hr & He & Hresp).
    exists a'. split_and!; [|done|done]. eapply rtc_l; [|exact Hr]. by econstructor.
Qed.

End Run.

(** A run under a schedule is a sequence of turns of the event loop. *)
(** A state with one pending promise has one next turn; a state with
    none has no next turn. *)
Lemma astep_dom_single schema resolve a k a' :
  dom (ec_tasks (ac_ctx a)) = {[k]} -> astep schema resolve a a' -> settle schema resolve k a = Some a'.
Proof.
  intros Hd Hst. inversion Hst as [? id ? Hs]; subst. enough (id = k) as -> by done.
  unfold settle in Hs. destruct (ec_tasks (ac_ctx a) !! id) eqn:E; [|done].
  assert (Hin : id ∈ dom (ec_tasks (ac_ctx a))) by (apply elem_of_dom; by eexists).
  rewrite Hd in Hin. set_solver.
Qed.

Lemma astep_dom_empty schema resolve a a' :
  dom (ec_tasks (ac_ctx a)) = ∅ -> ~ astep schema resolve a a'.
Proof.
  intros Hd Hst. inversion Hst as [? id ? Hs]; subst.
  unfold settle in Hs. destruct (ec_tasks (ac_ctx a) !! id) eqn:E; [|done].
  assert (Hin : id ∈ dom (ec_tasks (ac_ctx a))) by (apply elem_of_dom; by eexists).
  rewrite Hd in Hin. set_solver.
Qed.

Lemma run_nsteps schema resolve sched a a' :
  run schema resolve sched a = Some a' -> nsteps (astep schema resolve) (length sched) a a'.
Proof.
  revert a. induction sched as [|id sched IH]; intros a Hr; simpl in Hr; [simplify_eq; constructor|].
  destruct (settle schema resolve id a) as [a1|] eqn:Hs; [|done]. simpl in Hr.
  eapply nsteps_l; [by econstructor|]. by apply IH.
Qed.

Lemma run_rtc schema resolve sched a a' :
  run schema resolve sched a = Some a' -> rtc (astep schema resolve) a a'.
Proof. intros Hr. eapply rtc_nsteps_2, run_nsteps, Hr. Qed.
