(* ===== verification/Api.v ===== *)
(** * Api: the server of lines 94-97 and the responses it gives

    [server] is [new ApolloServer({ typeDefs, resolvers })] serving one
    query: execution of [Execute] with the schema [typeDefs] of [Schema]
    and the resolver map of [Resolvers] over the store state, followed by
    Apollo's formatting of the errors, which gives every error without an
    [extensions.code] the code [INTERNAL_SERVER_ERROR].  The theorems
    state the responses to the queries of the spec's testable properties
    for every store satisfying the laws of [Firestore]. *)
From Stdlib Require Import Ascii.
From S2P Require Import Prelude Js Firestore Schema Resolvers Execute.
From stdpp Require Import options.

Local Open Scope string_scope.
Local Open Scope list_scope.

(** Apollo's error formatting: the default code. *)
Definition format_error (e : gql_error) : gql_error :=
  GqlError (ge_message e) (ge_path e)
           (Some (default "INTERNAL_SERVER_ERROR" (ge_code e))).

(** The type and field names the resolver map binds. *)
Definition resolver_names {S} `{!DocStore S} (s : S) : list (string * list string) :=
  (fun '(t, fs) => (t, fs.*1)) <$> resolvers s.

Section Server.
Context {S : Type} `{!DocStore S}.

(** [new ApolloServer({ typeDefs, resolvers })], answering a query. *)
Definition server (s : S) (q : list selection) : response :=
  let r := execute_query typeDefs (lookup_resolver s) q in
  Response (resp_data r) (format_error <$> resp_errors r).

End Server.

(** Every type and field the resolver map binds is declared in
    [typeDefs], so binding the map to the schema succeeds. *)
Theorem resolvers_in_typeDefs {S} `{!DocStore S} (s : S) :
  resolvers_in_schema typeDefs (resolver_names s) = true.
Proof. reflexivity. Qed.

Section Responses.
Context {S : Type} `{!DocStore S, !DocStoreLaws S}.

(** The resolvers are rewritten with their lemmas, never unfolded. *)
Local Opaque user_items item_user query_items query_user args_object.
Local Arguments resolve_field _ _ _ _ _ /.

Lemma find_type_Query : find_type typeDefs "Query" = Some Query_type.
Proof. reflexivity. Qed.

(** The response to a query: its root fields executed on [undefined]. *)
Lemma server_eq (s : S) (q : list selection) :
  server s q =
  match execute_fields_with (execute_field typeDefs (lookup_resolver s)) Query_type JUndefined q [] with
  | (es, inl e) => Response RNull (format_error <$> es ++ [e])
  | (es, inr fs) => Response (RObject fs) (format_error <$> es)
  end.
Proof.
  unfold server, execute_query, execute_fields. rewrite find_type_Query.
  by destruct (execute_fields_with _ _ _ _ _) as [es [e|fs]].
Qed.

(** C9: [user(id) { id name birthday }] on a stored user returns the
    three stored strings unchanged, with no error. *)
Theorem user_query_roundtrip (s : S) (k i n b : string) (u : doc) :
  k <> "" -> str_has_char "/"%char k = false -> store_fault s ["users"; k] = None ->
  store_view s !! ["users"; k] = Some u ->
  u !! "id" = Some (FStr i) -> u !! "name" = Some (FStr n) -> u !! "birthday" = Some (FStr b) ->
  server s [Sel "user" [("id", FStr k)] [Sel "id" [] []; Sel "name" [] []; Sel "birthday" [] []]] =
  Response (RObject [("user", RObject [("id", RString i); ("name", RString n); ("birthday", RString b)])]) [].
Proof.
  intros Hk Hc Hf Hu Hi Hn Hb. unfold server, execute_query. simpl.
  change (args_object [("id", FStr k)]) with (id_args k).
  rewrite query_user_ok, Hu by done. simpl.
  by rewrite Hi, Hn, Hb.
Qed.

(** C10: for a missing user the response has [user: null] and the
    error "User not found." with the code [GRAPHQL_VALIDATION_FAILED]:
    the [ValidationError] the resolver returns as its value is thrown by
    execution, not serialized as data. *)
Theorem missing_user_null_with_error (s : S) (k : string) (sub : list selection) :
  k <> "" -> str_has_char "/"%char k = false -> store_fault s ["users"; k] = None ->
  store_view s !! ["users"; k] = None ->
  server s [Sel "user" [("id", FStr k)] sub] =
  Response (RObject [("user", RNull)])
           [GqlError "User not found." [PKey "user"] (Some "GRAPHQL_VALIDATION_FAILED")].
Proof.
  intros Hk Hc Hf Hn. unfold server, execute_query. simpl.
  change (args_object [("id", FStr k)]) with (id_args k).
  by rewrite query_user_ok, Hn by done.
Qed.

(** C11: an item whose owner does not exist cannot complete: [Item.user]
    is non-null, so the "Cannot return null" error propagates out of the
    item, for any sub-selection of [user]. *)
Theorem dangling_owner_propagates (s : S) (it : doc) (k : string)
    (sub : list selection) (p : list path_key) :
  it !! "userId" = Some (FStr k) -> k <> "" -> str_has_char "/"%char k = false ->
  store_fault s ["users"; k] = None -> store_view s !! ["users"; k] = None ->
  execute_field typeDefs (lookup_resolver s) Item_type (JObject it) (Sel "user" [] sub) p =
    ([], inl (non_null_error "Item" "user" (p ++ [PKey "user"]))).
Proof.
  intros Hk Hne Hc Hf Hn. simpl.
  by rewrite (item_user_ok s it k), Hn by done.
Qed.

(** C12: the field [Item.userId] is declared [User!] but holds the
    owner's id string; completing the string as a [User] reads [id] from
    a string, gets [undefined], and the error propagates out of the
    item: a selection of [userId] that starts with [id] never succeeds. *)
Theorem userId_field_never_resolves (s : S) (it : doc) (k : string)
    (rest : list selection) (p : list path_key) :
  it !! "userId" = Some (FStr k) ->
  exists es,
    execute_field typeDefs (lookup_resolver s) Item_type (JObject it)
      (Sel "userId" [] (Sel "id" [] [] :: rest)) p =
    (es, inl (non_null_error "User" "id" (p ++ [PKey "userId"; PKey "id"]))).
Proof.
  intros Hk. simpl. rewrite Hk. simpl.
  destruct (execute_fields_with _ _ _ _ _) as [es r]. simpl.
  exists es. by rewrite <- app_assoc.
Qed.

(** A failed read in [Query.items] is reported like any field error:
    [items: null] and one error with the store's message and the code
    [INTERNAL_SERVER_ERROR] (no unhandled rejection). *)
Theorem items_fault_reported (s : S) (e : js_error) (sub : list selection) :
  store_fault s ["items"] = Some e ->
  server s [Sel "items" [] sub] =
  Response (RObject [("items", RNull)])
           [GqlError (err_message e) [PKey "items"]
                     (Some (default "INTERNAL_SERVER_ERROR" (err_code e)))].
Proof.
  intros Hf. unfold server, execute_query. simpl.
  by rewrite (query_items_fault s e Hf).
Qed.

(** A failed read in [Query.user] is reported as [user: null] with the
    message [String(e)] of the [ApolloError] wrapper (the store's message
    prefixed by the error's name) and [INTERNAL_SERVER_ERROR]. *)
Theorem user_fault_reported (s : S) (k : string) (e : js_error) (sub : list selection) :
  k <> "" -> str_has_char "/"%char k = false -> store_fault s ["users"; k] = Some e ->
  server s [Sel "user" [("id", FStr k)] sub] =
  Response (RObject [("user", RNull)])
           [GqlError (error_to_string e) [PKey "user"] (Some "INTERNAL_SERVER_ERROR")].
Proof.
  intros Hk Hc Hf. unfold server, execute_query. simpl.
  change (args_object [("id", FStr k)]) with (id_args k).
  by rewrite (query_user_fault s k e) by done.
Qed.

(** C13: a failed read of the store is reported like any field error,
    with the field [null] and the code [INTERNAL_SERVER_ERROR], not as an
    unhandled rejection; the message differs between the resolvers:
    [Query.items], which has no [try], reports the store's own message,
    and [Query.user] the message [String(e)] of its [ApolloError]
    wrapper. *)
Theorem store_faults_reported (s : S) (e : js_error) :
  (forall sub, store_fault s ["items"] = Some e ->
     server s [Sel "items" [] sub] =
     Response (RObject [("items", RNull)])
              [GqlError (err_message e) [PKey "items"] (Some (default "INTERNAL_SERVER_ERROR" (err_code e)))]) /\
  (forall k sub, k <> "" -> str_has_char "/"%char k = false -> store_fault s ["users"; k] = Some e ->
     server s [Sel "user" [("id", FStr k)] sub] =
     Response (RObject [("user", RNull)])
              [GqlError (error_to_string e) [PKey "user"] (Some "INTERNAL_SERVER_ERROR")]).
Proof. split; intros *; [apply items_fault_reported|apply user_fault_reported]. Qed.

(** [Item.comments] has no resolver: the default resolver reads the
    item's own [comments] property, so for an item document without one
    the field is [null] with no error. *)
Theorem comments_default_null (s : S) (it : doc) (sub : list selection) (p : list path_key) :
  it !! "comments" = None ->
  execute_field typeDefs (lookup_resolver s) Item_type (JObject it) (Sel "comments" [] sub) p =
    ([], inr RNull).
Proof. intros Hc. simpl. by rewrite Hc. Qed.

(** Every response the server gives to a query conforms to
    [typeDefs]: the data has the requested root fields in order, no
    non-null field is [null], every leaf is a string and every object
    answers its sub-selection. *)
Theorem server_response_conforms (s : S) (q : list selection)
    (fs : list (string * rvalue)) (es : list gql_error) :
  server s q = Response (RObject fs) es ->
  fields_conform_with (sel_conforms typeDefs) Query_type q fs.
Proof.
  rewrite server_eq.
  destruct (execute_fields_with _ _ _ _ _) as [es' [e|fs']] eqn:He; intros; simplify_eq.
  by eapply execute_fields_conform_all.
Qed.

(** C14: [items { ... }] on a healthy store answers a list with one
    entry per document of the collection, whatever fails inside the
    entries: [Item] is nullable, so a failing item is [null] and the
    other items are kept. *)
Theorem items_one_entry_per_document (s : S) (sub : list selection) :
  store_fault s ["items"] = None ->
  exists qs vs es,
    query_listing (store_view s) (Query ["items"] []) qs /\
    server s [Sel "items" [] sub] = Response (RObject [("items", RList vs)]) es /\
    length vs = length qs.
Proof.
  intros Hf. destruct (query_items_ok s Hf) as (qs & Hq & Hl).
  rewrite server_eq, execute_fields_with_cons, execute_fields_with_nil.
  rewrite (execute_field_fulfilled _ _ Query_type JUndefined "items" [] sub []
             (FieldDef "items" [] (TList (TNamed "Item"))) (docs_data qs)); [|done|exact Hq].
  destruct (complete_nullable_list typeDefs (execute_field typeDefs (lookup_resolver s)) "Query" "items" sub
              (TNamed "Item") ((fun '(_, d) => JObject d) <$> qs) [PKey "items"] eq_refl)
    as (es & vs & Hc & Hlen).
  cbn [ot_name fd_type app Query_type]. unfold docs_data. rewrite Hc. simpl.
  exists qs, vs, (format_error <$> es). rewrite app_nil_r, length_fmap in *. by split_and!.
Qed.

(** The title an item document stores. *)
Definition title_of (d : doc) : string :=
  match d !! "title" with Some (FStr t) => t | _ => "" end.

Definition title_answer (d : doc) : rvalue := RObject [("title", RString (title_of d))].

Lemma items_title_answers (s : S) p (qs : list (string * doc)) :
  Forall (fun '(_, d) => d !! "title" = Some (FStr (title_of d))) qs ->
  forall n, complete_items typeDefs (execute_field typeDefs (lookup_resolver s)) "User" "items"
    [Sel "title" [] []] (TNamed "Item") p ((fun '(_, d) => JObject d) <$> qs) n =
    ([], inr (title_answer <$> (snd <$> qs))).
Proof.
  induction 1 as [|[i d] qs Hd _ IH]; intros n; [done|].
  rewrite fmap_cons, complete_items_cons. simpl in Hd. simpl. rewrite Hd. simpl.
  by rewrite IH.
Qed.

(** C25: [user(id: k) { items { title } }] on a store without faults,
    for a user stored at [users/k] whose [id] field holds [x] and items
    storing string titles, answers the titles of exactly the items whose
    [userId] holds [x], once each, with no error. *)
Theorem user_items_titles (s : S) (k : string) (u : doc) (x : fvalue) :
  k <> "" -> str_has_char "/"%char k = false -> (forall p, store_fault s p = None) ->
  store_view s !! ["users"; k] = Some u -> u !! "id" = Some x ->
  (forall i d, store_view s !! ["items"; i] = Some d -> d !! "title" = Some (FStr (title_of d))) ->
  exists qs,
    (forall i d, (i, d) ∈ qs <-> store_view s !! ["items"; i] = Some d /\ d !! "userId" = Some x) /\
    NoDup (fst <$> qs) /\
    server s [Sel "user" [("id", FStr k)] [Sel "items" [] [Sel "title" [] []]]] =
    Response (RObject [("user", RObject [("items", RList (title_answer <$> (snd <$> qs)))])]) [].
Proof.
  intros Hk Hc Hh Hu Hx Ht.
  destruct (run_query_ok s (Query ["items"] [("userId", of_fvalue x)]) (Hh _)) as (qs & Hq & Hl).
  pose proof (listing_eq_filter _ _ _ _ _ Hl) as Hmem.
  exists qs. split_and!; [done|apply Hl|].
  assert (Hfields : forall p,
    execute_fields_with (execute_field typeDefs (lookup_resolver s)) User_type (JObject u)
      [Sel "items" [] [Sel "title" [] []]] p = ([], inr [("items", RList (title_answer <$> (snd <$> qs)))])).
  { intros p. rewrite execute_fields_with_cons, execute_fields_with_nil.
    rewrite (execute_field_fulfilled _ _ User_type (JObject u) "items" [] _ p
               (FieldDef "items" [] (TList (TNamed "Item"))) (docs_data qs)); [| done |].
    - cbn [ot_name fd_type]. unfold docs_data. rewrite complete_list_array_eq, items_title_answers; [done|].
      apply Forall_forall. intros [i d] Hin. apply Hmem in Hin as [Hv _]. by apply (Ht i).
    - simpl. by rewrite (user_items_eq s u x Hx), Hq. }
  rewrite server_eq, execute_fields_with_cons, execute_fields_with_nil.
  rewrite (execute_field_fulfilled _ _ Query_type JUndefined "user" [("id", FStr k)] _ []
             (FieldDef "user" [("id", TNonNull (TNamed "String"))] (TNamed "User")) (JObject u)); [| done |].
  - cbn [ot_name fd_type Query_type].
    rewrite (complete_named_object _ _ _ _ _ _ User_type) by done. by rewrite Hfields.
  - simpl. change (args_object [("id", FStr k)]) with (id_args k).
    by rewrite query_user_ok, Hu by done.
Qed.

End Responses.
