(* ===== verification/Concurrency.v ===== *)
(** * Concurrency: the server's requests on the event loop

    The resolvers of [Resolvers] are [async]: each call is a promise that
    settles when its read of the store comes back, in an order the
    program does not control.  This file runs the requests of the server
    built at lines 94-97 on the event loop of [Async] and states what the
    interleaving of reads changes and what it does not:
    - the data of every response is that of [server], whatever order
      the reads come back in, and every request ends: at most
      [root_calls] reads, and from every state some order of the
      remaining reads builds the response;
    - [items { user { id } }] reads the store once per item, plus the
      listing (spec, section 5: no batching);
    - on every store, a field that throws synchronously ([userId], of
      type [User!] over a string) leaves the promise of an earlier
      sibling ([user]) that nobody awaits: when that promise rejects,
      because the item's owner is missing, the rejection is unhandled.
    - the errors of [items { user { id } }] are the rejections of the
      owner reads in the order they settle, and every order occurs.
    The last two points are proved by invariants of the states a request
    reaches after its listing settles ([keys_inv], [owners_inv]): the
    pending promises are the owner reads, and the tree of the response
    and the errors are functions of the reads settled so far. *)
From S2P Require Import Prelude Js Firestore Schema Resolvers Execute Async AsyncSim Api.
From stdpp Require Import gmap.
From stdpp Require Import options.

Local Open Scope string_scope.
Local Open Scope list_scope.

(** ** The requests and stores of the scenarios *)

(** [user { id }] under an item: the owner of the item. *)
Definition owner_field : selection := Sel "user" [] [Sel "id" [] []].

(** [{ items { user { id } } }]. *)
Definition owners_query : list selection := [Sel "items" [] [owner_field]].

(** [{ items { user { id } userId { id } } }]: [userId] has no resolver
    and its value, a string, has no [id]. *)
Definition owners_and_keys_query : list selection :=
  [Sel "items" [] [owner_field; Sel "userId" [] [Sel "id" [] []]]].

(** An item whose owner is not a document of [users]. *)
Definition loose_item (id owner : string) : doc := {["id" := FStr id; "userId" := FStr owner]}.

Definition one_loose : mem_store := MemStore {[["items"; "i1"] := loose_item "i1" "g1"]} ∅.

Section Server.
Context {S : Type} `{!DocStore S}.

(** [new ApolloServer({ typeDefs, resolvers })] answering the request
    [q]: the root fields start at once, the resolver promises settle
    later. *)
Definition aserver (s : S) (q : list selection) : aconf := astart typeDefs (lookup_resolver s) q.

(** The promise of [Query.items] and the promise of [Item.user] under
    the item [d] at [p]. *)
Definition items_task (s : S) : task :=
  Task "Query" "items" [owner_field] (TList (TNamed "Item")) [PKey "items"] (query_items s).

Definition owner_read (s : S) (d : doc) (p : list path_key) : task :=
  Task "Item" "user" [Sel "id" [] []] (TNonNull (TNamed "User")) (p ++ [PKey "user"]) (item_user s (JObject d)).

(** A pending promise of [Item.user] answering [{ id }]. *)
Definition owner_task (tk : task) : Prop :=
  tk_parent tk = "Item" /\ tk_field tk = "user" /\ tk_sub tk = [Sel "id" [] []] /\
  tk_type tk = TNonNull (TNamed "User").

Definition owner_tasks (c : ectx) : Prop := map_Forall (fun _ => owner_task) (ec_tasks c).

(** The count of reads after [n] turns of the event loop on
    [owners_query]: every promise created is settled or pending, and
    after the first turn the promises are those of the items. *)
Definition n1_inv (s : S) (qs : list (string * doc)) (n : nat) (a : aconf) : Prop :=
  n + size (ec_tasks (ac_ctx a)) = ec_next (ac_ctx a) /\
  ((n = 0 /\ a = aserver s owners_query) \/ (ec_next (ac_ctx a) = 1 + length qs /\ owner_tasks (ac_ctx a))).

Local Abbreviation aexec s := (aexecute_field typeDefs (lookup_resolver s)).

(** ** Reads of [owners_query] *)

Lemma aserver_owners s :
  aserver s owners_query =
  AConf (ECtx 1 {[0 := items_task s]} [] []) (object_of [("items", PCatch (TList (TNamed "Item")) (PWait 0))]) None [].
Proof. reflexivity. Qed.

(** Completing an item starts the read of its owner. *)
Lemma complete_item_eq s d p c :
  acomplete_with typeDefs (aexec s) "Query" "items" [owner_field] (TNamed "Item") (JObject d) p c =
  ((spawn (owner_read s d p) c).2,
   inr (object_of [("user", PCatch (TNonNull (TNamed "User")) (PWait (ec_next c)))])).
Proof. reflexivity. Qed.

Lemma spawn_owner_tasks tk c : owner_task tk -> owner_tasks c -> owner_tasks (spawn tk c).2.
Proof. intros Htk Hc. by apply map_Forall_insert_2. Qed.

Lemma items_loop s p qs : forall i c, ctx_wf c -> owner_tasks c ->
  let r := acomplete_items typeDefs (aexec s) "Query" "items" [owner_field] (TNamed "Item") p
             ((fun '((_, d) : string * doc) => JObject d) <$> qs) i c in
  ctx_wf r.1 /\ owner_tasks r.1 /\ ec_next r.1 = length qs + ec_next c /\
  size (ec_tasks r.1) = length qs + size (ec_tasks c) /\ is_Some (maybe inr r.2).
Proof.
  induction qs as [|[k d] qs IH]; intros i c Hwf Ho; [done|].
  cbn [fmap list_fmap acomplete_items]. fold (acomplete_items typeDefs (aexec s) "Query" "items" [owner_field] (TNamed "Item") p).
  rewrite complete_item_eq. cbn [handled].
  set (c1 := (spawn (owner_read s d (p ++ [PIndex i])) c).2).
  assert (Hwf1 : ctx_wf c1) by by apply spawn_wf.
  assert (Ho1 : owner_tasks c1) by by apply spawn_owner_tasks.
  destruct (IH (Datatypes.S i) c1 Hwf1 Ho1) as (Hwf2 & Ho2 & Hn2 & Hs2 & Hr2).
  pose proof (spawn_size (owner_read s d (p ++ [PIndex i])) c Hwf) as Hsz. fold c1 in Hsz.
  assert (Hnx : ec_next c1 = Datatypes.S (ec_next c)) by done.
  destruct (acomplete_items _ _ _ _ _ _ _ _ _ _) as [c2 [e|ys]]; cbn [fst snd maybe] in *; [by destruct Hr2|].
  cbn [length]. split_and!; [done|done|lia|lia|done].
Qed.

(** Completing an owner with [{ id }] reads nothing. *)
Lemma owner_completion_same (s : S) v p c :
  same_tasks c (acomplete_with typeDefs (aexec s) "Item" "user"
                  [Sel "id" [] []] (TNonNull (TNamed "User")) v p c).1.
Proof.
  destruct (as_error v) eqn:Hv.
  - cbn [acomplete_with]. rewrite Hv. done.
  - rewrite acomplete_non_null_eq, Hv. simpl. rewrite Hv.
    destruct (is_nullish v); [done|]. simpl.
    repeat case_match; simplify_eq/=; unfold handle_sync in *; simpl in *; simplify_eq/=; try done;
      repeat (etrans; [|by eauto with async]); try done.
Qed.

Lemma owner_settle_same s tk c : owner_task tk -> same_tasks c (settle_task typeDefs (lookup_resolver s) tk c).1.
Proof.
  destruct tk as [par f sub t p o]. intros (Hp & Hf & Hs & Ht); cbn [tk_parent tk_field tk_sub tk_type] in *; subst.
  unfold settle_task. destruct o as [v|e]; cbn [tk_out tk_parent tk_field tk_sub tk_type tk_path]; [|done].
  pose proof (owner_completion_same s v p c) as Hc.
  by destruct (acomplete_with _ _ _ _ _ _ _ _ _) as [c' [e|x]].
Qed.

Lemma items_settle s qs c :
  query_items s = Fulfilled (docs_data qs) -> ctx_wf c -> owner_tasks c ->
  let c' := (settle_task typeDefs (lookup_resolver s) (items_task s) c).1 in
  owner_tasks c' /\ ec_next c' = length qs + ec_next c /\
  size (ec_tasks c') = length qs + size (ec_tasks c).
Proof.
  intros Hq Hwf Ho. unfold settle_task. cbn [tk_out items_task]. rewrite Hq. unfold docs_data.
  cbn [items_task tk_parent tk_field tk_sub tk_type tk_path]. rewrite acomplete_list_array_eq.
  destruct (items_loop s [PKey "items"] qs 0 c Hwf Ho) as (_ & Ho' & Hn' & Hs' & Hr').
  destruct (acomplete_items _ _ _ _ _ _ _ _ _ _) as [c2 [e|ys]]; by cbn [fst snd maybe] in *.
Qed.

Lemma n1_inv_step s qs n a a' :
  query_items s = Fulfilled (docs_data qs) -> n1_inv s qs n a -> astep typeDefs (lookup_resolver s) a a' ->
  n1_inv s qs (1 + n) a'.
Proof.
  intros Hq [Hsz Hcase] Hst. inversion Hst as [? id ? Hs]; subst; clear Hst. destruct (settle_tasks _ _ _ _ _ Hs) as (tk & Htk & [Hn' Ht']).
  destruct Hcase as [[-> ->]|[Hnext Ho]].
  - unfold n1_inv. rewrite aserver_owners in *. cbn [ac_ctx ec_tasks ec_next ec_errors] in *.
    apply lookup_singleton_Some in Htk as [<- <-].
    rewrite delete_singleton_eq in Hn', Ht'.
    destruct (items_settle s qs (ECtx 1 ∅ [] []) Hq) as (Ho' & Hn'' & Hs''); [intros j [? Hj]; simpl in Hj; by rewrite lookup_empty in Hj | apply map_Forall_empty|].
    unfold owner_tasks. rewrite Hn', Ht'. cbn [ec_next] in Hn''. cbn [ec_tasks] in Hs''. rewrite map_size_empty in Hs''.
    split; [lia|right; split; [lia|done]].
  - pose proof (owner_settle_same s tk (ECtx (ec_next (ac_ctx a)) (delete id (ec_tasks (ac_ctx a))) (ec_errors (ac_ctx a)) []) (Ho _ _ Htk)) as [N T].
    rewrite N in Hn'. rewrite T in Ht'. cbn [ec_next ec_tasks] in Hn', Ht'.
    assert (Hid : is_Some (ec_tasks (ac_ctx a) !! id)) by done.
    pose proof (map_size_delete_Some _ _ Hid) as Hd. pose proof (map_size_ne_0_lookup_2 _ _ Hid).
    unfold n1_inv, owner_tasks. rewrite Hn', Ht', Hd.
    split; [lia|right; split; [done|by apply map_Forall_delete]].
Qed.

Lemma n1_inv_nsteps s qs n a :
  query_items s = Fulfilled (docs_data qs) ->
  nsteps (astep typeDefs (lookup_resolver s)) n (aserver s owners_query) a -> n1_inv s qs n a.
Proof.
  intros Hq. revert a. induction n as [|n IH]; intros a Hr.
  - inversion Hr; subst. split; [by rewrite aserver_owners|by left].
  - apply nsteps_inv_r in Hr as (a0 & Hr & Hst). by eapply n1_inv_step, Hst; [|apply IH].
Qed.

(** ** The event loop against the sequential model *)

(** Whatever order the reads of the store come back in, the
    response the event loop builds has the data of [server]: the
    interleaving of resolver promises changes at most the errors. *)
Theorem event_loop_data (s : S) (q : list selection) a r :
  rtc (astep typeDefs (lookup_resolver s)) (aserver s q) a -> ac_response a = Some r ->
  resp_data r = resp_data (server s q).
Proof. apply async_response_data. Qed.

(** Every request ends: no run settles more resolver promises than
    the resolver calls of its root fields, and from every state the
    event loop reaches, settling the remaining promises in some order
    builds the response with no promise left pending. *)
Theorem event_loop_terminates (s : S) (q : list selection) :
  (forall n a, nsteps (astep typeDefs (lookup_resolver s)) n (aserver s q) a ->
               n <= root_calls typeDefs (lookup_resolver s) q) /\
  (forall a, rtc (astep typeDefs (lookup_resolver s)) (aserver s q) a ->
     exists a', rtc (astep typeDefs (lookup_resolver s)) a a' /\
                ec_tasks (ac_ctx a') = ∅ /\ is_Some (ac_response a')).
Proof.
  split; [apply async_steps_bound|].
  intros a Hr. apply async_can_finish with (q := q). by apply reachable_ainv.
Qed.

(** C26: [items { user { id } }] reads the store once for the listing
    and once more for the owner of each item, the same owner as many
    times as it owns items: every run of the event loop that settles all
    its promises has settled exactly [1 + length qs] of them, and created
    no other. *)
Theorem owner_reads_one_per_item (s : S) qs n a :
  query_items s = Fulfilled (docs_data qs) ->
  nsteps (astep typeDefs (lookup_resolver s)) n (aserver s owners_query) a ->
  ec_tasks (ac_ctx a) = ∅ ->
  n = 1 + length qs /\ ec_next (ac_ctx a) = 1 + length qs.
Proof.
  intros Hq Hr He. destruct (n1_inv_nsteps s qs n a Hq Hr) as [Hsz [[-> ->]|[Hn _]]].
  - by rewrite aserver_owners in He.
  - rewrite He, map_size_empty in Hsz. lia.
Qed.

(** ** Items asked for [user] and [userId] *)

(** The error [userId { id }] raises for the item [d] at index [i]: a
    missing or null [userId] fails [User!] at once, any other stored
    value is not an object and fails [id: ID!]. *)
Definition key_error (d : doc) (i : nat) : gql_error :=
  let p := [PKey "items"; PIndex i; PKey "userId"] in
  match d !! "userId" with
  | None | Some FNull => non_null_error "Item" "userId" p
  | Some _ => non_null_error "User" "id" (p ++ [PKey "id"])
  end.

(** The promise of [Item.user] abandoned when [userId] throws. *)
Definition owner_orphan (j : nat) : bool * ptree := (false, PCatch (TNonNull (TNamed "User")) (PWait j)).


(** The sub-selection of [items] in [owners_and_keys_query]. *)
Definition keys_sels : list selection := [owner_field; Sel "userId" [] [Sel "id" [] []]].

(** Completing an item starts the read of its owner, then [userId]
    throws: the promise of [user] is abandoned. *)
Lemma complete_keyed_item_eq (s : S) d i c :
  acomplete_with typeDefs (aexec s) "Query" "items" keys_sels (TNamed "Item") (JObject d)
    ([PKey "items"] ++ [PIndex i]) c =
  (orphan false (PCatch (TNonNull (TNamed "User")) (PWait (ec_next c)))
     (spawn (owner_read s d [PKey "items"; PIndex i]) c).2, inl (key_error d i)).
Proof. unfold key_error. destruct (d !! "userId") as [[]|] eqn:E; simpl; rewrite ?E; reflexivity. Qed.

(** The shared state after the items of [qs], from index [i]: for each,
    an owner read, its abandoned promise and the error of [userId]. *)
Fixpoint keys_ctx (s : S) (qs : list (string * doc)) (i : nat) (c : ectx) : ectx :=
  match qs with
  | [] => c
  | (_, d) :: qs' =>
      keys_ctx s qs' (Datatypes.S i)
        (push_error (key_error d i)
           (orphan false (PCatch (TNonNull (TNamed "User")) (PWait (ec_next c)))
              (spawn (owner_read s d [PKey "items"; PIndex i]) c).2))
  end.

Lemma keys_items_eq (s : S) qs : forall i c,
  acomplete_items typeDefs (aexec s) "Query" "items" keys_sels (TNamed "Item") [PKey "items"]
    ((fun '((_, d) : string * doc) => JObject d) <$> qs) i c =
  (keys_ctx s qs i c, inr (replicate (length qs) (PVal RNull))).
Proof.
  induction qs as [|[k d] qs IH]; intros i c; [done|].
  cbn [fmap list_fmap acomplete_items].
  fold (acomplete_items typeDefs (aexec s) "Query" "items" keys_sels (TNamed "Item") [PKey "items"]).
  rewrite complete_keyed_item_eq. cbn [handled handle_sync is_non_null]. by rewrite IH.
Qed.

(** The promise of [Query.items] for [owners_and_keys_query]. *)
Definition keys_items_task (s : S) : task :=
  Task "Query" "items" keys_sels (TList (TNamed "Item")) [PKey "items"] (query_items s).

Lemma aserver_keys (s : S) :
  aserver s owners_and_keys_query =
  AConf (ECtx 1 {[0 := keys_items_task s]} [] []) (PObj [("items", PCatch (TList (TNamed "Item")) (PWait 0))]) None [].
Proof. reflexivity. Qed.

(** [{ items: [null, ...] }]: every item is nulled by its [userId]. *)
Definition keys_data (n : nat) : rvalue := RObject [("items", RList (replicate n RNull))].

Lemma array_of_nulls n : array_of (replicate n (PVal RNull)) = PVal (RList (replicate n RNull)).
Proof. unfold array_of. induction n as [|n IH]; [done|]. simpl. unfold array_of in IH. by destruct (mapM _ _); simplify_eq. Qed.

(** The first turn settles the listing: every item spawns its owner
    read, throws in [userId] and becomes [null], and the response is
    built. *)
Lemma keys_first_turn (s : S) qs :
  query_items s = Fulfilled (docs_data qs) ->
  settle typeDefs (lookup_resolver s) 0 (aserver s owners_and_keys_query) =
  Some (let c := keys_ctx s qs 0 (ECtx 1 ∅ [] []) in
        AConf (ECtx (ec_next c) (ec_tasks c) (ec_errors c) ([] ++ ec_orphans c))
              (PVal (keys_data (length qs))) (Some (Response (keys_data (length qs)) (ec_errors c))) []).
Proof.
  intros Hq. rewrite aserver_keys. unfold settle. cbn [ac_ctx ec_tasks ec_next ec_errors ec_orphans].
  rewrite lookup_singleton_eq, delete_singleton_eq. cbn [mbind option_bind].
  unfold settle_task. cbn [keys_items_task tk_out tk_parent tk_field tk_sub tk_type tk_path]. rewrite Hq.
  unfold docs_data. rewrite acomplete_list_array_eq, keys_items_eq, array_of_nulls.
  reflexivity.
Qed.

(** A promise that has settled, and the rejection it carries. *)
Definition settled_tree (y : ptree) : Prop := (exists rv, y = PVal rv) \/ (exists e, y = PErr e).

Definition rej (y : ptree) : list gql_error := match y with PErr e => [e] | _ => [] end.

(** What [id] of a [User] completes to: the field has no resolver and
    reads the property of the value, whatever the shared state. *)
Definition id_result (v : jsval) (p : list path_key) : gql_error + ptree :=
  let w := js_get v "id" in
  match as_error w with
  | Some e => inl (located_error e (p ++ [PKey "id"]))
  | None =>
      if is_nullish w then inl (non_null_error "User" "id" (p ++ [PKey "id"])) else
      match serialize_leaf "ID" w with
      | Some RNull => inl (non_null_error "User" "id" (p ++ [PKey "id"]))
      | Some rv => inr (PVal rv)
      | None => inl (leaf_error "ID" (p ++ [PKey "id"]))
      end
  end.

Lemma id_field_eq (s : S) v p c :
  aexecute_field typeDefs (lookup_resolver s) User_type v (Sel "id" [] []) p c = (c, id_result v p).
Proof.
  assert (Hf : find_field User_type "id" = Some (FieldDef "id" [] (TNonNull (TNamed "ID")))) by reflexivity.
  assert (Hr : lookup_resolver s "User" "id" = None) by reflexivity.
  cbn [aexecute_field]. rewrite Hf. cbn [fd_name fd_type ot_name User_type]. rewrite Hr.
  rewrite acomplete_non_null_eq. unfold id_result. destruct (as_error (js_get v "id")) eqn:He; [done|].
  cbn [acomplete_with]. rewrite He. destruct (is_nullish (js_get v "id")); [done|].
  replace (is_scalar "ID") with true by reflexivity.
  by destruct (serialize_leaf "ID" (js_get v "id")) as [[]|].
Qed.

(** What a value completes to at [Item.user: User!] with [{ id }]. *)
Definition user_result (v : jsval) (p : list path_key) : gql_error + ptree :=
  match as_error v with
  | Some e => inl (located_error e p)
  | None =>
      if is_nullish v then inl (non_null_error "Item" "user" p) else
      match id_result v p with
      | inl e => inl e
      | inr x => inr (object_of [("id", x)])
      end
  end.

Lemma user_complete_eq (s : S) v p c :
  acomplete_with typeDefs (aexec s) "Item" "user" [Sel "id" [] []] (TNonNull (TNamed "User")) v p c = (c, user_result v p).
Proof.
  rewrite acomplete_non_null_eq. unfold user_result. destruct (as_error v) eqn:He; [done|].
  cbn [acomplete_with]. rewrite He. destruct (is_nullish v); [done|].
  replace (is_scalar "User") with false by reflexivity.
  replace (find_type typeDefs "User") with (Some User_type) by reflexivity.
  cbn [aexecute_fields_with]. rewrite id_field_eq.
  unfold id_result. destruct (as_error (js_get v "id")); [done|]. destruct (is_nullish (js_get v "id")); [done|].
  by destruct (serialize_leaf "ID" (js_get v "id")) as [[]|].
Qed.

(** What the promise of [Item.user] for the item [d] at [p] settles to. *)
Definition owner_result (s : S) (d : doc) (p : list path_key) : ptree :=
  match item_user s (JObject d) with
  | Rejected e => PErr (located_error e (p ++ [PKey "user"]))
  | Fulfilled v => match user_result v (p ++ [PKey "user"]) with inl e => PErr e | inr x => x end
  end.

Lemma owner_settle_eq (s : S) d p c :
  settle_task typeDefs (lookup_resolver s) (owner_read s d p) c = (c, owner_result s d p).
Proof.
  unfold settle_task, owner_result. cbn [owner_read tk_out tk_parent tk_field tk_sub tk_type tk_path].
  destruct (item_user s (JObject d)) as [v|e]; [|done]. rewrite user_complete_eq. by destruct (user_result v _).
Qed.

Lemma owner_result_settled (s : S) d p : settled_tree (owner_result s d p).
Proof.
  unfold owner_result, user_result, id_result, settled_tree.
  destruct (item_user s (JObject d)) as [v|e]; [|eauto].
  repeat case_match; simplify_eq/=; eauto.
Qed.

(** Settling an owner read changes no shared state and settles the
    promise of [user]; a missing owner rejects it. *)
Lemma owner_settle (s : S) d p c :
  exists y, settle_task typeDefs (lookup_resolver s) (owner_read s d p) c = (c, y) /\ settled_tree y.
Proof. exists (owner_result s d p). split; [apply owner_settle_eq|apply owner_result_settled]. Qed.

Lemma owner_settle_dangling (s : S) d p c :
  item_user s (JObject d) = Fulfilled JUndefined ->
  settle_task typeDefs (lookup_resolver s) (owner_read s d p) c =
  (c, PErr (non_null_error "Item" "user" (p ++ [PKey "user"]))).
Proof. intros Hd. unfold settle_task. cbn [owner_read tk_out]. by rewrite Hd. Qed.

(** The abandoned promises of [user] after the owner read [j] settles:
    its own leaves the list, and its rejection is unhandled. *)
Lemma settle_owner_orphans j y ps c :
  NoDup ps -> settled_tree y ->
  settle_orphans j y (owner_orphan <$> ps) c =
  (c, owner_orphan <$> filter (fun j' => j' <> j) ps, if bool_decide (j ∈ ps) then rej y else []).
Proof.
  intros Hnd Hy. induction Hnd as [|j' ps Hj' Hnd IH]; [done|].
  rewrite fmap_cons. cbn [settle_orphans]. unfold owner_orphan at 1. cbn [plug].
  destruct (decide (j' = j)) as [->|Hne].
  - destruct Hy as [[rv ->]|[e ->]]; cbn [norm is_non_null]; rewrite IH;
      rewrite filter_cons_False by naive_solver;
      rewrite (bool_decide_true (j ∈ j :: ps)) by set_solver; rewrite (bool_decide_false (j ∈ ps)) by done; done.
  - rewrite ?decide_False by done. cbn [norm]. rewrite IH. rewrite filter_cons_True by done.
    by rewrite (bool_decide_ext (j ∈ j' :: ps) (j ∈ ps)) by set_solver.
Qed.

Lemma keys_ctx_next (s : S) qs : forall i c, ec_next (keys_ctx s qs i c) = length qs + ec_next c.
Proof. induction qs as [|[k d] qs IH]; intros i c; [done|]. simpl. rewrite IH. simpl. lia. Qed.

Lemma keys_ctx_errors (s : S) qs : forall i c,
  ec_errors (keys_ctx s qs i c) = ec_errors c ++ imap (fun m '((_, d) : string * doc) => key_error d (i + m)) qs.
Proof.
  induction qs as [|[k d] qs IH]; intros i c; [by rewrite app_nil_r|].
  cbn [keys_ctx]. rewrite IH, imap_cons. cbn [ec_errors push_error orphan spawn pending snd].
  rewrite <- app_assoc, Nat.add_0_r. do 2 f_equal. apply imap_ext. intros m [? ?] _. simpl. by rewrite Nat.add_succ_r.
Qed.

Lemma keys_ctx_orphans (s : S) qs : forall i c,
  ec_orphans (keys_ctx s qs i c) = ec_orphans c ++ (owner_orphan <$> seq (ec_next c) (length qs)).
Proof.
  induction qs as [|[k d] qs IH]; intros i c; [by rewrite app_nil_r|].
  cbn [keys_ctx]. rewrite IH. cbn [ec_orphans ec_next push_error orphan spawn pending snd length seq].
  by rewrite fmap_cons, <- app_assoc.
Qed.

Lemma keys_ctx_dom (s : S) qs : forall i c j,
  is_Some (ec_tasks (keys_ctx s qs i c) !! j) <-> is_Some (ec_tasks c !! j) \/ j ∈ seq (ec_next c) (length qs).
Proof.
  induction qs as [|[k d] qs IH]; intros i c j; cbn [keys_ctx length seq].
  - rewrite elem_of_nil. tauto.
  - rewrite IH. cbn [ec_tasks ec_next push_error orphan spawn pending snd].
    rewrite elem_of_cons, lookup_insert_is_Some'. naive_solver.
Qed.

(** The pending promise [j] is the owner read of item [j - 1]. *)
Definition owner_slot (s : S) (qs : list (string * doc)) (j : nat) (tk : task) : Prop :=
  exists i k d, j = Datatypes.S i /\ qs !! i = Some (k, d) /\ tk = owner_read s d [PKey "items"; PIndex i].

Lemma keys_ctx_slots (s : S) qsF qs : forall i c,
  ec_next c = Datatypes.S i -> (forall m x, qs !! m = Some x -> qsF !! (i + m) = Some x) ->
  map_Forall (owner_slot s qsF) (ec_tasks c) -> map_Forall (owner_slot s qsF) (ec_tasks (keys_ctx s qs i c)).
Proof.
  induction qs as [|[k d] qs IH]; intros i c Hn Hq Hc; [done|]. cbn [keys_ctx].
  apply IH; cbn [ec_tasks ec_next push_error orphan spawn pending snd].
  - by rewrite Hn.
  - intros m x Hm. replace (Datatypes.S i + m) with (i + Datatypes.S m) by lia. by apply (Hq (Datatypes.S m)).
  - apply map_Forall_insert_2; [|done]. exists i, k, d. split_and!; [done| |done].
    rewrite <- (Nat.add_0_r i). by apply (Hq 0).
Qed.

(** The errors of the response, the data, and the rejection of the
    [Item.user] promise of item [i] when its owner is missing. *)
Definition key_errors (qs : list (string * doc)) : list gql_error :=
  imap (fun i '((_, d) : string * doc) => key_error d i) qs.

Definition owner_error (i : nat) : gql_error := non_null_error "Item" "user" [PKey "items"; PIndex i; PKey "user"].

Definition dangling (s : S) (d : doc) : Prop := item_user s (JObject d) = Fulfilled JUndefined.

(** The states after the listing settles: the response is built, the
    pending promises are owner reads held by abandoned promises only, and
    each missing owner is still being read or already unhandled. *)
Definition keys_inv (s : S) (qs : list (string * doc)) (a : aconf) : Prop :=
  exists ps, NoDup ps /\ (forall j, j ∈ ps <-> is_Some (ec_tasks (ac_ctx a) !! j)) /\
    ec_orphans (ac_ctx a) = owner_orphan <$> ps /\
    map_Forall (owner_slot s qs) (ec_tasks (ac_ctx a)) /\
    ac_root a = PVal (keys_data (length qs)) /\
    ac_response a = Some (Response (keys_data (length qs)) (key_errors qs)) /\
    (forall i k d, qs !! i = Some (k, d) -> dangling s d ->
       is_Some (ec_tasks (ac_ctx a) !! Datatypes.S i) \/ owner_error i ∈ ac_unhandled a).

Lemma keys_inv_first (s : S) qs a :
  query_items s = Fulfilled (docs_data qs) ->
  settle typeDefs (lookup_resolver s) 0 (aserver s owners_and_keys_query) = Some a -> keys_inv s qs a.
Proof.
  intros Hq Hs. rewrite (keys_first_turn s qs Hq) in Hs. injection Hs as <-.
  exists (seq 1 (length qs)). cbn [ac_ctx ec_tasks ec_orphans ac_root ac_response ac_unhandled].
  split_and!.
  - apply NoDup_seq.
  - intros j. rewrite keys_ctx_dom. cbn [ec_tasks ec_next]. rewrite lookup_empty. split; [by right|]. by intros [[]|].
  - by rewrite keys_ctx_orphans.
  - apply keys_ctx_slots; [done|done|apply map_Forall_empty].
  - done.
  - by rewrite keys_ctx_errors.
  - intros i k d Hi _. left. apply keys_ctx_dom. right. cbn [ec_next]. apply elem_of_seq.
    apply lookup_lt_Some in Hi. lia.
Qed.

(** A turn after the listing settles the read of one item's owner: the
    response stays, and the rejection of that read, if any, is
    unhandled. *)
Lemma keys_settle (s : S) qs a j a' :
  keys_inv s qs a -> settle typeDefs (lookup_resolver s) j a = Some a' ->
  exists i k d y, j = Datatypes.S i /\ qs !! i = Some (k, d) /\
    (dangling s d -> y = PErr (owner_error i)) /\
    ac_unhandled a' = ac_unhandled a ++ rej y /\
    ec_tasks (ac_ctx a') = delete j (ec_tasks (ac_ctx a)) /\ keys_inv s qs a'.
Proof.
  intros (ps & Hnd & Hps & Ho & Hsl & Hroot & Hresp & Hdang) Hs.
  unfold settle in Hs. destruct (ec_tasks (ac_ctx a) !! j) as [tk|] eqn:Htk; [|done]. cbn [mbind option_bind] in Hs.
  destruct (Hsl j tk Htk) as (i & k & d & -> & Hi & ->).
  set (c0 := ECtx (ec_next (ac_ctx a)) (delete (Datatypes.S i) (ec_tasks (ac_ctx a))) (ec_errors (ac_ctx a)) []).
  destruct (owner_settle s d [PKey "items"; PIndex i] c0) as (y & Hy & Hset). fold c0 in Hs. rewrite Hy in Hs.
  rewrite Hroot, Hresp, Ho in Hs. cbn [plug norm respond] in Hs.
  rewrite settle_owner_orphans in Hs by done.
  rewrite bool_decide_true in Hs by (apply Hps; by eexists).
  injection Hs as <-. exists i, k, d, y. split_and!; [done|done| |done|done|].
  { intros Hd. pose proof (owner_settle_dangling s d [PKey "items"; PIndex i] c0 Hd) as Hy'. rewrite Hy' in Hy. injection Hy as <-. reflexivity. }
  exists (filter (fun j' => j' <> Datatypes.S i) ps). cbn [ac_ctx ec_tasks ec_orphans ac_root ac_response ac_unhandled c0].
  split_and!; [by apply NoDup_filter| |by rewrite app_nil_r|by apply map_Forall_delete|done|done|].
  - intros j'. rewrite list_elem_of_filter, Hps, lookup_delete_is_Some. naive_solver.
  - intros i' k' d' Hi' Hd'. destruct (decide (i' = i)) as [->|Hne].
    + rewrite Hi in Hi'. injection Hi' as <- <-. right. apply elem_of_app. right.
      rewrite (owner_settle_dangling s d [PKey "items"; PIndex i] c0 Hd') in Hy. injection Hy as <-. by left.
    + destruct (Hdang i' k' d' Hi' Hd') as [Hsm|Hin]; [left|right; by apply elem_of_app; left].
      rewrite lookup_delete_ne by congruence. done.
Qed.

Lemma keys_first_state (s : S) qs a :
  query_items s = Fulfilled (docs_data qs) ->
  settle typeDefs (lookup_resolver s) 0 (aserver s owners_and_keys_query) = Some a ->
  ac_unhandled a = [] /\ (forall i, i < length qs -> is_Some (ec_tasks (ac_ctx a) !! Datatypes.S i)).
Proof.
  intros Hq Hs. rewrite (keys_first_turn s qs Hq) in Hs. injection Hs as <-. split; [done|].
  intros i Hi. cbn [ac_ctx ec_tasks]. apply keys_ctx_dom. right. apply elem_of_seq. simpl. lia.
Qed.

Lemma aserver_keys_step (s : S) a :
  astep typeDefs (lookup_resolver s) (aserver s owners_and_keys_query) a ->
  settle typeDefs (lookup_resolver s) 0 (aserver s owners_and_keys_query) = Some a.
Proof. apply astep_dom_single. rewrite aserver_keys. apply dom_singleton_L. Qed.

(** Every state of the request is its start or satisfies [keys_inv]. *)
Lemma keys_reachable (s : S) qs a :
  query_items s = Fulfilled (docs_data qs) ->
  rtc (astep typeDefs (lookup_resolver s)) (aserver s owners_and_keys_query) a ->
  a = aserver s owners_and_keys_query \/ keys_inv s qs a.
Proof.
  intros Hq Hr. apply (rtc_preserves (astep typeDefs (lookup_resolver s))
    (fun x => x = aserver s owners_and_keys_query \/ keys_inv s qs x) (aserver s owners_and_keys_query));
    [|by left|exact Hr].
  intros x y Hxy [->|Hx]; right.
  - apply aserver_keys_step in Hxy. by apply (keys_inv_first s qs y Hq).
  - destruct Hxy as [x id y Hs]. by destruct (keys_settle s qs x id y Hx Hs) as (? & ? & ? & ? & _ & _ & _ & _ & _ & ?).
Qed.

(** C28: for every store whose listing succeeds, the request
    [{ items { user { id } userId { id } } }] answers every item with
    [null] and the error of [userId { id }] ([userId] is declared
    [User!] and the stored value has no [id]), and reports no error of
    [Item.user]: [userId] throws while the promise of [user] is pending,
    the item's fields stop, and that promise is left without a handler.
    In every run of the event loop that settles all promises, the
    rejection of the [Item.user] promise of each item whose owner
    document is missing is an unhandled rejection. *)
Theorem dangling_owner_rejection_unhandled (s : S) qs a :
  query_items s = Fulfilled (docs_data qs) ->
  rtc (astep typeDefs (lookup_resolver s)) (aserver s owners_and_keys_query) a ->
  ec_tasks (ac_ctx a) = ∅ ->
  ac_response a = Some (Response (keys_data (length qs)) (key_errors qs)) /\
  forall i k d, qs !! i = Some (k, d) -> item_user s (JObject d) = Fulfilled JUndefined ->
    owner_error i ∈ ac_unhandled a.
Proof.
  intros Hq Hr He. destruct (keys_reachable s qs a Hq Hr) as [->|(ps & _ & _ & _ & _ & _ & Hresp & Hdang)].
  - by rewrite aserver_keys in He.
  - split; [done|]. intros i k d Hi Hd. rewrite He in Hdang.
    destruct (Hdang i k d Hi Hd) as [[? Hx]|]; [by rewrite lookup_empty in Hx|done].
Qed.
(** ** Errors of [items { user { id } }] in settlement order *)

(** The promise of an item whose owner read [j] is pending. *)
Definition item_wait (j : nat) : ptree :=
  PCatch (TNamed "Item") (PObj [("user", PCatch (TNonNull (TNamed "User")) (PWait j))]).

(** The settlement of the owner read of item [k], and the item it makes. *)
Definition owner_y (s : S) (qs : list (string * doc)) (k : nat) : ptree :=
  match qs !! k with Some (_, d) => owner_result s d [PKey "items"; PIndex k] | None => PVal RNull end.

Definition item_val_of (y : ptree) : rvalue :=
  match y with PVal rv => RObject [("user", rv)] | _ => RNull end.

(** Item [k] once the reads [D] have settled. *)
Definition item_state (s : S) qs (D : list nat) (k : nat) : ptree :=
  if bool_decide (k ∈ D) then PVal (item_val_of (owner_y s qs k)) else item_wait (Datatypes.S k).

Definition root_of (s : S) qs (D : list nat) : ptree :=
  object_of [("items", await_at (TList (TNamed "Item")) (array_of (item_state s qs D <$> seq 0 (length qs))))].

Definition owner_errs (s : S) qs (D : list nat) : list gql_error := mjoin ((fun k => rej (owner_y s qs k)) <$> D).

Definition ctx_add (es : list gql_error) (c : ectx) : ectx :=
  ECtx (ec_next c) (ec_tasks c) (ec_errors c ++ es) (ec_orphans c).

Lemma ctx_add_nil c : ctx_add [] c = c.
Proof. destruct c. unfold ctx_add. simpl. by rewrite app_nil_r. Qed.

Lemma ctx_add_app es1 es2 c : ctx_add es2 (ctx_add es1 c) = ctx_add (es1 ++ es2) c.
Proof. unfold ctx_add. simpl. by rewrite app_assoc. Qed.

Lemma norm_item_wait j c : norm (item_wait j) c = (c, item_wait j).
Proof. reflexivity. Qed.

(** Settling the owner read of item [k] settles that item, nulled with
    the error when the read rejects, and leaves the others. *)
Lemma norm_item_plug k y k' c :
  settled_tree y ->
  norm (plug (Datatypes.S k) y (item_wait (Datatypes.S k'))) c =
  if decide (k' = k) then (ctx_add (rej y) c, PVal (item_val_of y)) else (c, item_wait (Datatypes.S k')).
Proof.
  intros Hy. destruct (decide (k' = k)) as [->|Hne].
  - cbn [item_wait plug fmap list_fmap]. rewrite decide_True by done.
    destruct Hy as [[rv ->]|[e ->]]; [rewrite ctx_add_nil; reflexivity|reflexivity].
  - cbn [item_wait plug fmap list_fmap]. rewrite decide_False by congruence. reflexivity.
Qed.

Lemma owner_y_settled (s : S) qs k : settled_tree (owner_y s qs k).
Proof. unfold owner_y. destruct (qs !! k) as [[? d]|]; [apply owner_result_settled|left; eauto]. Qed.

Lemma item_state_in (s : S) qs D k : k ∈ D -> item_state s qs D k = PVal (item_val_of (owner_y s qs k)).
Proof. intros Hk. unfold item_state. by rewrite bool_decide_true. Qed.

Lemma item_state_notin (s : S) qs D k : k ∉ D -> item_state s qs D k = item_wait (Datatypes.S k).
Proof. intros Hk. unfold item_state. by rewrite bool_decide_false. Qed.

(** The promise machinery over the items after the owner read of [k]
    settles. *)
Lemma norm_items (s : S) qs D k l c :
  NoDup l -> k ∉ D ->
  map_state norm (plug (Datatypes.S k) (owner_y s qs k) <$> (item_state s qs D <$> l)) c =
  (if bool_decide (k ∈ l) then ctx_add (rej (owner_y s qs k)) c else c, item_state s qs (D ++ [k]) <$> l).
Proof.
  intros Hnd HkD. revert c. induction Hnd as [|k' l Hk' Hnd IH]; intros c; [done|].
  rewrite !fmap_cons. cbn [map_state].
  destruct (decide (k' ∈ D)) as [Hin|Hout].
  - rewrite item_state_in by done. cbn [plug norm]. rewrite IH.
    rewrite (item_state_in s qs (D ++ [k]) k') by set_solver.
    by rewrite (bool_decide_ext (k ∈ k' :: l) (k ∈ l)) by set_solver.
  - rewrite item_state_notin by done. rewrite norm_item_plug by apply owner_y_settled.
    destruct (decide (k' = k)) as [->|Hne].
    + rewrite IH, (bool_decide_false (k ∈ l)) by done.
      rewrite (item_state_in s qs (D ++ [k]) k), (bool_decide_true (k ∈ k :: l)) by set_solver. done.
    + rewrite IH, (item_state_notin s qs (D ++ [k]) k') by set_solver.
      by rewrite (bool_decide_ext (k ∈ k' :: l) (k ∈ l)) by set_solver.
Qed.

Lemma array_of_pending xs x : x ∈ xs -> settled_value x = None -> array_of xs = PArr xs.
Proof.
  intros Hx Hs. unfold array_of. destruct (mapM settled_value xs) as [rvs|] eqn:E; [|done].
  apply mapM_Some_1 in E. apply list_elem_of_lookup in Hx as [i Hi].
  destruct (Forall2_lookup_l _ _ _ _ _ E Hi) as (rv & _ & Hrv). congruence.
Qed.

Lemma item_state_rejected (s : S) qs D k : rejected (item_state s qs D k) = false.
Proof. unfold item_state. by case_bool_decide. Qed.

Lemma first_rejection_items (s : S) qs D l : first_rejection (item_state s qs D <$> l) = None.
Proof.
  unfold first_rejection. induction l as [|k l IH]; [done|]. rewrite fmap_cons. cbn [omap list_omap].
  unfold item_state at 1. case_bool_decide; done.
Qed.

Lemma norm_catch_await t x (c' : ectx) :
  rejected x = false ->
  match x with PErr e => if is_non_null t then (c', PErr e) else (push_error e c', PVal RNull)
             | PVal rv => (c', PVal rv) | y' => (c', PCatch t y') end = (c', await_at t x).
Proof. by destruct x. Qed.

Lemma norm_root (s : S) qs D k c :
  k ∉ D -> k < length qs ->
  norm (plug (Datatypes.S k) (owner_y s qs k) (root_of s qs D)) c =
  (ctx_add (rej (owner_y s qs k)) c, root_of s qs (D ++ [k])).
Proof.
  intros HkD Hk. unfold root_of at 1.
  rewrite (array_of_pending _ (item_wait (Datatypes.S k))); last done.
  2:{ apply list_elem_of_fmap. exists k. split; [by rewrite item_state_notin|apply elem_of_seq; lia]. }
  cbn [await_at].
  change (object_of [("items", PCatch (TList (TNamed "Item")) (PArr (item_state s qs D <$> seq 0 (length qs))))])
    with (PObj [("items", PCatch (TList (TNamed "Item")) (PArr (item_state s qs D <$> seq 0 (length qs))))]).
  cbn [plug]. rewrite fmap_cons, fmap_nil. cbn [plug]. cbn [norm map_state fst snd].
  rewrite norm_items by (apply NoDup_seq || done). rewrite bool_decide_true by (apply elem_of_seq; lia).
  rewrite first_rejection_items. unfold root_of.
  pose proof (array_of_rejected (item_state s qs (D ++ [k]) <$> seq 0 (length qs))) as Hr.
  destruct (array_of _); by try discriminate Hr.
Qed.

Lemma norm_catch_eq t x c c' x' : norm x c = (c', x') -> rejected x' = false -> norm (PCatch t x) c = (c', await_at t x').
Proof. intros H Hr. cbn [norm]. rewrite H. by destruct x'. Qed.

Lemma norm_field1 k x c c' x' : norm x c = (c', x') -> rejected x' = false -> norm (PObj [(k, x)]) c = (c', object_of [(k, x')]).
Proof. intros H Hr. cbn [norm map_state fst snd]. rewrite H. by destruct x'. Qed.

Lemma norm_waits l c : map_state norm (item_wait <$> l) c = (c, item_wait <$> l).
Proof. induction l as [|j l IH]; [done|]. rewrite fmap_cons. cbn [map_state]. by rewrite norm_item_wait, IH. Qed.

Lemma first_rejection_waits l : first_rejection (item_wait <$> l) = None.
Proof. induction l as [|j l IH]; [done|]. exact IH. Qed.

Lemma norm_array_waits l c : norm (array_of (item_wait <$> l)) c = (c, array_of (item_wait <$> l)).
Proof.
  unfold array_of at 1. destruct (mapM settled_value (item_wait <$> l)) eqn:E; [unfold array_of; by rewrite E|].
  cbn [norm]. rewrite norm_waits. unfold array_of. rewrite E.
  by rewrite first_rejection_waits.
Qed.

(** The shared state after the listing of [owners_query]: one owner
    read per item. *)
Fixpoint owners_ctx (s : S) (qs : list (string * doc)) (i : nat) (c : ectx) : ectx :=
  match qs with
  | [] => c
  | (_, d) :: qs' => owners_ctx s qs' (Datatypes.S i) (spawn (owner_read s d [PKey "items"; PIndex i]) c).2
  end.

Lemma owners_items_eq (s : S) qs : forall i c,
  acomplete_items typeDefs (aexec s) "Query" "items" [owner_field] (TNamed "Item") [PKey "items"]
    ((fun '((_, d) : string * doc) => JObject d) <$> qs) i c =
  (owners_ctx s qs i c, inr (item_wait <$> seq (ec_next c) (length qs))).
Proof.
  induction qs as [|[k d] qs IH]; intros i c; [done|].
  cbn [fmap list_fmap acomplete_items].
  fold (acomplete_items typeDefs (aexec s) "Query" "items" [owner_field] (TNamed "Item") [PKey "items"]).
  rewrite complete_item_eq. cbn [handled]. rewrite IH. reflexivity.
Qed.

(** The owner reads are those of [keys_ctx]. *)
Lemma owners_keys_same (s : S) qs : forall i c c',
  same_tasks c c' -> same_tasks (keys_ctx s qs i c') (owners_ctx s qs i c).
Proof.
  induction qs as [|[k d] qs IH]; intros i c c' [Hn Ht]; [done|]. cbn [keys_ctx owners_ctx].
  apply IH. unfold same_tasks; cbn [spawn ec_next ec_tasks push_error orphan pending snd]. by rewrite Hn, Ht.
Qed.

Lemma owners_ctx_rest (s : S) qs : forall i c,
  ec_errors (owners_ctx s qs i c) = ec_errors c /\ ec_orphans (owners_ctx s qs i c) = ec_orphans c.
Proof. induction qs as [|[k d] qs IH]; intros i c; [done|]. cbn [owners_ctx]. by rewrite !(proj1 (IH _ _)), !(proj2 (IH _ _)). Qed.

Lemma items_none_settled (s : S) qs n : item_state s qs [] <$> seq 0 n = item_wait <$> seq 1 n.
Proof. rewrite <- fmap_S_seq, <- list_fmap_compose. apply list_fmap_ext. intros _ k _. by apply item_state_notin, not_elem_of_nil. Qed.

Lemma respond_root (s : S) qs D c :
  respond c (root_of s qs D) None = (c, match root_of s qs D with PVal rv => Some (Response rv (ec_errors c)) | _ => None end).
Proof.
  unfold respond. pose proof (object_of_rejected [("items", await_at (TList (TNamed "Item")) (array_of (item_state s qs D <$> seq 0 (length qs))))]) as Hr.
  unfold root_of. by destruct (object_of _).
Qed.

Definition root_response (s : S) qs (D : list nat) : option response :=
  match root_of s qs D with PVal rv => Some (Response rv (owner_errs s qs D)) | _ => None end.

Lemma owners_first_turn (s : S) qs :
  query_items s = Fulfilled (docs_data qs) ->
  settle typeDefs (lookup_resolver s) 0 (aserver s owners_query) =
  Some (let c := owners_ctx s qs 0 (ECtx 1 ∅ [] []) in
        AConf (ECtx (ec_next c) (ec_tasks c) [] []) (root_of s qs []) (root_response s qs []) []).
Proof.
  intros Hq. rewrite aserver_owners. unfold settle. cbn [ac_ctx ec_tasks ec_next ec_errors ec_orphans].
  rewrite lookup_singleton_eq, delete_singleton_eq. cbn [mbind option_bind].
  unfold settle_task. cbn [items_task tk_out tk_parent tk_field tk_sub tk_type tk_path]. rewrite Hq.
  unfold docs_data. rewrite acomplete_list_array_eq, owners_items_eq. cbn [ec_next].
  destruct (owners_ctx_rest s qs 0 (ECtx 1 ∅ [] [])) as [He Ho].
  set (c1 := owners_ctx s qs 0 (ECtx 1 ∅ [] [])) in *.
  change (object_of [("items", PCatch (TList (TNamed "Item")) (PWait 0))])
    with (PObj [("items", PCatch (TList (TNamed "Item")) (PWait 0))]).
  cbn [ac_root plug fmap list_fmap]. rewrite decide_True by done.
  rewrite (norm_field1 _ _ c1 c1 (await_at (TList (TNamed "Item")) (array_of (item_wait <$> seq 1 (length qs))))).
  2:{ apply norm_catch_eq; [apply norm_array_waits|apply array_of_rejected]. }
  2:{ destruct (array_of _); done. }
  rewrite <- (items_none_settled s qs). fold (root_of s qs []). cbn [ac_response]. rewrite respond_root. cbn [settle_orphans].
  unfold root_response. cbn [owner_errs fmap list_fmap mjoin]. rewrite He. destruct c1. cbn in Ho |- *. by subst.
Qed.

(** The states after the listing: the owner reads of the items in [D]
    have settled, in the order of [D]; the errors are their rejections
    in that order. *)
Definition owners_inv (s : S) qs (D : list nat) (a : aconf) : Prop :=
  NoDup D /\ Forall (fun k => k < length qs) D /\
  (forall j, is_Some (ec_tasks (ac_ctx a) !! j) <-> exists k, j = Datatypes.S k /\ k < length qs /\ k ∉ D) /\
  map_Forall (owner_slot s qs) (ec_tasks (ac_ctx a)) /\
  ec_errors (ac_ctx a) = owner_errs s qs D /\ ec_orphans (ac_ctx a) = [] /\
  ac_root a = root_of s qs D /\ ac_response a = root_response s qs D /\ ac_unhandled a = [].

Lemma owners_inv_first (s : S) qs a :
  query_items s = Fulfilled (docs_data qs) ->
  settle typeDefs (lookup_resolver s) 0 (aserver s owners_query) = Some a -> owners_inv s qs [] a.
Proof.
  intros Hq Hs. rewrite (owners_first_turn s qs Hq) in Hs. injection Hs as <-.
  destruct (owners_keys_same s qs 0 (ECtx 1 ∅ [] []) (ECtx 1 ∅ [] []) (conj eq_refl eq_refl)) as [Hn Ht].
  cbn [ac_ctx ec_tasks ec_errors ec_orphans ac_root ac_response ac_unhandled]. rewrite Ht.
  split_and!; [constructor|constructor| |apply keys_ctx_slots; [done|done|apply map_Forall_empty]|done..].
  intros j. cbn [ac_ctx ec_tasks]. rewrite keys_ctx_dom. cbn [ec_next ec_tasks]. rewrite lookup_empty, elem_of_seq. split.
  - intros [[? [=]]|Hj]. exists (pred j). split_and!; [lia|lia|apply not_elem_of_nil].
  - intros (k & -> & Hk & _). right. lia.
Qed.

Lemma root_pending (s : S) qs D k : k < length qs -> k ∉ D -> root_response s qs D = None.
Proof.
  intros Hk HkD. unfold root_response, root_of.
  rewrite (array_of_pending _ (item_wait (Datatypes.S k))); [done| |done].
  apply list_elem_of_fmap. exists k. split; [by rewrite item_state_notin|apply elem_of_seq; lia].
Qed.

Lemma owner_errs_snoc (s : S) qs D k : owner_errs s qs (D ++ [k]) = owner_errs s qs D ++ rej (owner_y s qs k).
Proof. unfold owner_errs. rewrite fmap_app, join_app. simpl. by rewrite app_nil_r. Qed.

(** A turn after the listing settles the owner read of an item not yet
    settled, and appends its rejection to the errors. *)
Lemma owners_settle (s : S) qs D a j a' :
  owners_inv s qs D a -> settle typeDefs (lookup_resolver s) j a = Some a' ->
  exists k, j = Datatypes.S k /\ k < length qs /\ (k ∉ D) /\ owners_inv s qs (D ++ [k]) a'.
Proof.
  intros (Hnd & Hlt & Hdom & Hsl & He & Ho & Hroot & Hresp & Hun) Hs.
  unfold settle in Hs. destruct (ec_tasks (ac_ctx a) !! j) as [tk|] eqn:Htk; [|done]. cbn [mbind option_bind] in Hs.
  destruct (Hsl j tk Htk) as (i & k' & d & -> & Hi & ->).
  destruct (proj1 (Hdom (Datatypes.S i)) (mk_is_Some _ _ Htk)) as (i' & [= <-] & Hn & HiD).
  rewrite owner_settle_eq in Hs.
  replace (owner_result s d [PKey "items"; PIndex i]) with (owner_y s qs i) in Hs by (unfold owner_y; by rewrite Hi).
  rewrite Hroot, norm_root, Hresp, (root_pending s qs D i), respond_root in Hs by done.
  rewrite Ho in Hs. cbn [settle_orphans] in Hs. injection Hs as <-. exists i. split_and!; [done|done|done|].
  cbn [ac_ctx ec_tasks ec_errors ec_orphans ac_root ac_response ac_unhandled ctx_add].
  split_and!.
  - apply NoDup_app. split_and!; [done| |by apply NoDup_singleton]. intros x Hx ->%list_elem_of_singleton. done.
  - apply Forall_app. split; [done|by constructor].
  - intros j. cbn [ac_ctx ec_tasks]. rewrite lookup_delete_is_Some, Hdom. split.
    + intros [Hne (k & -> & Hk & HkD)]. exists k. split_and!; [done|done|]. rewrite elem_of_app, list_elem_of_singleton. naive_solver.
    + intros (k & -> & Hk & HkD). rewrite elem_of_app, list_elem_of_singleton in HkD. split; [naive_solver|]. exists k. naive_solver.
  - cbn [ac_ctx ec_tasks]. by apply map_Forall_delete.
  - cbn [ac_ctx ec_errors]. by rewrite He, owner_errs_snoc.
  - done.
  - done.
  - cbn [ac_response]. unfold root_response. by rewrite He, owner_errs_snoc.
  - cbn [ac_unhandled]. by rewrite Hun.
Qed.

Lemma owners_reachable (s : S) qs a :
  query_items s = Fulfilled (docs_data qs) ->
  rtc (astep typeDefs (lookup_resolver s)) (aserver s owners_query) a ->
  a = aserver s owners_query \/ exists D, owners_inv s qs D a.
Proof.
  intros Hq Hr. apply (rtc_preserves (astep typeDefs (lookup_resolver s))
    (fun x => x = aserver s owners_query \/ exists D, owners_inv s qs D x) (aserver s owners_query));
    [|by left|exact Hr].
  intros x y Hxy [->|[D Hx]]; right.
  - exists []. apply (owners_inv_first s qs y Hq). revert Hxy. apply astep_dom_single.
    rewrite aserver_owners. apply dom_singleton_L.
  - destruct Hxy as [x id y Hs]. destruct (owners_settle s qs D x id y Hx Hs) as (k & _ & _ & _ & Hy). by eexists.
Qed.

(** Any order of the owner reads not yet settled is a run. *)
Lemma owners_run (s : S) qs D D' a :
  owners_inv s qs D a -> NoDup (D ++ D') -> Forall (fun k => k < length qs) D' ->
  exists a', rtc (astep typeDefs (lookup_resolver s)) a a' /\ owners_inv s qs (D ++ D') a'.
Proof.
  revert D a. induction D' as [|k D' IH]; intros D a Hinv Hnd Hlt.
  { exists a. rewrite app_nil_r. by split. }
  apply Forall_cons in Hlt as [Hk Hlt].
  assert (HkD : k ∉ D) by (intros Hin; apply NoDup_app in Hnd as (_ & Hdis & _); by apply (Hdis k); [|left]).
  destruct Hinv as (Hnd0 & Hlt0 & Hdom & Hrest). pose proof (conj Hnd0 (conj Hlt0 (conj Hdom Hrest))) as Hinv.
  destruct (settle_is_Some typeDefs (lookup_resolver s) (Datatypes.S k) a) as [a1 Hs]; [apply Hdom; by exists k|].
  destruct (owners_settle s qs D a _ a1 Hinv Hs) as (k' & [= <-] & _ & _ & Hinv1).
  destruct (IH (D ++ [k]) a1 Hinv1) as (a' & Hr & Hinv'); [by rewrite <- app_assoc|done|].
  exists a'. rewrite <- app_assoc in Hinv'. split; [eapply rtc_l; [by econstructor|exact Hr]|done].
Qed.

(** The data of the response, which no order changes. *)
Definition owners_data (s : S) (qs : list (string * doc)) : rvalue :=
  RObject [("items", RList ((fun k => item_val_of (owner_y s qs k)) <$> seq 0 (length qs)))].

Lemma root_complete (s : S) qs D :
  (forall k, k < length qs -> k ∈ D) -> root_response s qs D = Some (Response (owners_data s qs) (owner_errs s qs D)).
Proof.
  intros Hall. unfold root_response, root_of.
  rewrite (list_fmap_ext _ (PVal ∘ (fun k => item_val_of (owner_y s qs k))) (seq 0 (length qs))).
  2:{ intros i k Hk%list_elem_of_lookup_2. apply elem_of_seq in Hk. by rewrite item_state_in by (apply Hall; lia). }
  rewrite list_fmap_compose. unfold array_of. rewrite mapM_fmap_Some by done. reflexivity.
Qed.

Lemma owners_done (s : S) qs D a :
  owners_inv s qs D a -> ec_tasks (ac_ctx a) = ∅ -> forall k, k < length qs -> k ∈ D.
Proof.
  intros (_ & _ & Hdom & _) He k Hk. destruct (decide (k ∈ D)) as [|HkD]; [done|].
  destruct (proj2 (Hdom (Datatypes.S k)) (ex_intro _ k (conj eq_refl (conj Hk HkD)))) as [? Hx].
  by rewrite He, lookup_empty in Hx.
Qed.

(** C27: the errors of [items { user { id } }] come in the order the
    owner reads settle, on every store whose listing succeeds: every run
    of the event loop that settles all promises answers the same data
    and, as errors, the rejections of the promises of [Item.user] in
    the order of some permutation of the items; and every permutation
    of the items is the order of some run. *)
Theorem owner_errors_follow_settle_order (s : S) qs :
  query_items s = Fulfilled (docs_data qs) ->
  (forall a, rtc (astep typeDefs (lookup_resolver s)) (aserver s owners_query) a -> ec_tasks (ac_ctx a) = ∅ ->
     exists D, D ≡ₚ seq 0 (length qs) /\ ac_response a = Some (Response (owners_data s qs) (owner_errs s qs D))) /\
  (forall D, D ≡ₚ seq 0 (length qs) ->
     exists a, rtc (astep typeDefs (lookup_resolver s)) (aserver s owners_query) a /\ ec_tasks (ac_ctx a) = ∅ /\
               ac_response a = Some (Response (owners_data s qs) (owner_errs s qs D))).
Proof.
  intros Hq. split.
  - intros a Hr He. destruct (owners_reachable s qs a Hq Hr) as [->|[D Hinv]]; [by rewrite aserver_owners in He|].
    pose proof (owners_done s qs D a Hinv He) as Hall.
    destruct Hinv as (Hnd & Hlt & _ & _ & _ & _ & _ & Hresp & _). exists D. split.
    + apply NoDup_Permutation; [done|apply NoDup_seq|]. intros k. rewrite elem_of_seq. split; [|intros; apply Hall; lia].
      intros Hk. rewrite Forall_forall in Hlt. specialize (Hlt k Hk). lia.
    + rewrite Hresp. by apply root_complete.
  - intros D HD.
    destruct (settle_is_Some typeDefs (lookup_resolver s) 0 (aserver s owners_query)) as [a1 Hs];
      [rewrite aserver_owners; by eexists|].
    pose proof (owners_inv_first s qs a1 Hq Hs) as Hinv1.
    destruct (owners_run s qs [] D a1 Hinv1) as (a & Hr & Hinv).
    { rewrite HD. apply NoDup_seq. }
    { rewrite HD. apply Forall_forall. intros k Hk%elem_of_seq. lia. }
    assert (Hall : forall k, k < length qs -> k ∈ D) by (intros k Hk; rewrite HD, elem_of_seq; lia).
    exists a. split_and!.
    + eapply rtc_l; [by econstructor|exact Hr].
    + apply map_empty. intros j. destruct (ec_tasks (ac_ctx a) !! j) eqn:Ej; [|done].
      destruct Hinv as (_ & _ & Hdom & _). destruct (proj1 (Hdom j) (mk_is_Some _ _ Ej)) as (k & _ & Hk & HkD).
      exfalso. apply HkD. by apply Hall.
    + destruct Hinv as (_ & _ & _ & _ & _ & _ & _ & Hresp & _). rewrite Hresp. by apply root_complete.
Qed.
End Server.
