(* ===== verification/Validate.v ===== *)
(** * Validate: the validation phase in front of execution

    Before executing a query the Apollo server validates it against the
    schema (graphql-js [validate] with [specifiedRules]); a query with a
    validation error is answered with the errors only, each with the
    code [GRAPHQL_VALIDATION_FAILED], and no resolver runs.  The rules
    that apply to field selections are modelled, in the order the rule
    visitor reports their errors: for each field, on entering it,
    [ScalarLeafsRule] and [FieldsOnCorrectTypeRule]; for each of its
    arguments [KnownArgumentNamesRule], [UniqueArgumentNamesRule] and
    [ValuesOfCorrectTypeRule]; on entering its selection set
    [OverlappingFieldsCanBeMergedRule]; then its sub-fields; and on
    leaving it [ProvidedRequiredArgumentsRule].  Errors are kept as
    their kind and data ([vrule_error]); the text of the messages, with
    their "Did you mean" suggestions, is not modelled.

    A valid query is executed with its fields merged by response name
    ([collectFields]): the first selection's arguments and the
    concatenation of the sub-selections, recursively ([normalize_with]).
    [handle_request] is the server of lines 94-97 answering a request. *)
From S2P Require Import Prelude Js Firestore Schema Resolvers Execute Api.
From stdpp Require Import options.

Local Open Scope string_scope.
Local Open Scope list_scope.
#[local] Set Warnings "-register-all".

(** ** Validation errors *)

(** Why two selections of the same name cannot be merged. *)
Inductive conflict_reason :=
| DifferingArguments
| SubfieldsConflict (subs : list (string * conflict_reason)).

Inductive vrule_error :=
| ScalarWithSelection (field : string) (t : gtype)
| ObjectWithoutSelection (field : string) (t : gtype)
| UndefinedField (type_name field : string)
| UnknownArgument (type_name field arg : string)
| DuplicateArgument (arg : string)
| BadValue (t : gtype) (v : fvalue)
| MissingArgument (field arg : string) (t : gtype)
| FieldsConflict (name : string) (reason : conflict_reason).

(** ** OverlappingFieldsCanBeMergedRule *)

(** [findConflict] for two selections of one response name: differing
    arguments ([sameArguments]: as many arguments, each with the value
    of the first of its name in the other), or conflicts between their
    sub-selections, grouped by response name in the order of the
    first. *)
Fixpoint find_conflict (s1 s2 : selection) {struct s1} : option conflict_reason :=
  match s1, s2 with
  | Sel _ a1 sub1, Sel _ a2 sub2 =>
      if negb (bool_decide (length a1 = length a2) &&
               forallb (fun '(n, v) => bool_decide (assoc n a2 = Some v)) a1)
      then Some DifferingArguments
      else
        match sub1, sub2 with
        | [], _ | _, [] => None
        | _, _ =>
            let direct :=
              (fix go (l : list selection) : list (string * list (string * conflict_reason)) :=
                 match l with
                 | [] => []
                 | f1 :: l' =>
                     (sel_name f1,
                      omap (fun f2 => if decide (sel_name f2 = sel_name f1)
                                      then (fun r => (sel_name f1, r)) <$> find_conflict f1 f2
                                      else None) sub2) :: go l'
                 end) sub1 in
            match concat ((fun m => concat (snd <$> filter (fun x => x.1 = m) direct))
                            <$> insertion_order (sel_name <$> sub1)) with
            | [] => None
            | cs => Some (SubfieldsConflict cs)
            end
        end
  end.

(** [collectConflictsWithin] a selection set: every pair of selections
    of one response name, in order. *)
Definition conflicts_within (sels : list selection) : list vrule_error :=
  concat ((fun m =>
            (fix pairs (l : list selection) : list vrule_error :=
               match l with
               | [] => []
               | f :: l' => omap (fun g => FieldsConflict m <$> find_conflict f g) l' ++ pairs l'
               end) (filter (fun s => sel_name s = m) sels))
          <$> insertion_order (sel_name <$> sels)).

(** ** The rules on a field *)

Section Validation.
Variable schema : list object_type.

(** The errors of a field selection on the parent type [pt] ([None]
    when the parent is unknown or a leaf, where the type-directed rules
    are silent). *)
Fixpoint validate_field (pt : option object_type) (sel : selection) {struct sel} : list vrule_error :=
  match sel with
  | Sel f args sub =>
      let fd := pt ≫= fun ot => find_field ot f in
      (* ScalarLeafsRule *)
      match fd with
      | Some fd =>
          if is_scalar (named_type (fd_type fd)) then
            match sub with [] => [] | _ => [ScalarWithSelection f (fd_type fd)] end
          else match sub with [] => [ObjectWithoutSelection f (fd_type fd)] | _ => [] end
      | None => []
      end ++
      (* FieldsOnCorrectTypeRule *)
      match pt, fd with Some ot, None => [UndefinedField (ot_name ot) f] | _, _ => [] end ++
      (* KnownArgumentNamesRule, UniqueArgumentNamesRule, ValuesOfCorrectTypeRule *)
      (fix args_errors (seen : list string) (l : list (string * fvalue)) : list vrule_error :=
         match l with
         | [] => []
         | (a, v) :: l' =>
             let argdef := fd ≫= fun fd => assoc a (fd_args fd) in
             match pt, fd, argdef with
             | Some ot, Some fd, None => [UnknownArgument (ot_name ot) (fd_name fd) a]
             | _, _, _ => []
             end ++
             (if decide (a ∈ seen) then [DuplicateArgument a] else []) ++
             match argdef with
             | Some t =>
                 let ok := match v with
                           | FNull => negb (is_non_null t)
                           | FStr _ => bool_decide (named_type t = "String") || bool_decide (named_type t = "ID")
                           | FInt z => bool_decide (named_type t = "ID") || bool_decide (named_type t = "Float") ||
                                       (bool_decide (named_type t = "Int") &&
                                        bool_decide (-2147483648 <= z <= 2147483647)%Z)
                           | FBool _ => bool_decide (named_type t = "Boolean")
                           end in
                 if ok then [] else [BadValue t v]
             | None => []
             end ++ args_errors (a :: seen) l'
         end) [] args ++
      (* OverlappingFieldsCanBeMergedRule on the selection set *)
      match sub with [] => [] | _ => conflicts_within sub end ++
      (* the sub-fields, on the field's named type *)
      concat ((fix go (l : list selection) : list (list vrule_error) :=
                 match l with
                 | [] => []
                 | s1 :: l' =>
                     validate_field (fd ≫= fun fd => if is_scalar (named_type (fd_type fd)) then None
                                                     else find_type schema (named_type (fd_type fd))) s1
                     :: go l'
                 end) sub) ++
      (* ProvidedRequiredArgumentsRule, on leaving the field *)
      match fd with
      | Some fd =>
          omap (fun '(a, t) => if is_non_null t && negb (bool_decide (is_Some (assoc a args)))
                               then Some (MissingArgument f a t) else None) (fd_args fd)
      | None => []
      end
  end.

End Validation.

(** The rules on a query: the root selection set on [Query]. *)
Definition validate (schema : list object_type) (q : list selection) : list vrule_error :=
  conflicts_within q ++ concat (validate_field schema (find_type schema "Query") <$> q).

(** ** Merging selections of one response name *)

Definition sel_sub (s : selection) : list selection := match s with Sel _ _ sub => sub end.

Fixpoint sel_depth (s : selection) : nat :=
  match s with
  | Sel _ _ sub => S ((fix go (l : list selection) : nat :=
                         match l with [] => 0 | s1 :: l' => sel_depth s1 `max` go l' end) sub)
  end.

Definition sels_depth (l : list selection) : nat := foldr (fun s n => sel_depth s `max` n) 0 l.

(** [collectFields]: a selection joins the first one of its response
    name, which keeps its arguments and gains its sub-selection, or comes
    last. *)
Fixpoint add_field (acc : list selection) (s : selection) : list selection :=
  match acc with
  | [] => [s]
  | Sel f a sub :: acc' =>
      if decide (f = sel_name s) then Sel f a (sub ++ sel_sub s) :: acc'
      else Sel f a sub :: add_field acc' s
  end.

Definition collect_fields (sels : list selection) : list selection := foldl add_field [] sels.

(** [collectFields] at every level, for [fuel] levels. *)
Fixpoint normalize_with (fuel : nat) (sels : list selection) : list selection :=
  match fuel with
  | 0 => sels
  | S n => (fun s => match s with Sel f a sub => Sel f a (normalize_with n sub) end) <$> collect_fields sels
  end.

(** Field names distinct at every level. *)
Fixpoint sel_distinct (s : selection) : bool :=
  match s with
  | Sel _ _ sub =>
      bool_decide (NoDup (sel_name <$> sub)) &&
      (fix go (l : list selection) : bool :=
         match l with [] => true | s1 :: l' => sel_distinct s1 && go l' end) sub
  end.

Definition distinct_fields (q : list selection) : bool :=
  bool_decide (NoDup (sel_name <$> q)) && forallb sel_distinct q.

(** ** Answering a request *)

Inductive request_result :=
| Executed (r : response)
| ValidationFailed (errors : list vrule_error).

(** The server of lines 94-97 answering a request: validation, then
    execution of the query merged at each of its levels. *)
Definition handle_request {S} `{!DocStore S} (s : S) (q : list selection) : request_result :=
  match validate typeDefs q with
  | [] => Executed (server s (normalize_with (sels_depth q) q))
  | errs => ValidationFailed errs
  end.

(** ** Merging is complete *)

Lemma sel_depth_eq f a sub : sel_depth (Sel f a sub) = S (sels_depth sub).
Proof. reflexivity. Qed.

Lemma sel_distinct_eq f a sub : sel_distinct (Sel f a sub) = distinct_fields sub.
Proof. reflexivity. Qed.

Lemma sels_depth_app l1 l2 : sels_depth (l1 ++ l2) = sels_depth l1 `max` sels_depth l2.
Proof. induction l1 as [|s1 l1 IH]; simpl; lia. Qed.

Lemma sels_depth_elem s l : s ∈ l -> sels_depth (sel_sub s) < sels_depth l.
Proof.
  induction l as [|s1 l IH]; intros Hin; [by apply elem_of_nil in Hin|].
  change (sels_depth (s1 :: l)) with (sel_depth s1 `max` sels_depth l).
  apply elem_of_cons in Hin as [->|Hin].
  - destruct s1 as [f a sub]. rewrite sel_depth_eq. simpl sel_sub. lia.
  - specialize (IH Hin). lia.
Qed.

Lemma sels_depth_nil l : sels_depth l = 0 -> l = [].
Proof.
  destruct l as [|[f a sub] l]; [done|].
  change (sels_depth (Sel f a sub :: l)) with (sel_depth (Sel f a sub) `max` sels_depth l).
  rewrite sel_depth_eq. lia.
Qed.

Lemma add_field_names acc s :
  sel_name <$> add_field acc s =
  if decide (sel_name s ∈ sel_name <$> acc) then sel_name <$> acc else (sel_name <$> acc) ++ [sel_name s].
Proof.
  induction acc as [|[f a sub] acc IH]; simpl; [done|].
  destruct (decide (f = sel_name s)) as [Hf|Hf].
  - simpl. rewrite (decide_True (P := sel_name s ∈ _)); [done|]. rewrite <- Hf. by left.
  - rewrite !fmap_cons, IH. cbn [sel_name]. destruct (decide (sel_name s ∈ _)) as [Hin|Hnin].
    + rewrite decide_True; [done|by right].
    + rewrite decide_False; [done|]. rewrite elem_of_cons. intros [?|?]; [congruence|done].
Qed.

Lemma add_field_NoDup acc s : NoDup (sel_name <$> acc) -> NoDup (sel_name <$> add_field acc s).
Proof.
  intros Hnd. rewrite add_field_names. case_decide; [done|].
  apply NoDup_app. split_and!; [done| |by apply NoDup_singleton].
  intros x Hx ->%list_elem_of_singleton. done.
Qed.

Lemma collect_fields_NoDup sels : NoDup (sel_name <$> collect_fields sels).
Proof.
  unfold collect_fields. cut (forall acc, NoDup (sel_name <$> acc) -> NoDup (sel_name <$> foldl add_field acc sels)).
  { intros H. apply H. constructor. }
  induction sels as [|s sels IH]; intros acc Hnd; simpl; [done|]. by apply IH, add_field_NoDup.
Qed.

Lemma add_field_fresh acc s : sel_name s ∉ sel_name <$> acc -> add_field acc s = acc ++ [s].
Proof.
  induction acc as [|[f a sub] acc IH]; intros Hn; simpl; [done|].
  rewrite fmap_cons, elem_of_cons in Hn. rewrite decide_False by naive_solver.
  rewrite IH by naive_solver. done.
Qed.

Lemma foldl_add_field_distinct acc sels :
  NoDup (sel_name <$> acc ++ sels) -> foldl add_field acc sels = acc ++ sels.
Proof.
  revert acc. induction sels as [|s sels IH]; intros acc Hnd; simpl; [by rewrite app_nil_r|].
  rewrite add_field_fresh.
  - rewrite IH; [by rewrite <- app_assoc|]. by rewrite <- app_assoc.
  - rewrite fmap_app, fmap_cons in Hnd. apply NoDup_app in Hnd as (_ & Hd & _).
    intros Hin. apply (Hd _ Hin). by left.
Qed.

Lemma collect_fields_distinct sels : NoDup (sel_name <$> sels) -> collect_fields sels = sels.
Proof. intros Hnd. by apply (foldl_add_field_distinct []). Qed.

Lemma add_field_depth k acc s :
  Forall (fun x => sels_depth (sel_sub x) <= k) acc -> sels_depth (sel_sub s) <= k ->
  Forall (fun x => sels_depth (sel_sub x) <= k) (add_field acc s).
Proof.
  induction acc as [|[f a sub] acc IH]; intros Hacc Hs; simpl; [by constructor|].
  inversion Hacc as [|? ? Hx Hrest]; subst. case_decide; constructor; simpl in *; try done.
  - rewrite sels_depth_app. lia.
  - by apply IH.
Qed.

Lemma foldl_add_field_depth k acc sels :
  Forall (fun x => sels_depth (sel_sub x) <= k) acc -> Forall (fun s => sels_depth (sel_sub s) <= k) sels ->
  Forall (fun x => sels_depth (sel_sub x) <= k) (foldl add_field acc sels).
Proof.
  revert acc. induction sels as [|s sels IH]; intros acc Hacc Hall; simpl; [done|].
  inversion Hall; subst. apply IH; [by apply add_field_depth|done].
Qed.

(** A merged selection is one level shallower than the selections it
    merges. *)
Lemma collect_fields_depth sels :
  Forall (fun x => S (sels_depth (sel_sub x)) <= sels_depth sels) (collect_fields sels).
Proof.
  destruct (sels_depth sels) as [|k] eqn:Hd.
  { apply sels_depth_nil in Hd as ->. constructor. }
  assert (Hall : Forall (fun s => sels_depth (sel_sub s) <= k) sels).
  { apply Forall_forall. intros s Hin. apply sels_depth_elem in Hin. lia. }
  pose proof (foldl_add_field_depth k [] sels (List.Forall_nil _) Hall) as H.
  eapply Forall_impl; [exact H|]. intros x Hx. cbv beta in *. lia.
Qed.

Lemma normalize_with_names n sels : sel_name <$> normalize_with (S n) sels = sel_name <$> collect_fields sels.
Proof. simpl. rewrite <- list_fmap_compose. apply list_fmap_ext. by intros ? [f a sub] _. Qed.

Lemma normalize_with_distinct n sels : sels_depth sels <= n -> distinct_fields (normalize_with n sels) = true.
Proof.
  revert sels. induction n as [|n IH]; intros sels Hd.
  - assert (sels_depth sels = 0) as ->%sels_depth_nil by lia. done.
  - unfold distinct_fields. apply andb_true_intro. split.
    + apply bool_decide_eq_true. rewrite normalize_with_names. apply collect_fields_NoDup.
    + simpl. apply forallb_forall. intros x (y & -> & Hy)%list_elem_of_In%list_elem_of_fmap.
      destruct y as [f a sub]. rewrite sel_distinct_eq. apply IH.
      pose proof (collect_fields_depth sels) as Hall. rewrite Forall_forall in Hall.
      specialize (Hall _ Hy). simpl in Hall. lia.
Qed.

Lemma normalize_with_id n sels : distinct_fields sels = true -> normalize_with n sels = sels.
Proof.
  revert sels. induction n as [|n IH]; intros sels Hd; [done|]. simpl.
  unfold distinct_fields in Hd. apply andb_prop in Hd as [Hnd Hall].
  apply bool_decide_eq_true in Hnd. rewrite collect_fields_distinct by done.
  rewrite forallb_forall in Hall. rewrite <- (list_fmap_id sels) at 2. apply list_fmap_ext.
  intros i [f a sub] Hi. apply list_elem_of_lookup_2, list_elem_of_In in Hi. specialize (Hall _ Hi).
  rewrite sel_distinct_eq in Hall. by rewrite IH.
Qed.

(** ** Properties *)

Section Requests.
Context {S : Type} `{!DocStore S}.

(** A request that passes validation is executed on its query
    merged by response name at every level (the depth of the query is
    enough fuel): the executed query has distinct field names at every
    level. *)
Theorem valid_request_merged (s : S) (q : list selection) :
  validate typeDefs q = [] ->
  handle_request s q = Executed (server s (normalize_with (sels_depth q) q)) /\
  distinct_fields (normalize_with (sels_depth q) q) = true.
Proof. intros Hv. unfold handle_request. rewrite Hv. split; [done|]. by apply normalize_with_distinct. Qed.

(** A valid request whose field names are distinct at every level
    is answered by executing it as written: every theorem on [server]
    is a theorem on the requests the server of lines 94-97 receives. *)
Theorem valid_request_executes (s : S) (q : list selection) :
  validate typeDefs q = [] -> distinct_fields q = true ->
  handle_request s q = Executed (server s q).
Proof. intros Hv Hd. unfold handle_request. rewrite Hv. by rewrite normalize_with_id. Qed.

End Requests.

(** The field [user] without its argument: the errors of the
    sub-selection, then the missing argument on leaving the field. *)
Lemma validate_user_without_id sub :
  exists errs, validate typeDefs [Sel "user" [] sub] =
               errs ++ [MissingArgument "user" "id" (TNonNull (TNamed "String"))].
Proof. unfold validate. simpl. eexists. by rewrite app_nil_r, !app_assoc. Qed.

(** C21: a request for [user] without the [id] argument fails
    validation, whatever its sub-selection, with the missing argument
    reported last and no resolver run: the answer is the same for every
    store. *)
Theorem user_without_id_rejected (sub : list selection) :
  exists errs, (forall (S : Type) (ops : DocStore S) (s : S),
                  @handle_request S ops s [Sel "user" [] sub] = ValidationFailed errs) /\
               last errs = Some (MissingArgument "user" "id" (TNonNull (TNamed "String"))).
Proof.
  destruct (validate_user_without_id sub) as [errs Hv].
  exists (errs ++ [MissingArgument "user" "id" (TNonNull (TNamed "String"))]). split.
  - intros S ops s. unfold handle_request. rewrite Hv. by destruct errs.
  - by rewrite last_snoc.
Qed.

(** An empty list of errors has no error anywhere. *)
Ltac no_errors :=
  repeat match goal with
         | H : _ ++ _ = [] |- _ => apply app_eq_nil in H as [? ?]
         end; simplify_eq.

Lemma concat_nil_elem {A} (ls : list (list A)) l : concat ls = [] -> l ∈ ls -> l = [].
Proof.
  induction ls as [|l0 ls IH]; simpl; intros Hc Hin; [by apply elem_of_nil in Hin|].
  apply app_eq_nil in Hc as [-> Hc]. apply elem_of_cons in Hin as [->|Hin]; [done|]. by apply IH.
Qed.

(** [user] passes the rules only with exactly one argument [id], a
    string. *)
Lemma validate_user_args args sub :
  validate_field typeDefs (Some Query_type) (Sel "user" args sub) = [] ->
  exists k, args = [("id", FStr k)].
Proof.
  destruct args as [|[a v] [|[a' v'] rest]]; simpl; intros H; no_errors.
  - destruct (decide (a = "id")) as [->|Ha]; simplify_eq/=; no_errors.
    destruct v; simpl in *; no_errors; by eexists.
  - destruct (decide (a = "id")) as [->|Ha]; [destruct (decide (a' = "id")) as [->|Ha']|];
      simplify_eq/=; no_errors.
Qed.

(** C22: in a request that passes validation, every selection of the
    root field [user] has exactly one argument, [id], and it is a
    string: the resolver's [args.id] (line 82) is always a string. *)
Theorem valid_user_id_string (q : list selection) args sub :
  validate typeDefs q = [] -> Sel "user" args sub ∈ q -> exists k, args = [("id", FStr k)].
Proof.
  unfold validate. intros Hv Hin. apply app_eq_nil in Hv as [_ Hc].
  apply (validate_user_args _ sub), (concat_nil_elem _ _ Hc).
  by apply (list_elem_of_fmap_2 (validate_field typeDefs (find_type typeDefs "Query"))).
Qed.

(** [doc('users/')] has one segment: [Query.user] rejects before any
    read, whatever the store. *)
Lemma query_user_empty_id {S} `{!DocStore S} (s : S) :
  query_user s (id_args "") =
  Rejected (apollo_error_of (plain_error ("Value for argument documentPath must point to a document, "
    +:+ "but was users/. Your path does not contain an even number of components."))).
Proof. reflexivity. Qed.

Section EmptyId.
Context {S : Type} `{!DocStore S}.

Local Opaque query_user args_object.
Local Arguments resolve_field _ _ _ _ _ /.

(** C23: the empty id passes validation ([String!] accepts it), but
    [users/] names no document: [doc] throws, and the answer is
    [user: null] with an internal error carrying [doc]'s message, not
    "User not found.", whatever the store holds. *)
Theorem empty_id_internal_error (s : S) (sub : list selection) :
  validate typeDefs [Sel "user" [("id", FStr "")] sub] = [] ->
  handle_request s [Sel "user" [("id", FStr "")] sub] =
  Executed (Response (RObject [("user", RNull)])
    [GqlError ("Error: Value for argument documentPath must point to a document, but was users/. "
               +:+ "Your path does not contain an even number of components.")
              [PKey "user"] (Some "INTERNAL_SERVER_ERROR")]).
Proof.
  intros Hv. unfold handle_request. rewrite Hv. cbn -[server].
  unfold server, execute_query. simpl.
  change (args_object [("id", FStr "")]) with (id_args ""). by rewrite query_user_empty_id.
Qed.

End EmptyId.
