(* ===== verification/Bounds.v ===== *)
(** * Bounds: the size of a response is bounded by its query

    The data of a response nests no deeper than the query asks: every
    selected field contributes an object level and, since no field of
    [typeDefs] is more than one list deep, at most one list level.  The
    bound is stated on the depth of the response data ([rdepth]) against
    the depth of the query ([sels_depth]) and holds for every store and
    every query, whatever fails during execution: it follows from the
    conformance of responses to the schema ([Execute]). *)
From S2P Require Import Prelude Js Firestore Schema Resolvers Execute Api Validate.
From stdpp Require Import options.

Local Open Scope string_scope.
Local Open Scope list_scope.

(** ** Depths *)

Fixpoint rdepth (v : rvalue) : nat :=
  match v with
  | RNull | RString _ => 0
  | RList xs =>
      S ((fix go (l : list rvalue) : nat :=
            match l with [] => 0 | x :: l' => rdepth x `max` go l' end) xs)
  | RObject fs =>
      S ((fix go (l : list (string * rvalue)) : nat :=
            match l with [] => 0 | (_, x) :: l' => rdepth x `max` go l' end) fs)
  end.

(** The list wrappers of a type. *)
Fixpoint list_depth (t : gtype) : nat :=
  match t with
  | TNamed _ => 0
  | TList t' => S (list_depth t')
  | TNonNull t' => list_depth t'
  end.

(** ** Lemmas *)

Lemma rdepth_list xs n : (forall x, x ∈ xs -> rdepth x <= n) -> rdepth (RList xs) <= S n.
Proof.
  induction xs as [|x xs IH]; intros Hall; [simpl; lia|].
  change (rdepth (RList (x :: xs))) with (S (rdepth x `max` pred (rdepth (RList xs)))).
  pose proof (Hall x ltac:(by left)).
  assert (rdepth (RList xs) <= S n) by (apply IH; intros y Hy; apply Hall; by right).
  lia.
Qed.

Lemma rdepth_object fs n : (forall k x, (k, x) ∈ fs -> rdepth x <= n) -> rdepth (RObject fs) <= S n.
Proof.
  induction fs as [|[k x] fs IH]; intros Hall; [simpl; lia|].
  change (rdepth (RObject ((k, x) :: fs))) with (S (rdepth x `max` pred (rdepth (RObject fs)))).
  pose proof (Hall k x ltac:(by left)).
  assert (rdepth (RObject fs) <= S n) by (apply IH; intros k' y Hy; eapply Hall; by right).
  lia.
Qed.

Lemma fields_conform_elem sc ot sels fs k x :
  fields_conform_with sc ot sels fs -> (k, x) ∈ fs -> exists s, s ∈ sels /\ sc ot s x.
Proof.
  revert fs. induction sels as [|s1 sels IH]; intros [|[k1 x1] fs] Hc Hin; simpl in Hc; try done;
    [by apply elem_of_nil in Hin|].
  destruct Hc as (_ & Hs1 & Hrest). apply elem_of_cons in Hin as [[= -> ->]|Hin].
  - exists s1. split; [by left|done].
  - destruct (IH fs Hrest Hin) as (s & Hs & Hsc). exists s. split; [by right|done].
Qed.

Lemma sel_depth_le s sels : s ∈ sels -> sel_depth s <= sels_depth sels.
Proof.
  induction sels as [|s1 sels IH]; intros Hin; [by apply elem_of_nil in Hin|].
  change (sels_depth (s1 :: sels)) with (sel_depth s1 `max` sels_depth sels).
  apply elem_of_cons in Hin as [->|Hin]; [lia|]. specialize (IH Hin). lia.
Qed.

Lemma find_type_elem schema n ot : find_type schema n = Some ot -> ot ∈ schema.
Proof. intros Hf. apply list_elem_of_In. by eapply List.find_some. Qed.

Lemma find_field_elem ot f fd : find_field ot f = Some fd -> fd ∈ ot_fields ot.
Proof. intros Hf. apply list_elem_of_In. by eapply List.find_some. Qed.

(** No field of [typeDefs] is more than one list deep. *)
Lemma typeDefs_shallow ot fd : ot ∈ typeDefs -> fd ∈ ot_fields ot -> list_depth (fd_type fd) <= 1.
Proof.
  intros Hot Hfd. unfold typeDefs in Hot.
  repeat (apply elem_of_cons in Hot as [->|Hot]; [simpl in Hfd; repeat (apply elem_of_cons in Hfd as [->|Hfd]; [simpl; lia|]);
                                                   by apply elem_of_nil in Hfd|]).
  by apply elem_of_nil in Hot.
Qed.

Section Depth.
Local Abbreviation tconf := (type_conforms_with typeDefs (sel_conforms typeDefs)).

Lemma type_conforms_depth sub :
  Forall (fun s => forall ot rv, ot ∈ typeDefs -> sel_conforms typeDefs ot s rv -> rdepth rv <= 2 * sel_depth s) sub ->
  forall t rv, tconf sub t rv -> rdepth rv <= list_depth t + 1 + 2 * sels_depth sub.
Proof.
  intros IH t. induction t as [n|t IHt|t IHt]; intros rv Hc; simpl in Hc.
  - destruct Hc as [->|Hc]; [simpl; lia|]. destruct (is_scalar n).
    + destruct Hc as [str ->]. simpl. lia.
    + destruct Hc as (ot' & fs & Hot & -> & Hfs). simpl.
      apply (rdepth_object fs (2 * sels_depth sub)). intros k x Hin.
      destruct (fields_conform_elem _ _ _ _ _ _ Hfs Hin) as (s & Hs & Hsc).
      rewrite Forall_forall in IH. pose proof (IH s Hs ot' x (find_type_elem typeDefs n ot' Hot) Hsc).
      pose proof (sel_depth_le s sub Hs). lia.
  - destruct Hc as [->|(xs & -> & Hxs)]; [simpl; lia|].
    apply (rdepth_list xs (list_depth t + 1 + 2 * sels_depth sub)).
    intros x Hx. rewrite Forall_forall in Hxs. by apply IHt, Hxs.
  - destruct Hc as [_ Hc]. by apply IHt.
Qed.

(** A field of a type of [typeDefs] answers at most two levels per level
    of its selection. *)
Lemma sel_conforms_depth s :
  forall ot rv, ot ∈ typeDefs -> sel_conforms typeDefs ot s rv -> rdepth rv <= 2 * sel_depth s.
Proof.
  induction s as [f args sub IH] using selection_ind'.
  intros ot rv Hot. cbn [sel_conforms]. destruct (find_field ot f) as [fd|] eqn:Hf; [|done].
  intros Hc. rewrite sel_depth_eq.
  pose proof (typeDefs_shallow ot fd Hot (find_field_elem _ _ _ Hf)).
  pose proof (type_conforms_depth sub IH (fd_type fd) rv Hc). lia.
Qed.

End Depth.

Section Claims.
Context {S : Type} `{!DocStore S}.

(** Whatever the store holds and whatever fails, the data of the
    server's response nests at most twice as deep as the query, plus the
    root object. *)
Theorem response_depth_bound (s : S) (q : list selection) :
  rdepth (resp_data (server s q)) <= 2 * sels_depth q + 1.
Proof.
  rewrite server_eq. destruct (execute_fields_with _ _ _ _ _) as [es [e|fs]] eqn:He; simpl; [lia|].
  apply execute_fields_conform_all in He.
  rewrite Nat.add_1_r. apply rdepth_object. intros k x Hin.
  destruct (fields_conform_elem _ _ _ _ _ _ He Hin) as (s1 & Hs & Hsc).
  pose proof (sel_conforms_depth s1 Query_type x ltac:(unfold typeDefs; set_solver) Hsc).
  pose proof (sel_depth_le s1 q Hs). lia.
Qed.

End Claims.
