(* ===== verification/Integrity.v ===== *)
(** * Integrity: what the resolvers guarantee on a consistent database

    The system enforces no invariant on the documents it reads (spec,
    section 3).  [User.items] matches items on the parent's stored [id]
    field, while [Item.user] reads the user document named by the item's
    [userId]: the two relations agree only when every user document
    stores its own key as [id] and every item names its owner by a plain
    key.  This file states these conditions as decidable predicates on
    the view ([keyed_store], [referential]) and proves what they buy: the
    two resolvers are inverse to each other, and [items { user { id } }]
    answers every item with its owner and no error. *)
From Stdlib Require Import Ascii.
From S2P Require Import Prelude Js Firestore Schema Resolvers Execute Api.
From stdpp Require Import options.

Local Open Scope string_scope.
Local Open Scope list_scope.

(** ** Consistency conditions on the view *)

Definition plain_key (k : string) : bool := negb (bool_decide (k = "")) && negb (str_has_char "/"%char k).

(** A user document stores its key as [id]; an item names its owner by
    a plain key in [userId]. *)
Definition doc_keyed (p : list string) (d : doc) : bool :=
  match p with
  | [c; k] =>
      if decide (c = "users") then bool_decide (d !! "id" = Some (FStr k))
      else if decide (c = "items") then
        match d !! "userId" with Some (FStr o) => plain_key o | _ => false end
      else true
  | _ => true
  end.

(** The owner of an item exists. *)
Definition owner_exists (view : gmap (list string) doc) (p : list string) (d : doc) : bool :=
  match p with
  | [c; _] =>
      if decide (c = "items") then
        match d !! "userId" with Some (FStr o) => bool_decide (is_Some (view !! ["users"; o])) | _ => false end
      else true
  | _ => true
  end.

Definition keyed_store (view : gmap (list string) doc) : Prop :=
  map_Forall (fun p d => doc_keyed p d = true) view.

Definition referential (view : gmap (list string) doc) : Prop :=
  map_Forall (fun p d => owner_exists view p d = true) view.

#[export] Instance keyed_store_dec view : Decision (keyed_store view).
Proof. unfold keyed_store. apply _. Defined.

#[export] Instance referential_dec view : Decision (referential view).
Proof. unfold referential. apply _. Defined.

(** The owner key an item stores. *)
Definition owner_key (d : doc) : string :=
  match d !! "userId" with Some (FStr k) => k | _ => "" end.

(** ** Reading the conditions *)

Lemma keyed_user view k u :
  keyed_store view -> view !! ["users"; k] = Some u -> u !! "id" = Some (FStr k).
Proof. intros Hk Hu. specialize (Hk _ _ Hu). simpl in Hk. by apply bool_decide_eq_true in Hk. Qed.

Lemma keyed_item view i d :
  keyed_store view -> view !! ["items"; i] = Some d ->
  d !! "userId" = Some (FStr (owner_key d)) /\ owner_key d <> "" /\
  str_has_char "/"%char (owner_key d) = false.
Proof.
  intros Hk Hd. specialize (Hk _ _ Hd). simpl in Hk. unfold owner_key.
  destruct (d !! "userId") as [[o| | |]|]; try done.
  unfold plain_key in Hk. apply andb_prop in Hk as [H1 H2].
  apply negb_true_iff in H1, H2. apply bool_decide_eq_false in H1. done.
Qed.

Lemma referential_item view i d :
  referential view -> view !! ["items"; i] = Some d ->
  exists u, view !! ["users"; owner_key d] = Some u.
Proof.
  intros Hr Hd. specialize (Hr _ _ Hd). simpl in Hr. unfold owner_key.
  destruct (d !! "userId") as [[o| | |]|]; try done.
  apply bool_decide_eq_true in Hr as [u Hu]. by exists u.
Qed.

Section Claims.
Context {S : Type} `{!DocStore S, !DocStoreLaws S}.

(** C19: on a keyed store without faults, [User.items] and [Item.user]
    are inverse: an item is listed among the items of the user stored
    at [users/k] exactly when [Item.user] of that item returns this
    user. *)
Theorem user_items_iff_item_user (s : S) (k i : string) (u d : doc) :
  (forall p, store_fault s p = None) -> keyed_store (store_view s) ->
  store_view s !! ["users"; k] = Some u -> store_view s !! ["items"; i] = Some d ->
  exists qs, user_items s (JObject u) = Fulfilled (docs_data qs) /\
    ((i, d) ∈ qs <-> item_user s (JObject d) = Fulfilled (JObject u)).
Proof.
  intros Hh Hk Hu Hd.
  pose proof (keyed_user _ _ _ Hk Hu) as Hid.
  destruct (keyed_item _ _ _ Hk Hd) as (Ho & Hne & Hc).
  rewrite (user_items_eq s u _ Hid).
  destruct (run_query_ok s (Query ["items"] [("userId", of_fvalue (FStr k))]) (Hh _)) as (qs & -> & Hl).
  exists qs. split; [done|].
  rewrite (listing_eq_filter _ _ _ _ _ Hl), (item_user_ok s d (owner_key d)) by auto.
  split.
  - intros [_ Hk']. rewrite Ho in Hk'. simplify_eq. by rewrite Hu.
  - intros Hr. split; [done|].
    destruct (store_view s !! ["users"; owner_key d]) as [u'|] eqn:Hu'; simplify_eq/=.
    pose proof (keyed_user _ _ _ Hk Hu') as Hid'. rewrite Ho. congruence.
Qed.

End Claims.

Section Responses.
Context {S : Type} `{!DocStore S, !DocStoreLaws S}.

Local Opaque user_items item_user query_items query_user args_object.
Local Arguments resolve_field _ _ _ _ _ /.

(** The selection [user { id }] of an item. *)
Definition owner_sel : list selection := [Sel "user" [] [Sel "id" [] []]].

(** The answer to [user { id }] for an item with an existing owner. *)
Definition owner_answer (d : doc) : rvalue := RObject [("user", RObject [("id", RString (owner_key d))])].

Lemma item_owner_answer (s : S) i d p :
  (forall p, store_fault s p = None) -> keyed_store (store_view s) -> referential (store_view s) ->
  store_view s !! ["items"; i] = Some d ->
  complete_value_with typeDefs (execute_field typeDefs (lookup_resolver s)) "Query" "items" owner_sel
    (TNamed "Item") (JObject d) p = ([], inr (owner_answer d)).
Proof.
  intros Hh Hk Hr Hd. destruct (keyed_item _ _ _ Hk Hd) as (Ho & Hne & Hc).
  destruct (referential_item _ _ _ Hr Hd) as [u Hu]. simpl.
  rewrite (item_user_ok s d (owner_key d)), Hu by auto. simpl.
  by rewrite (keyed_user _ _ _ Hk Hu).
Qed.

Lemma items_owner_answers (s : S) p (qs : list (string * doc)) :
  (forall p, store_fault s p = None) -> keyed_store (store_view s) -> referential (store_view s) ->
  Forall (fun '(i, d) => store_view s !! ["items"; i] = Some d) qs ->
  forall n, complete_items typeDefs (execute_field typeDefs (lookup_resolver s)) "Query" "items" owner_sel
    (TNamed "Item") p ((fun '(_, d) => JObject d) <$> qs) n = ([], inr ((fun '(_, d) => owner_answer d) <$> qs)).
Proof.
  intros Hh Hk Hr Hall. induction Hall as [|[i d] qs Hd _ IH]; intros n; [done|].
  rewrite fmap_cons, complete_items_cons, (item_owner_answer s i d) by done.
  by rewrite IH.
Qed.

(** C20: on a keyed, referential store without faults, the query
    [items { user { id } }] answers every item of the collection, once
    each, with its owner's id, and reports no error. *)
Theorem items_with_owners (s : S) :
  (forall p, store_fault s p = None) -> keyed_store (store_view s) -> referential (store_view s) ->
  exists qs, query_listing (store_view s) (Query ["items"] []) qs /\
    server s [Sel "items" [] owner_sel] =
    Response (RObject [("items", RList ((fun '(_, d) => owner_answer d) <$> qs))]) [].
Proof.
  intros Hh Hk Hr. destruct (query_items_ok s (Hh _)) as (qs & Hq & Hl).
  exists qs. split; [done|].
  rewrite server_eq, execute_fields_with_cons, execute_fields_with_nil.
  rewrite (execute_field_fulfilled _ _ Query_type JUndefined "items" [] owner_sel []
             (FieldDef "items" [] (TList (TNamed "Item"))) (docs_data qs)); [|done|exact Hq].
  cbn [ot_name fd_type app Query_type]. unfold docs_data.
  rewrite complete_list_array_eq, (items_owner_answers s); [done..|].
  apply Forall_forall. intros [i d] Hin. by apply Hl in Hin as [? _].
Qed.

End Responses.
