(* ===== verification/Lifecycle.v ===== *)
(** * Lifecycle: the process of index.ts, from module load to serving

    Loading the module runs its statements in order: [require] of the
    credential file (line 4), [initializeApp] with [credential.cert] of
    it (lines 6-8), [new ApolloServer] (lines 94-97) and [server.listen()]
    (line 99), whose promise prints the startup line when it resolves
    (lines 100-102).  An exception thrown while the module loads ends the
    process; so does the rejection of the listen promise, which has no
    [catch] (an unhandled rejection).  Once listening, the process answers
    requests, each with [handle_request] (validation, then execution) on
    the store as it is when the request arrives.

    [boot_step] is one statement of the module load, executable;
    [pstep] adds the arrival of a request and is the process's step
    relation.  The environment ([env]) gives what the process meets: the
    credential file, the private-key parser of the credential library and
    the outcome of binding the port. *)
From Stdlib Require Import Ascii.
From S2P Require Import Prelude Js Firestore Schema Resolvers Execute Api Validate.
From stdpp Require Import options.

Local Open Scope string_scope.
Local Open Scope list_scope.

(** A string in double quotes, as the libraries print names. *)
Definition dq (s : string) : string := String "034"%char (s +:+ String "034"%char EmptyString).

(** ** Line 4: [require('../service-account.json')] *)

Inductive json_file :=
| FileMissing
| FileMalformed (message : string)
| FileJson (contents : jsval).

(** A missing file throws [MODULE_NOT_FOUND] (its Node [code], not an
    Apollo code); a file that is not JSON throws a [SyntaxError]. *)
Definition module_not_found : js_error := plain_error "Cannot find module '../service-account.json'".

Definition require_json (f : json_file) : outcome jsval :=
  match f with
  | FileMissing => Rejected module_not_found
  | FileMalformed m => Rejected (JsError ErrorClass "SyntaxError" m None)
  | FileJson v => Fulfilled v
  end.

(** ** Lines 6-8: [initializeApp({ credential: credential.cert(serviceAccount) })] *)

Record credential := Credential {
  cred_project_id : string;
  cred_private_key : string;
  cred_client_email : string
}.

Record app := App { app_name : string; app_credential : credential }.

(** [copyAttr]: the camel-case property, or the snake-case one when the
    first is falsy. *)
Definition copy_attr (sa : jsval) (key alt : string) : jsval :=
  js_or (js_get sa key) (js_get sa alt).

(** [isNonEmptyString] *)
Definition non_empty_string (v : jsval) : option string :=
  match v with
  | JStr s => if bool_decide (s = "") then None else Some s
  | _ => None
  end.

(** [credential.cert(serviceAccount)]: the [ServiceAccount] constructor,
    which throws a [FirebaseAppError] (code [app/invalid-credential]).
    [pem_error] is the private-key parser: the message it throws, if
    any. *)
Definition credential_cert (pem_error : string -> option string) (sa : jsval) : outcome credential :=
  match sa with
  | JObject _ =>
      match non_empty_string (copy_attr sa "projectId" "project_id"),
            non_empty_string (copy_attr sa "privateKey" "private_key"),
            non_empty_string (copy_attr sa "clientEmail" "client_email") with
      | None, _, _ => Rejected (plain_error ("Service account object must contain a string "
                                              +:+ dq "project_id" +:+ " property."))
      | Some _, None, _ => Rejected (plain_error ("Service account object must contain a string "
                                                 +:+ dq "private_key" +:+ " property."))
      | Some _, Some _, None => Rejected (plain_error ("Service account object must contain a string "
                                                      +:+ dq "client_email" +:+ " property."))
      | Some p, Some k, Some e =>
          match pem_error k with
          | Some m => Rejected (plain_error ("Failed to parse private key: " +:+ m))
          | None => Fulfilled (Credential p k e)
          end
      end
  | _ => Rejected (plain_error "Service account must be an object.")
  end.

(** [initializeApp(options)] under the default name. *)
Definition initialize_app (default : option app) (c : credential) : outcome app :=
  match default with
  | Some _ => Rejected (plain_error ("The default Firebase app already exists. This means you called "
      +:+ "initializeApp() more than once without providing an app name as the second argument. In "
      +:+ "most cases you only need to call initializeApp() once. But if you do want to initialize "
      +:+ "multiple apps, pass a second argument to initializeApp() to give each app a unique name."))
  | None => Fulfilled (App "[DEFAULT]" c)
  end.

(** ** Lines 94-97: [new ApolloServer({ typeDefs, resolvers })] *)

(** [addResolversToSchema]: the first type or field of the resolver map
    the schema does not declare. *)
Fixpoint check_resolver_names (schema : list object_type)
    (names : list (string * list string)) : option js_error :=
  match names with
  | [] => None
  | (tn, fs) :: rest =>
      match find_type schema tn with
      | None => Some (plain_error (dq tn +:+ " defined in resolvers, but not in schema"))
      | Some ot =>
          match List.find (fun f => negb (bool_decide (is_Some (find_field ot f)))) fs with
          | Some f => Some (plain_error (tn +:+ "." +:+ f +:+ " defined in resolvers, but not in schema"))
          | None => check_resolver_names schema rest
          end
      end
  end.

(** The schema is built from the type definitions, then the resolvers
    are attached to it. *)
Definition build_server (schema : list object_type) (names : list (string * list string)) : outcome unit :=
  if schema_wf schema then
    match check_resolver_names schema names with
    | Some e => Rejected e
    | None => Fulfilled tt
    end
  else Rejected (plain_error "Invalid schema.").

(** ** Lines 99-102: [server.listen().then(({ url }) => console.log(...))] *)

Definition ready_line (url : string) : string := "🚀 Server ready at " +:+ url.

(** ** The process *)

(** The statement the module load runs next, or the state it ended in. *)
Inductive phase :=
| Loading
| Credentialed (service_account : jsval)
| Configured
| Built
| Binding
| Serving (url : string)
| Exited (e : js_error).

Inductive event :=
| EvStdout (line : string)
| EvAnswer (q : list selection) (r : request_result)
| EvCrash (e : js_error).

Record proc := Proc {
  ph : phase;
  default_app : option app;
  output : list event
}.

Record env := Env {
  env_file : json_file;
  env_pem : string -> option string;
  env_listen : outcome string
}.

Definition init : proc := Proc Loading None [].

Definition crash (p : proc) (e : js_error) : proc :=
  Proc (Exited e) (default_app p) (output p ++ [EvCrash e]).

Definition booting (x : phase) : bool :=
  match x with Serving _ | Exited _ => false | _ => true end.

Section Process.
Context {Store : Type} `{!DocStore Store}.
Variable E : env.
(** The store as the server is built; the resolver map does not depend
    on its contents. *)
Variable s0 : Store.

(** One statement of the module load. *)
Definition boot_step (p : proc) : option proc :=
  match ph p with
  | Loading =>
      Some (match require_json (env_file E) with
            | Fulfilled sa => Proc (Credentialed sa) (default_app p) (output p)
            | Rejected e => crash p e
            end)
  | Credentialed sa =>
      Some (match (c <- credential_cert (env_pem E) sa ;; initialize_app (default_app p) c)%settled with
            | Fulfilled a => Proc Configured (Some a) (output p)
            | Rejected e => crash p e
            end)
  | Configured =>
      Some (match build_server typeDefs (resolver_names s0) with
            | Fulfilled _ => Proc Built (default_app p) (output p)
            | Rejected e => crash p e
            end)
  | Built => Some (Proc Binding (default_app p) (output p))
  | Binding =>
      Some (match env_listen E with
            | Fulfilled url => Proc (Serving url) (default_app p) (output p ++ [EvStdout (ready_line url)])
            | Rejected e => crash p e
            end)
  | Serving _ | Exited _ => None
  end.

(** The module load run for at most [fuel] statements. *)
Fixpoint boot (fuel : nat) (p : proc) : proc :=
  match fuel with
  | 0 => p
  | S n => match boot_step p with Some p' => boot n p' | None => p end
  end.

(** A step of the process: a statement of the module load, or a request
    answered on the store [s] it meets. *)
Inductive pstep : proc -> proc -> Prop :=
| pstep_boot p p' : boot_step p = Some p' -> pstep p p'
| pstep_request p url s q :
    ph p = Serving url ->
    pstep p (Proc (Serving url) (default_app p) (output p ++ [EvAnswer q (handle_request s q)])).

End Process.

(** ** Properties of the process *)

(** The statements of the module load left to run. *)
Definition boot_measure (x : phase) : nat :=
  match x with
  | Loading => 5 | Credentialed _ => 4 | Configured => 3 | Built => 2 | Binding => 1
  | Serving _ | Exited _ => 0
  end.

Section ProcessProperties.
Context {Store : Type} `{!DocStore Store}.
Variable E : env.
Variable s0 : Store.

Local Abbreviation step := (pstep E s0).
Local Abbreviation boot_step := (boot_step E s0).
Local Abbreviation boot := (boot E s0).

(** What the process has written: nothing while loading, the startup
    line first once listening and then only answers of [handle_request], and
    only its crash when it has exited.  The default app exists from
    [initializeApp] on. *)
Definition answers_only (evs : list event) : Prop :=
  Forall (fun ev => exists q (s : Store), ev = EvAnswer q (handle_request s q)) evs.

Definition proc_inv (p : proc) : Prop :=
  match ph p with
  | Loading | Credentialed _ => default_app p = None /\ output p = []
  | Configured | Built | Binding => is_Some (default_app p) /\ output p = []
  | Serving url =>
      is_Some (default_app p) /\
      exists rs, output p = EvStdout (ready_line url) :: rs /\ answers_only rs
  | Exited e => output p = [EvCrash e]
  end.

Lemma boot_step_measure p p' :
  boot_step p = Some p' -> boot_measure (ph p') < boot_measure (ph p).
Proof. unfold boot_step; destruct (ph p); intros; simplify_eq; repeat case_match; simpl; lia. Qed.

Lemma boot_step_progress p :
  booting (ph p) = true -> exists p', boot_step p = Some p'.
Proof. unfold boot_step; destruct (ph p); by eauto. Qed.

Lemma boot_step_done p : booting (ph p) = false -> boot_step p = None.
Proof. unfold boot_step; by destruct (ph p). Qed.

Lemma boot_rtc n p : rtc step p (boot n p).
Proof.
  revert p. induction n as [|n IH]; intros p; simpl; [done|].
  destruct (boot_step p) eqn:Hs; [|done].
  eapply rtc_l; [by constructor | apply IH].
Qed.

Lemma boot_finished n p :
  boot_measure (ph p) <= n -> booting (ph (boot n p)) = false.
Proof.
  revert p. induction n as [|n IH]; intros p Hm; simpl.
  - destruct (ph p); simpl in *; done || lia.
  - destruct (boot_step p) as [p'|] eqn:Hs.
    + apply IH. apply boot_step_measure in Hs. lia.
    + destruct (booting (ph p)) eqn:Hb; [|done].
      destruct (boot_step_progress p Hb) as [p' Hp']. congruence.
Qed.

Lemma boot_stopped n p : boot_step p = None -> boot n p = p.
Proof. destruct n; simpl; [done|]. by intros ->. Qed.

Lemma boot_add n m p : boot (n + m) p = boot m (boot n p).
Proof.
  revert p. induction n as [|n IH]; intros p; simpl; [done|].
  destruct (boot_step p) eqn:Hs; [done|]. by rewrite boot_stopped.
Qed.

Lemma boot_step_inv p p' : proc_inv p -> boot_step p = Some p' -> proc_inv p'.
Proof.
  unfold proc_inv, boot_step, crash.
  destruct (ph p); intros Hi Hs; simplify_eq; destruct_and?;
    repeat case_match; simplify_eq/=;
    repeat match goal with H : output p = [] |- _ => rewrite H; clear H end.
  all: try naive_solver.
  split; [done|]. exists []; split; [done|constructor].
Qed.

Lemma pstep_inv p p' : proc_inv p -> step p p' -> proc_inv p'.
Proof.
  intros Hi Hs. revert Hi. destruct Hs as [p1 p2 Hs | p1 url s q Hph]; intros Hi;
    [by eapply boot_step_inv|].
  unfold proc_inv in *. rewrite Hph in Hi. simpl.
  destruct Hi as (Ha & rs & Ho & Hrs). split; [done|].
  exists (rs ++ [EvAnswer q (handle_request s q)]). rewrite Ho. split; [done|].
  apply Forall_app. split; [done|]. repeat constructor. by eauto.
Qed.

Lemma rtc_pstep_inv p p' : proc_inv p -> rtc step p p' -> proc_inv p'.
Proof. intros Hi Hr. induction Hr; eauto using pstep_inv. Qed.

(** An exited process takes no step. *)
Lemma exited_stuck p p' e : ph p = Exited e -> ~ step p p'.
Proof.
  intros He Hs. revert He. destruct Hs as [p1 p2 Hs|]; intros He; [|congruence].
  rewrite boot_step_done in Hs; [done|]. by rewrite He.
Qed.

Lemma rtc_exited p p' e : ph p = Exited e -> rtc step p p' -> p' = p.
Proof.
  intros He Hr. revert He. destruct Hr as [|p1 p2 p3 Hs _]; intros He; [done|].
  by destruct (exited_stuck _ _ _ He Hs).
Qed.

(** A serving state is entered only from a serving state, or from
    [Binding] when the port was bound. *)
Lemma pstep_serving p p' url :
  step p p' -> ph p' = Serving url ->
  (exists url', ph p = Serving url') \/ (ph p = Binding /\ env_listen E = Fulfilled url).
Proof.
  intros [p1 p2 Hs | p1 url' s q Hph] Hp'; [|by eauto].
  revert Hs. unfold boot_step, crash. destruct (ph p1) eqn:Hph; intros; simplify_eq; eauto;
    repeat case_match; simplify_eq/=; eauto.
Qed.

Lemma listen_rejected_not_serving p p' e :
  env_listen E = Rejected e -> (forall url, ph p <> Serving url) -> rtc step p p' ->
  forall url, ph p' <> Serving url.
Proof.
  intros Hl Hp Hr. induction Hr as [|p1 p2 p3 Hs _ IH]; [done|]. apply IH.
  intros url Hu. destruct (pstep_serving _ _ _ Hs Hu) as [[url' Hu']|[_ Hl']].
  - by eapply Hp.
  - congruence.
Qed.

End ProcessProperties.

(** The program's schema and resolver map build a server. *)
Lemma build_server_typeDefs :
  build_server typeDefs [("User", ["items"]); ("Item", ["user"]); ("Query", ["items"; "user"])] =
  Fulfilled tt.
Proof. vm_compute. reflexivity. Qed.

Section ProcessClaims.
Context {Store : Type} `{!DocStore Store}.
Variable E : env.
Variable s0 : Store.

Local Abbreviation step := (pstep E s0).

(** The first four statements of the load on a valid credential file. *)
Lemma boot_configured sa c :
  env_file E = FileJson sa -> credential_cert (env_pem E) sa = Fulfilled c ->
  boot E s0 4 init = Proc Binding (Some (App "[DEFAULT]" c)) [].
Proof.
  intros Hf Hc. cbn -[credential_cert build_server]. rewrite Hf.
  cbn -[credential_cert build_server]. rewrite Hc.
  cbn -[build_server]. by rewrite build_server_typeDefs.
Qed.

(** C15: in every state the process reaches, it has written nothing
    while loading, only its crash once exited, and once listening the
    startup line with its URL first and after it only answers of
    [handle_request]; the default app exists from [initializeApp] on. *)
Theorem reachable_inv p : rtc step init p -> proc_inv p.
Proof. apply rtc_pstep_inv. by split. Qed.

(** The module load terminates: from any state, five statements
    bring the process to serving or exited, through steps of the
    process. *)
Theorem boot_terminates p :
  booting (ph (boot E s0 5 p)) = false /\ rtc step p (boot E s0 5 p).
Proof.
  split; [apply boot_finished | apply boot_rtc].
  destruct (ph p); simpl; lia.
Qed.

(** C16: with a valid credential file and a free port the process
    reaches the serving state: the default app initialised with the
    file's credential and the startup line, with the URL, printed
    once. *)
Theorem boot_reaches_serving sa c url :
  env_file E = FileJson sa -> credential_cert (env_pem E) sa = Fulfilled c ->
  env_listen E = Fulfilled url ->
  boot E s0 5 init = Proc (Serving url) (Some (App "[DEFAULT]" c)) [EvStdout (ready_line url)] /\
  rtc step init (Proc (Serving url) (Some (App "[DEFAULT]" c)) [EvStdout (ready_line url)]).
Proof.
  intros Hf Hc Hl.
  assert (Hb : boot E s0 5 init = Proc (Serving url) (Some (App "[DEFAULT]" c)) [EvStdout (ready_line url)]).
  { rewrite (boot_add E s0 4 1).
    rewrite (boot_configured sa c) by done. simpl. by rewrite Hl. }
  split; [done|]. rewrite <- Hb. apply boot_rtc.
Qed.

(** C17: [server.listen()] has no [catch]: when the port cannot be
    bound the rejection is unhandled and ends the process, which
    printed nothing and never serves a request. *)
Theorem listen_rejection_crashes sa c e :
  env_file E = FileJson sa -> credential_cert (env_pem E) sa = Fulfilled c ->
  env_listen E = Rejected e ->
  boot E s0 5 init = Proc (Exited e) (Some (App "[DEFAULT]" c)) [EvCrash e] /\
  forall p url, rtc step init p -> ph p <> Serving url.
Proof.
  intros Hf Hc Hl. split.
  - rewrite (boot_add E s0 4 1).
    rewrite (boot_configured sa c) by done. simpl. by rewrite Hl.
  - intros p url Hr. by eapply (listen_rejected_not_serving E s0 init p e Hl).
Qed.

(** C18: without the credential file the [require] of line 4 throws:
    the process exits before [initializeApp], having written only the
    crash, and reaches no other state. *)
Theorem missing_credentials_crash p :
  env_file E = FileMissing -> rtc step init p ->
  p = init \/ p = Proc (Exited module_not_found) None [EvCrash module_not_found].
Proof.
  intros Hf Hr. inversion Hr as [|p1 p2 p3 Hs Hr']; subst; [by left|right].
  inversion Hs as [p1 p2' Hb|p1 url s q Hph]; subst; [|done].
  revert Hb. unfold boot_step. simpl. rewrite Hf. intros [= <-].
  by eapply rtc_exited in Hr'.
Qed.

End ProcessClaims.
