(* ===== verification/Service.v ===== *)
(** * Service: the listening server answering requests on the event loop

    [Lifecycle] answers a request in one step, with the sequential
    execution of [Execute].  This file refines the serving phase with the
    event loop of [Async]: a valid request starts the execution of its
    merged query ([aserver]), each turn of the loop is a step of the
    process, the answer is written in the turn that builds the response,
    and the first rejection a turn leaves unhandled ends the process, as
    Node does from version 15 on when no [unhandledRejection] listener is
    installed (the program installs none, and neither does the server).
    Requests are served concurrently, as Node serves them: the requests in
    flight are a finite map from request ids to the state of their loop,
    and any of them may take the next turn.

    The refinement theorem relates every state of this process to a state
    of the process of [Lifecycle]: the same phase and the same output, up
    to the errors of each answer, unless a request has ended the process.
    The last theorem shows that one request can end it on every store
    where an item's owner is missing, whatever the other requests do. *)
From S2P Require Import Prelude Js Firestore Schema Resolvers Execute Async AsyncSim Api Concurrency Validate Lifecycle.
From stdpp Require Import options.

Local Open Scope string_scope.
Local Open Scope list_scope.

(** ** The process *)

(** A [GraphQLError], the value a field promise rejects with. *)
Definition graphql_error_value (e : gql_error) : js_error :=
  JsError ErrorClass "GraphQLError" (ge_message e) (ge_code e).

(** The answer written for a response: Apollo's formatting of its
    errors. *)
Definition formatted (r : response) : response := Response (resp_data r) (format_error <$> resp_errors r).

(** The query a valid request executes, merged by response name as
    [handle_request] merges it. *)
Definition executed_query (q : list selection) : list selection := normalize_with (sels_depth q) q.

Definition answer (p : proc) (q : list selection) (r : request_result) : proc :=
  Proc (ph p) (default_app p) (output p ++ [EvAnswer q r]).

(** What a turn of the loop writes, from a state whose response was
    [before] and which had [un] unhandled rejections to the state [a']:
    the answer when this turn builds the response, then the crash on the
    first rejection this turn leaves unhandled. *)
Definition turn_effect (p : proc) (q : list selection) (before : option response) (un : nat) (a' : aconf) : proc :=
  let p1 := match before, ac_response a' with
            | None, Some r => answer p q (Executed (formatted r))
            | _, _ => p
            end in
  match drop un (ac_unhandled a') with
  | e :: _ => crash p1 (graphql_error_value e)
  | [] => p1
  end.

(** Two events agree when they are equal, or answer the same request
    with the same data. *)
Definition event_agrees (e1 e2 : event) : Prop :=
  match e1, e2 with
  | EvAnswer q1 (Executed r1), EvAnswer q2 (Executed r2) => q1 = q2 /\ resp_data r1 = resp_data r2
  | _, _ => e1 = e2
  end.

Section Service.
Context {Store : Type} `{!DocStore Store}.
Variable E : env.
Variable s0 : Store.

(** A request in flight: its store, its query and the state of its
    event loop. *)
Definition request : Type := Store * list selection * aconf.

(** The process, the id the next request gets, and the requests in
    flight. *)
Record sproc := SProc { sp_proc : proc; sp_next : nat; sp_requests : gmap nat request }.

Inductive sstep : sproc -> sproc -> Prop :=
| sstep_boot p p' :
    boot_step E s0 p = Some p' -> sstep (SProc p 0 ∅) (SProc p' 0 ∅)
| sstep_invalid p url n rs q :
    ph p = Serving url -> validate typeDefs q <> [] ->
    sstep (SProc p n rs) (SProc (answer p q (ValidationFailed (validate typeDefs q))) n rs)
| sstep_start p url n rs s q :
    ph p = Serving url -> validate typeDefs q = [] ->
    sstep (SProc p n rs)
          (SProc (turn_effect p q None 0 (aserver s (executed_query q))) (S n)
                 (<[n := (s, q, aserver s (executed_query q))]> rs))
| sstep_turn p url n rs i s q a a' :
    ph p = Serving url -> rs !! i = Some (s, q, a) -> astep typeDefs (lookup_resolver s) a a' ->
    sstep (SProc p n rs)
          (SProc (turn_effect p q (ac_response a) (length (ac_unhandled a)) a') n (<[i := (s, q, a')]> rs))
| sstep_idle p url n rs i s q a :
    ph p = Serving url -> rs !! i = Some (s, q, a) -> ec_tasks (ac_ctx a) = ∅ ->
    sstep (SProc p n rs) (SProc p n (delete i rs)).

(** A request has ended the process. *)
Definition request_crashed (x : sproc) : Prop :=
  (exists e, ph (sp_proc x) = Exited e) /\ sp_requests x <> ∅.

(** [p] and the state [p'] of the process of [Lifecycle]: the same
    phase, the same app, outputs that agree. *)
Definition sim_out (p p' : proc) : Prop :=
  ph p' = ph p /\ default_app p' = default_app p /\ Forall2 event_agrees (output p) (output p').

(** A request in flight was valid, has left no rejection unhandled, and
    its loop is a run of the event loop on its merged query. *)
Definition req_ok (r : request) : Prop :=
  let '(s, q, a) := r in
  validate typeDefs q = [] /\ ac_unhandled a = [] /\
  rtc (astep typeDefs (lookup_resolver s)) (aserver s (executed_query q)) a.

Definition srefines (x : sproc) : Prop :=
  request_crashed x \/
  exists p', rtc (pstep E s0) init p' /\ sim_out (sp_proc x) p' /\ map_Forall (fun _ => req_ok) (sp_requests x).

(** ** Lemmas *)

Lemma event_agrees_refl e : event_agrees e e.
Proof. destruct e as [| q [r|errs]|]; simpl; auto. Qed.

Lemma Forall2_event_agrees_app o o' l :
  Forall2 event_agrees o o' -> Forall2 event_agrees (o ++ l) (o' ++ l).
Proof. intros H. apply Forall2_app; [done|]. apply Forall_Forall2_diag, Forall_forall. intros. apply event_agrees_refl. Qed.

(** A statement of the module load depends on the phase and the app, and
    appends to the output. *)
Lemma boot_step_frame p p1 :
  boot_step E s0 p = Some p1 ->
  exists l, output p1 = output p ++ l /\
    forall o, boot_step E s0 (Proc (ph p) (default_app p) o) = Some (Proc (ph p1) (default_app p1) (o ++ l)).
Proof.
  destruct p as [x app o0]. unfold boot_step. cbn [ph default_app output].
  destruct x; intros [= <-]; repeat case_match; simpl;
    first [exists []; split; [by rewrite app_nil_r | intros o; by rewrite app_nil_r]
          | eexists; split; [reflexivity | done]].
Qed.

Lemma handle_request_valid (s : Store) q :
  validate typeDefs q = [] -> handle_request s q = Executed (server s (executed_query q)).
Proof. unfold handle_request. by intros ->. Qed.

(** A turn writes an answer, which keeps the phase, or ends the process. *)
Lemma turn_effect_ph p q before un a' :
  ph (turn_effect p q before un a') = ph p \/ exists e, ph (turn_effect p q before un a') = Exited e.
Proof. unfold turn_effect. repeat case_match; simpl; eauto. Qed.

(** Nothing follows the end of the process. *)
Lemma sstep_exited x y e : ph (sp_proc x) = Exited e -> ~ sstep x y.
Proof.
  intros Hx Hst. destruct Hst as [p p' Hb| | | |]; simpl in Hx; try congruence.
  unfold boot_step in Hb. by rewrite Hx in Hb.
Qed.

(** The turn that builds the response of a valid request is matched by
    the step of [Lifecycle] that answers it. *)
Lemma answer_sim p p' url (s : Store) q a r :
  sim_out p p' -> ph p' = Serving url -> validate typeDefs q = [] ->
  rtc (astep typeDefs (lookup_resolver s)) (aserver s (executed_query q)) a -> ac_response a = Some r ->
  pstep E s0 p' (Proc (Serving url) (default_app p') (output p' ++ [EvAnswer q (handle_request s q)])) /\
  sim_out (answer p q (Executed (formatted r)))
          (Proc (Serving url) (default_app p') (output p' ++ [EvAnswer q (handle_request s q)])).
Proof.
  intros (Hph & Happ & Hout) Hp Hv Hr Ha. split; [by constructor|].
  unfold sim_out; simpl. split_and!; [congruence|done|]. apply Forall2_app; [done|].
  constructor; [|constructor]. rewrite handle_request_valid by done. simpl. split; [done|].
  apply (async_response_data _ _ _ _ _ Hr Ha).
Qed.

(** The effect of a turn of request [i] on a process that matches one of
    [Lifecycle]: either it ends the process, or it matches the same
    state or the state after the answer. *)
Lemma turn_sim p p' url n rs i (s : Store) q before a' :
  rtc (pstep E s0) init p' -> sim_out p p' -> ph p = Serving url -> map_Forall (fun _ => req_ok) rs ->
  validate typeDefs q = [] -> rtc (astep typeDefs (lookup_resolver s)) (aserver s (executed_query q)) a' ->
  srefines (SProc (turn_effect p q before 0 a') n (<[i := (s, q, a')]> rs)).
Proof.
  intros Hp' Hsim Hph Hrs Hv Hr. unfold turn_effect. rewrite drop_0.
  destruct (ac_unhandled a') as [|e un] eqn:Hun'; [|left; split; [by eexists|apply insert_non_empty]].
  right. assert (Hrs' : map_Forall (fun _ => req_ok) (<[i := (s, q, a')]> rs)) by by apply map_Forall_insert_2.
  destruct before as [r0|]; [|destruct (ac_response a') as [r|] eqn:Ha'].
  - by exists p'.
  - assert (Hp : ph p' = Serving url) by (destruct Hsim; congruence).
    destruct (answer_sim p p' url s q a' r Hsim Hp Hv Hr Ha') as [Hst Hsim'].
    eexists. split; [eapply rtc_r; [exact Hp'|exact Hst]|]. by split.
  - by exists p'.
Qed.

(** The module load, as steps of this process. *)
Lemma sboot_rtc k p : rtc sstep (SProc p 0 ∅) (SProc (boot E s0 k p) 0 ∅).
Proof.
  revert p. induction k as [|k IH]; intros p; simpl; [done|].
  destruct (boot_step E s0 p) eqn:Hs; [|done].
  eapply rtc_l; [by constructor | apply IH].
Qed.

(** Every step keeps the relation with [Lifecycle]. *)
Lemma srefines_step x y : srefines x -> sstep x y -> srefines y.
Proof.
  intros [[[e He] Hs]|(p' & Hp' & Hsim & Hreq)] Hst.
  - by apply sstep_exited with (e := e) in Hst.
  - pose proof Hsim as (Hph' & Happ' & Hout').
    destruct Hst as [p p1 Hb|p url n rs q Hph Hv|p url n rs s q Hph Hv|p url n rs i s q a a' Hph Hi Ha
                    |p url n rs i s q a Hph Hi He]; simpl in *.
    + destruct (boot_step_frame p p1 Hb) as (l & Hl & Hf). right.
      exists (Proc (ph p1) (default_app p1) (output p' ++ l)). split; [|split; [|apply map_Forall_empty]].
      * eapply rtc_r; [exact Hp'|]. constructor. destruct p' as [x' app' o']. simpl in *. subst. apply Hf.
      * unfold sim_out; simpl. split_and!; [done|done|]. rewrite Hl. by apply Forall2_event_agrees_app.
    + right. exists (Proc (Serving url) (default_app p') (output p' ++ [EvAnswer q (handle_request s0 q)])).
      split; [eapply rtc_r; [exact Hp'|]; constructor; congruence|split; [|done]].
      unfold sim_out, answer, handle_request; simpl. split_and!; [done|done|].
      destruct (validate typeDefs q); [done|]. by apply Forall2_event_agrees_app.
    + by apply (turn_sim p p' url).
    + destruct (Hreq i _ Hi) as (Hv & Hun & Hr). rewrite Hun. cbn [length].
      apply (turn_sim p p' url); [done..|]. by eapply rtc_r.
    + right. exists p'. split_and!; [done|done|]. by apply map_Forall_delete.
Qed.

(** The server on the event loop refines the process of
    [Lifecycle]: every state it reaches, whatever requests are in flight
    and whatever order their reads settle in, unless a request's
    unhandled rejection has ended it, is in the phase of a state the
    sequential process reaches and has written the same lines, the same
    crashes and answers to the same requests with the same data, in the
    same order; only the errors of an answer may differ. *)
Theorem service_refines_process x :
  rtc sstep (SProc init 0 ∅) x ->
  request_crashed x \/
  exists p', rtc (pstep E s0) init p' /\ ph p' = ph (sp_proc x) /\
             Forall2 event_agrees (output (sp_proc x)) (output p').
Proof.
  intros Hr. assert (Hx : srefines x).
  { apply (rtc_preserves sstep srefines (SProc init 0 ∅)); [intros a b Hab Ha; by eapply srefines_step| |exact Hr].
    right. exists init. split; [done|]. split; [unfold sim_out; split_and!; [done|done|constructor]|apply map_Forall_empty]. }
  destruct Hx as [Hc|(p' & Hp' & (Hph & _ & Hout) & _)]; [by left|right]. by exists p'.
Qed.

End Service.

Arguments SProc {_} _ _ _.
Arguments sp_proc {_} _.
Arguments sp_next {_} _.
Arguments sp_requests {_} _.

(** ** One request ends the process *)

Section KeysRequest.
Context {Store : Type} `{!DocStore Store}.
Variable E : env.
Variable s0 : Store.
Local Abbreviation step := (sstep E s0).
Local Abbreviation keys_q := owners_and_keys_query.

(** The request [{ items { user { id } userId { id } } }] on the store
    [s], just started, and a serving process [p] holding it alone. *)
Definition keys_req (s : Store) : request := (s, keys_q, aserver s keys_q).

Definition keys_started (p : proc) (s : Store) : sproc := SProc p 1 (<[0 := keys_req s]> ∅).

(** Request [0] of [x] is that request, at its start or after its
    listing with the owner read of item [i] still pending and nothing
    unhandled, unless the process has ended. *)
Definition keys_sinv (s : Store) qs (i : nat) (x : sproc) : Prop :=
  (exists e, ph (sp_proc x) = Exited e) \/
  ((exists url, ph (sp_proc x) = Serving url) /\ 0 < sp_next x /\
   exists a, sp_requests x !! 0 = Some (s, keys_q, a) /\
     (a = aserver s keys_q \/
      (keys_inv s qs a /\ ac_unhandled a = [] /\ is_Some (ec_tasks (ac_ctx a) !! Datatypes.S i)))).

Lemma keys_valid : validate typeDefs keys_q = [].
Proof. vm_compute. reflexivity. Qed.

Lemma keys_executed : executed_query keys_q = keys_q.
Proof. vm_compute. reflexivity. Qed.

(** A turn of a request whose response is already built writes nothing,
    or ends the process on the first rejection it leaves unhandled. *)
Lemma turn_effect_responded p q r a' :
  turn_effect p q (Some r) 0 a' =
  match ac_unhandled a' with e :: _ => crash p (graphql_error_value e) | [] => p end.
Proof. unfold turn_effect. rewrite drop_0. by destruct (ac_response a'). Qed.

Lemma keys_request_start p url s : ph p = Serving url -> step (SProc p 0 ∅) (keys_started p s).
Proof.
  intros Hp. pose proof (sstep_start E s0 p url 0 ∅ s keys_q Hp keys_valid) as Hst.
  assert (He : turn_effect p keys_q None 0 (aserver s keys_q) = p) by (unfold turn_effect; by rewrite aserver_keys).
  rewrite keys_executed, He in Hst. exact Hst.
Qed.

(** The first turn of the request answers it. *)
Lemma keys_first_effect p (s : Store) qs a' :
  query_items s = Fulfilled (docs_data qs) -> settle typeDefs (lookup_resolver s) 0 (aserver s keys_q) = Some a' ->
  ph (turn_effect p keys_q (ac_response (aserver s keys_q)) (length (ac_unhandled (aserver s keys_q))) a') = ph p.
Proof.
  intros Hq Hs. destruct (keys_first_state s qs a' Hq Hs) as [Hun _].
  destruct (keys_inv_first s qs a' Hq Hs) as (_ & _ & _ & _ & _ & _ & Hr & _).
  unfold turn_effect. rewrite aserver_keys. cbn [ac_response ac_unhandled length]. by rewrite Hr, Hun.
Qed.

Section Dangling.
Variables (s : Store) (qs : list (string * doc)) (i : nat) (k : string) (d : doc).
Hypothesis Hq : query_items s = Fulfilled (docs_data qs).
Hypothesis Hi : qs !! i = Some (k, d).
Hypothesis Hd : dangling s d.

(** A later turn of the request either ends the process or leaves the
    owner read of item [i] pending. *)
Lemma keys_later_turn p a a' :
  keys_inv s qs a -> ac_unhandled a = [] -> is_Some (ec_tasks (ac_ctx a) !! Datatypes.S i) ->
  astep typeDefs (lookup_resolver s) a a' ->
  (exists e, ph (turn_effect p keys_q (ac_response a) (length (ac_unhandled a)) a') = Exited e) \/
  (turn_effect p keys_q (ac_response a) (length (ac_unhandled a)) a' = p /\
   keys_inv s qs a' /\ ac_unhandled a' = [] /\ is_Some (ec_tasks (ac_ctx a') !! Datatypes.S i)).
Proof using Hi Hd.
  intros Hinv Hun Hpend Hst. inversion Hst as [? j ? Hs]; subst; clear Hst.
  destruct (keys_settle s qs a j a' Hinv Hs) as (i' & k' & d' & y & -> & Hi' & Hy & Hun' & Ht' & Hinv').
  destruct Hinv as (_ & _ & _ & _ & _ & _ & Hr & _). rewrite Hr, Hun. cbn [length].
  rewrite turn_effect_responded, Hun', Hun, app_nil_l.
  destruct (rej y) as [|e ?] eqn:Hrej; [|left; eexists; reflexivity].
  right. split_and!; [done|done|done|]. rewrite Ht'. rewrite lookup_delete_ne; [done|].
  intros [= ->]. rewrite Hi in Hi'. injection Hi' as <- <-. by rewrite (Hy Hd) in Hrej.
Qed.

(** Whatever the other requests do, request [0] stays in flight with
    the owner read of item [i] pending until the process ends. *)
Lemma keys_sinv_step x y : keys_sinv s qs i x -> step x y -> keys_sinv s qs i y.
Proof using Hq Hi Hd.
  intros [[e Hex]|([url Hph] & Hn & a & H0 & Ha)] Hst; [by apply sstep_exited with (e := e) in Hst|].
  unfold keys_sinv.
  destruct Hst as [p p1 Hb|p url' n rs q Hph' Hv|p url' n rs s' q Hph' Hv|p url' n rs i0 s' q a0 a' Hph' Hi0 Hst'
                  |p url' n rs i0 s' q a0 Hph' Hi0 He]; cbn [sp_proc sp_next sp_requests] in *.
  - by rewrite lookup_empty in H0.
  - right. split_and!; [by eexists|done|]. by exists a.
  - destruct (turn_effect_ph p q None 0 (aserver s' (executed_query q))) as [Hp|Hp]; [|by left].
    right. split_and!; [exists url'; congruence|lia|]. exists a. by rewrite lookup_insert_ne by lia.
  - destruct (decide (i0 = 0)) as [->|Hne].
    + rewrite H0 in Hi0. injection Hi0 as <- <- <-. destruct Ha as [->|(Hinv & Hun & Hpend)].
      * apply aserver_keys_step in Hst'. right.
        split_and!; [exists url'; by rewrite (keys_first_effect p s qs a' Hq Hst')|done|].
        exists a'. rewrite lookup_insert_eq. split; [done|right].
        destruct (keys_first_state s qs a' Hq Hst') as [Hun Hp]. split_and!; [by apply (keys_inv_first s qs)|done|].
        apply Hp. by eapply lookup_lt_Some.
      * destruct (keys_later_turn p a a' Hinv Hun Hpend Hst') as [Hc|(-> & Hinv' & Hun' & Hpend')]; [by left|].
        right. split_and!; [by eexists|done|]. exists a'. rewrite lookup_insert_eq. split; [done|by right].
    + destruct (turn_effect_ph p q (ac_response a0) (length (ac_unhandled a0)) a') as [Hp|Hp]; [|by left].
      right. split_and!; [exists url'; congruence|done|]. exists a. by rewrite lookup_insert_ne.
  - destruct (decide (i0 = 0)) as [->|Hne].
    + rewrite H0 in Hi0. injection Hi0 as <- <- <-. destruct Ha as [->|(_ & _ & Hpend)].
      * by rewrite aserver_keys in He.
      * rewrite He in Hpend. by destruct Hpend as [? Hx%lookup_empty_Some].
    + right. split_and!; [by eexists|done|]. exists a. by rewrite lookup_delete_ne.
Qed.

(** From every state where it is in flight, the request can still end
    the process on the rejection of item [i]'s owner read. *)
Lemma keys_can_crash p n rs url a :
  ph p = Serving url -> rs !! 0 = Some (s, keys_q, a) ->
  (a = aserver s keys_q \/ (keys_inv s qs a /\ ac_unhandled a = [] /\ is_Some (ec_tasks (ac_ctx a) !! Datatypes.S i))) ->
  exists y, rtc step (SProc p n rs) y /\ ph (sp_proc y) = Exited (graphql_error_value (owner_error i)).
Proof using Hq Hi Hd.
  assert (Last : forall p n rs a, ph p = Serving url -> rs !! 0 = Some (s, keys_q, a) ->
            keys_inv s qs a -> ac_unhandled a = [] -> is_Some (ec_tasks (ac_ctx a) !! Datatypes.S i) ->
            exists y, rtc step (SProc p n rs) y /\ ph (sp_proc y) = Exited (graphql_error_value (owner_error i))).
  { intros p' n' rs' a0 Hp' H0 Hinv Hun Hpend.
    destruct (settle_is_Some typeDefs (lookup_resolver s) (Datatypes.S i) a0 Hpend) as [a' Hs].
    destruct (keys_settle s qs a0 _ a' Hinv Hs) as (i' & k' & d' & y & [= <-] & Hi' & Hy & Hun' & _).
    rewrite Hi in Hi'. injection Hi' as <- <-.
    pose proof (sstep_turn E s0 p' url n' rs' 0 s keys_q a0 a' Hp' H0 (astep_settle _ _ _ _ _ Hs)) as Hst.
    eexists. split; [apply rtc_once, Hst|]. cbn [sp_proc].
    destruct Hinv as (_ & _ & _ & _ & _ & _ & Hr & _). rewrite Hr, Hun, turn_effect_responded, Hun', Hun, (Hy Hd). reflexivity. }
  intros Hp H0 [->|(Hinv & Hun & Hpend)]; [|by apply (Last p n rs a)].
  destruct (settle_is_Some typeDefs (lookup_resolver s) 0 (aserver s keys_q)) as [a1 Hs];
    [rewrite aserver_keys; by eexists|].
  pose proof (sstep_turn E s0 p url n rs 0 s keys_q _ a1 Hp H0 (astep_settle _ _ _ _ _ Hs)) as Hst.
  destruct (keys_first_state s qs a1 Hq Hs) as [Hun Hpend].
  destruct (Last (turn_effect p keys_q (ac_response (aserver s keys_q)) (length (ac_unhandled (aserver s keys_q))) a1)
              n (<[0 := (s, keys_q, a1)]> rs) a1) as (y & Hy & Hey).
  - by rewrite (keys_first_effect p s qs a1 Hq Hs).
  - by rewrite lookup_insert_eq.
  - by apply (keys_inv_first s qs).
  - done.
  - apply Hpend. by eapply lookup_lt_Some.
  - exists y. split; [eapply rtc_l; [exact Hst|exact Hy]|done].
Qed.

End Dangling.

(** C29: the request [{ items { user { id } userId { id } } }] ends the
    server on every store where an item's owner is missing: once a
    serving process starts it, whatever other requests start and
    whatever order all the reads settle in, the process has either
    ended, and nothing follows, or still holds that request, which
    never completes, and can always go on to crash on the unhandled
    rejection of that item's [Item.user]. *)
Theorem dangling_owner_request_crashes (p : proc) url (s : Store) qs i k d :
  ph p = Serving url -> query_items s = Fulfilled (docs_data qs) -> qs !! i = Some (k, d) ->
  item_user s (JObject d) = Fulfilled JUndefined ->
  step (SProc p 0 ∅) (keys_started p s) /\
  forall x, rtc step (keys_started p s) x ->
    (exists e, ph (sp_proc x) = Exited e /\ forall y, ~ step x y) \/
    (is_Some (sp_requests x !! 0) /\
     exists y, rtc step x y /\ ph (sp_proc y) = Exited (graphql_error_value (owner_error i))).
Proof.
  intros Hp Hq Hi Hd. split; [by eapply keys_request_start|]. intros x Hr.
  assert (Hx : keys_sinv s qs i x).
  { apply (rtc_preserves step (keys_sinv s qs i) (keys_started p s)); [intros a b Hab Ha; by eapply keys_sinv_step| |exact Hr].
    right. split_and!; [by eexists|simpl; lia|]. exists (aserver s keys_q). split; [apply lookup_insert_eq|by left]. }
  destruct Hx as [[e He]|([url' Hph] & _ & a & H0 & Ha)].
  - left. exists e. split; [done|]. intros y. by apply sstep_exited with (e := e).
  - right. split; [by eexists|]. destruct x as [px nx rsx]. simpl in *. by eapply keys_can_crash.
Qed.

End KeysRequest.
